(** * opt_com demo front end: tree layout engine, tree reducer, TTS route

    A shallow embedding of
    - [app/OptimizationTree.tsx]: the [useMemo] blocks that build, place and
      traverse the optimization tree, [getNodeColor], the scroll effect and
      the progress bar,
    - [app/page.tsx]: [handleOptimizeEvent], [handleOptimize], [handleRun]
      with the callbacks they hand to the stream sessions, [handleNodeClick],
      and the values the page derives from the event log,
    - [app/api/tts/route.ts]: [POST],
    with the properties of them that the specification states, and further
    properties read off the code.

    The memos are embedded twice.  [Layout] addresses the [TreeNode]s by
    their id, which is how the code finds them ([nodeMap]); the structural
    properties are proved there.  [Mem] gives every object an address of its
    own in one memory that also holds the props; [Refine] proves that a
    render over [Mem] draws what [Layout] computes and writes to new objects
    only.

    Numbers.  A JavaScript [number] is a double.  [round_index] and every
    coordinate are integers, modelled as [Z]; an operation on them whose
    operands are not bounded by the size of an array is rounded to the nearest
    double ([Double.fl]), as IEEE 754 has it.  [communication_tokens], which
    the page prints with [toFixed(1)], is a rational [Q]: on finite values the
    sign of [a - b] is the same for doubles and rationals, and the sign is all
    that [Array.prototype.sort] looks at.  [NaN] and infinities are not
    modelled, and a [round_index] is taken to be an integer that a double
    holds. *)

From Stdlib Require Import ZArith QArith Lia Lqa.
From stdpp Require Import base option list gmap strings sorting.

Local Open Scope Z_scope.

(* ===================================================================== *)
(** * Data model *)
(* ===================================================================== *)

(** Modelled from the spec: [ProtocolNode] of [@/lib/types], a file that is
    not among the sources.  The fields are those of the specification's data
    model; they are also all the fields the three files read. *)
Record ProtocolNode := mkProtocolNode {
  id : string;
  parent_id : option string;          (* [null] is [None] *)
  round_index : Z;
  communication_tokens : Q;
  rule : string
}.

(** [TreeNode = ProtocolNode & { x; y; children }].  A [TreeNode] is a mutable
    object; every live one is the value the [nodeMap] holds under its own [id],
    so here the heap of [TreeNode]s is addressed by id and a reference to a
    [TreeNode] is that id ([Refine.sim] relates this heap to a memory of
    objects with addresses of their own). *)
Record TreeNode := mkTreeNode {
  node : ProtocolNode;                (* the spread [...node] *)
  x : Z;
  y : Z;
  children : list string              (* references *)
}.

Abbreviation Heap := (gmap string TreeNode).

(** ** Integers in double precision

    A double holds an integer with a significand of 53 bits.  [fl z] is the
    double that an operation with the exact integer result [z] returns: [z]
    itself up to [2^53], and beyond it the nearest multiple of the unit in the
    last place, a tie going to the even significand. *)
Module Double.

Definition fl (z : Z) : Z :=
  let a := Z.abs z in
  if a <=? 2 ^ 53 then z
  else
    let ulp := 2 ^ (Z.log2 a - 52) in
    let q := a / ulp in
    let r := a mod ulp in
    let q' := if 2 * r <? ulp then q
              else if ulp <? 2 * r then q + 1
              else if Z.even q then q else q + 1 in
    Z.sgn z * (q' * ulp).

Definition add (a b : Z) : Z := fl (a + b).
Definition sub (a b : Z) : Z := fl (a - b).
Definition mul (a b : Z) : Z := fl (a * b).

End Double.

Module Layout.

(* ===================================================================== *)
(** * [Array.prototype.sort] *)
(* ===================================================================== *)

(** ECMAScript 2019 makes [sort] stable.  For a comparator that is a total
    preorder the sorted array is then unique; the stable insertion sort below
    computes it ([x] is put in front of the first element it does not
    exceed, hence in front of its equals that came later). *)
Section Sort.
Context {A : Type} (compareFn : A → A → Q).

Fixpoint sort_insert (a : A) (l : list A) : list A :=
  match l with
  | [] => [a]
  | b :: l' => if Qle_bool (compareFn a b) 0 then a :: b :: l'
               else b :: sort_insert a l'
  end.

Fixpoint sort (l : list A) : list A :=
  match l with
  | [] => []
  | a :: l' => sort_insert a (sort l')
  end.
End Sort.

(* ===================================================================== *)
(** * The layout [useMemo] *)
(* ===================================================================== *)

Definition NODE_WIDTH : Z := 140.
Definition NODE_HEIGHT : Z := 80.
Definition LEVEL_HEIGHT : Z := 160.
Definition NODE_SPACING : Z := 20.

(** [nodeMap.set(node.id, { ...node, x: 0, y: 0, children: [] })].  A [Map]
    keeps its keys in insertion order and a [set] on a present key keeps the
    key's place; the pair is (keys in order, objects). *)
Definition nodeMap_set (st : list string * Heap) (n : ProtocolNode)
  : list string * Heap :=
  ((if decide (id n ∈ st.1) then st.1 else st.1 ++ [id n]),
   <[id n := mkTreeNode n 0 0 []]> st.2).

Definition build_nodeMap (nodes : list ProtocolNode) : list string * Heap :=
  foldl nodeMap_set ([], ∅) nodes.

(** [parent.children.push(treeNode)] *)
Definition push_child (c : string) (t : TreeNode) : TreeNode :=
  mkTreeNode (node t) (x t) (y t) (children t ++ [c]).

(** The body of the first [nodeMap.forEach]; the state is the heap and the
    local [root]. *)
Definition link_step (st : Heap * option string) (k : string)
  : Heap * option string :=
  match st.1 !! k with
  | None => st
  | Some treeNode =>
      match parent_id (node treeNode) with
      | None => (st.1, Some k)
      | Some p =>
          match st.1 !! p with
          | Some _ => (alter (push_child k) p st.1, st.2)
          | None => st
          end
      end
  end.

Definition link (keys : list string) (h : Heap) : Heap * option string :=
  foldl link_step (h, None) keys.

(** [roundGroups]: a [Map<number, TreeNode[]>], again in insertion order.  An
    array element is a reference; it is kept together with the immutable
    [ProtocolNode] part of the object it points to, which is what the
    comparator reads. *)
Definition RoundGroups := list (Z * list ProtocolNode).

(** [if (!roundGroups.has(round)) roundGroups.set(round, []);
    roundGroups.get(round)!.push(node)] *)
Fixpoint group_push {A} (round : Z) (n : A) (g : list (Z * list A))
  : list (Z * list A) :=
  match g with
  | [] => [(round, [n])]
  | (r, ns) :: g' =>
      if decide (r = round) then (r, ns ++ [n]) :: g'
      else (r, ns) :: group_push round n g'
  end.

Definition group_step (h : Heap) (g : RoundGroups) (k : string) : RoundGroups :=
  match h !! k with
  | None => g
  | Some t => group_push (round_index (node t)) (node t) g
  end.

Definition build_roundGroups (keys : list string) (h : Heap) : RoundGroups :=
  foldl (group_step h) [] keys.

(** The comparator handed to [roundNodes.sort]. *)
Definition compareNodes (bestPathSet : gset string) (a b : ProtocolNode) : Q :=
  let aIsBest := if decide (id a ∈ bestPathSet) then 0 else 1 in
  let bIsBest := if decide (id b ∈ bestPathSet) then 0 else 1 in
  if decide (aIsBest ≠ bIsBest) then inject_Z (aIsBest - bIsBest)
  else (communication_tokens a - communication_tokens b)%Q.

(** [roundNodes.length * NODE_WIDTH + (roundNodes.length - 1) * NODE_SPACING] *)
Definition rowWidth {A} (roundNodes : list A) : Z :=
  Z.of_nat (length roundNodes) * NODE_WIDTH
  + (Z.of_nat (length roundNodes) - 1) * NODE_SPACING.

Definition set_xy (x' y' : Z) (t : TreeNode) : TreeNode :=
  mkTreeNode (node t) x' y' (children t).

Definition add_x (offset : Z) (t : TreeNode) : TreeNode :=
  mkTreeNode (node t) (x t + offset) (y t) (children t).

(** [roundNodes.forEach((node, index) => { node.x = ...; node.y = ... })].
    [index] is an array index, below [2^32], so [x] is exact; [round] is any
    number, and each operation of [round * LEVEL_HEIGHT + NODE_HEIGHT / 2 + 40]
    is rounded. *)
Fixpoint place_row (round : Z) (index : nat) (roundNodes : list ProtocolNode)
    (h : Heap) : Heap :=
  match roundNodes with
  | [] => h
  | n :: rest =>
      place_row round (S index) rest
        (alter (set_xy (Z.of_nat index * (NODE_WIDTH + NODE_SPACING) + NODE_WIDTH / 2)
                       (Double.add (Double.add (Double.mul round LEVEL_HEIGHT)
                                               (NODE_HEIGHT / 2)) 40))
               (id n) h)
  end.

(** State of the "Calculate positions" loop: the groups already visited (now
    sorted in place), [maxWidth] and the heap. *)
Definition position_step (bestPathSet : gset string)
    (st : RoundGroups * Z * Heap) (entry : Z * list ProtocolNode)
  : RoundGroups * Z * Heap :=
  let '(done, maxWidth, h) := st in
  let '(round, roundNodes) := entry in
  let roundNodes := sort (compareNodes bestPathSet) roundNodes in
  let totalWidth := rowWidth roundNodes in
  (done ++ [(round, roundNodes)], Z.max maxWidth totalWidth,
   place_row round 0 roundNodes h).

Definition center_step (maxWidth : Z) (h : Heap) (entry : Z * list ProtocolNode)
  : Heap :=
  let roundWidth := rowWidth entry.2 in
  let offset := (maxWidth - roundWidth) / 2 in
  foldl (λ h n, alter (add_x offset) (id n) h) h entry.2.

(** [Math.max(...keys)]; [None] is the [-Infinity] of an empty argument
    list. *)
Definition Math_max (l : list Z) : option Z :=
  match l with
  | [] => None
  | k :: ks => Some (foldl Z.max k ks)
  end.

Record LayoutResult := mkLayoutResult {
  treeRoot : option string;
  width : Z;
  height : Z;
  heap : Heap;                 (* the objects [treeRoot] reaches into *)
  rows : RoundGroups;          (* [roundGroups] when the memo returns *)
  maxWidth : Z
}.

Definition empty_layout (h : Heap) : LayoutResult :=
  mkLayoutResult None 800 600 h [] 0.

Definition layout (nodes : list ProtocolNode) (bestPathSet : gset string)
  : LayoutResult :=
  match nodes with
  | [] => empty_layout ∅
  | _ =>
      let '(keys, h) := build_nodeMap nodes in
      let '(h, root) := link keys h in
      match root with
      | None => empty_layout h
      | Some root =>
          let roundGroups := build_roundGroups keys h in
          let '(roundGroups, maxWidth, h) :=
            foldl (position_step bestPathSet) ([], 0, h) roundGroups in
          let h := foldl (center_step maxWidth) h roundGroups in
          let height :=
            match Math_max (roundGroups.*1) with
            | Some maxRound =>
                Double.add (Double.mul (Double.add maxRound 1) LEVEL_HEIGHT) 100
            | None => 0   (* not reached: [roundGroups] is not empty here *)
            end in
          let width := Z.max (maxWidth + 80) 800 in
          mkLayoutResult (Some root) width height h roundGroups maxWidth
      end
  end.

(** ** The [edges] and [allNodes] memos *)

Record Edge := mkEdge { from : string; to : string; isBestPath : bool }.

(** [traverse] recurses along [children]; [fuel] bounds the depth. *)
Fixpoint traverse_edges (fuel : nat) (h : Heap) (bestPathSet : gset string)
    (n : string) : list Edge :=
  match fuel with
  | O => []
  | S fuel =>
      match h !! n with
      | None => []
      | Some t =>
          c ← children t;
          mkEdge n c (bool_decide (n ∈ bestPathSet) && bool_decide (c ∈ bestPathSet))
            :: traverse_edges fuel h bestPathSet c
      end
  end.

Fixpoint traverse_nodes (fuel : nat) (h : Heap) (n : string) : list string :=
  match fuel with
  | O => []
  | S fuel =>
      n :: match h !! n with
           | None => []
           | Some t => c ← children t; traverse_nodes fuel h c
           end
  end.

Definition edges (L : LayoutResult) (bestPathSet : gset string) : list Edge :=
  match treeRoot L with
  | Some root => traverse_edges (size (heap L)) (heap L) bestPathSet root
  | None => []
  end.

Definition allNodes (L : LayoutResult) : list string :=
  match treeRoot L with
  | Some root => traverse_nodes (size (heap L)) (heap L) root
  | None => []
  end.

(** The three memos of the component, from its [nodes] and [bestPath]
    props. *)
Record Rendered := mkRendered {
  layoutOf : LayoutResult;
  edgesOf : list Edge;
  allNodesOf : list string
}.

Definition OptimizationTree (nodes : list ProtocolNode) (bestPath : list string)
  : Rendered :=
  let bestPathSet : gset string := list_to_set bestPath in
  let L := layout nodes bestPathSet in
  mkRendered L (edges L bestPathSet) (allNodes L).

End Layout.

(* ===================================================================== *)
(** * The memos over a memory of objects *)
(* ===================================================================== *)

(** The same three memos, now over one memory of objects that also holds
    what the caller passes in: the [nodes] array, its [ProtocolNode]s and the
    [bestPath] array.  Every object and every array that the memos make (the
    [Set], the [TreeNode]s, their [children] arrays, the arrays of the round
    groups) takes the next free address; a write acts on whatever object is
    at the address it is given, and an array is pushed to and sorted where it
    is.  [None] stands for a [TypeError] ([push] on what is no array) or for
    a value outside of the model ([undefined], [NaN]).

    The two [Map]s and the [result] arrays of the traversals are values: a
    [Map] is written by [set] alone, which throws on any other object, and
    [result] is the array the traversal has made and returns. *)
Module Mem.
Import Layout.

Abbreviation loc := nat.

(** An array element. *)
Inductive Value :=
  | VRef (l : loc)
  | VStr (s : string).

(** What an object is besides its properties. *)
Inductive Kind :=
  | KObject                           (* made by a literal or by [JSON.parse] *)
  | KArray (elems : list Value)
  | KSet (elems : gset string).

(** An object with the properties that the component reads or writes: the
    five of a [ProtocolNode], [x], [y] and [children], each of which an
    object may lack. *)
Record Obj := mkObj {
  o_kind : Kind;
  o_node : option ProtocolNode;
  o_x : option Z;
  o_y : option Z;
  o_children : option loc             (* a reference *)
}.

Abbreviation Memory := (list Obj).

(** The array literal [[]]. *)
Definition new_array : Obj := mkObj (KArray []) None None None None.

(** ** Reads *)

Definition read_node (h : Memory) (l : loc) : option ProtocolNode :=
  h !! l ≫= o_node.
Definition read_children (h : Memory) (l : loc) : option loc :=
  h !! l ≫= o_children.
Definition read_elems (h : Memory) (l : loc) : option (list Value) :=
  o ← h !! l;
  match o_kind o with KArray elems => Some elems | _ => None end.
Definition read_set (h : Memory) (l : loc) : option (gset string) :=
  o ← h !! l;
  match o_kind o with KSet elems => Some elems | _ => None end.

Definition as_ref (v : Value) : option loc :=
  match v with VRef l => Some l | _ => None end.
Definition as_string (v : Value) : option string :=
  match v with VStr s => Some s | _ => None end.

(** The elements of an array of objects and of a [string[]]. *)
Definition read_nodes (h : Memory) (l : loc) : option (list loc) :=
  read_elems h l ≫= mapM as_ref.
Definition read_strings (h : Memory) (l : loc) : option (list string) :=
  read_elems h l ≫= mapM as_string.

(** ** Writes *)

(** The object at [l] is replaced by what [f] makes of it. *)
Definition write (f : Obj → option Obj) (l : loc) (h : Memory) : option Memory :=
  o ← h !! l; o' ← f o; Some (<[l := o']> h).

(** [node.x = x'; node.y = y'], on any object. *)
Definition set_xy (x' y' : Z) (o : Obj) : option Obj :=
  Some (mkObj (o_kind o) (o_node o) (Some x') (Some y') (o_children o)).

(** [node.x += offset]; without an [x] the sum is [NaN]. *)
Definition add_x (offset : Z) (o : Obj) : option Obj :=
  x ← o_x o;
  Some (mkObj (o_kind o) (o_node o) (Some (x + offset)) (o_y o) (o_children o)).

(** The elements of an array are replaced; what is no array has no [push]
    and no [sort]. *)
Definition set_elems (f : list Value → list Value) (o : Obj) : option Obj :=
  match o_kind o with
  | KArray elems =>
      Some (mkObj (KArray (f elems)) (o_node o) (o_x o) (o_y o) (o_children o))
  | _ => None
  end.

(** [array.push(v)] *)
Definition push (v : Value) : Obj → option Obj := set_elems (λ elems, elems ++ [v]).

(** A loop whose body may throw. *)
Fixpoint foldlM {A B} (f : A → B → option A) (a : A) (l : list B) : option A :=
  match l with
  | [] => Some a
  | b :: l' => f a b ≫= λ a', foldlM f a' l'
  end.

(** ** The [bestPathSet] memo: [new Set(bestPath)] *)
Definition bestPathSet_memo (h : Memory) (bestPath : loc) : option (Memory * loc) :=
  ids ← read_strings h bestPath;
  Some (h ++ [mkObj (KSet (list_to_set ids)) None None None None], length h).

(** ** The layout memo *)

(** [nodeMap.set(node.id, { ...node, x: 0, y: 0, children: [] })]: the
    literal makes a new object with the properties of [node], of which [x],
    [y] and [children] are overridden, and a new array.  State: keys in
    order, the map, memory. *)
Definition nodeMap_set (st : list string * gmap string loc * Memory) (l : loc)
  : option (list string * gmap string loc * Memory) :=
  n ← read_node st.2 l;
  let treeNode := length st.2 in
  Some ((if decide (id n ∈ st.1.1) then st.1.1 else st.1.1 ++ [id n]),
        <[id n := treeNode]> st.1.2,
        st.2 ++ [mkObj KObject (Some n) (Some 0) (Some 0) (Some (S treeNode));
                 new_array]).

Definition build_nodeMap (h : Memory) (nodes : list loc)
  : option (list string * gmap string loc * Memory) :=
  foldlM nodeMap_set ([], ∅, h) nodes.

(** The body of the first [nodeMap.forEach], for the entry of key [k]. *)
Definition link_step (m : gmap string loc) (st : Memory * option loc)
    (k : string) : option (Memory * option loc) :=
  treeNode ← m !! k;
  n ← read_node st.1 treeNode;
  match parent_id n with
  | None => Some (st.1, Some treeNode)
  | Some p =>
      match m !! p with
      | Some parent =>
          children ← read_children st.1 parent;
          h ← write (push (VRef treeNode)) children st.1;
          Some (h, st.2)
      | None => Some st
      end
  end.

Definition link (keys : list string) (m : gmap string loc) (h : Memory)
  : option (Memory * option loc) :=
  foldlM (link_step m) (h, None) keys.

(** [roundGroups.get(round)] *)
Fixpoint group_get (round : Z) (g : list (Z * loc)) : option loc :=
  match g with
  | [] => None
  | (r, a) :: g' => if decide (r = round) then Some a else group_get round g'
  end.

(** [if (!roundGroups.has(round)) roundGroups.set(round, []);
    roundGroups.get(round)!.push(node)].  State: the map from rounds to
    arrays, in insertion order, and memory. *)
Definition group_step (m : gmap string loc) (st : list (Z * loc) * Memory)
    (k : string) : option (list (Z * loc) * Memory) :=
  node ← m !! k;
  n ← read_node st.2 node;
  let round := round_index n in
  let st :=
    match group_get round st.1 with
    | Some _ => st
    | None => (st.1 ++ [(round, length st.2)], st.2 ++ [new_array])
    end in
  roundNodes ← group_get round st.1;
  h ← write (push (VRef node)) roundNodes st.2;
  Some (st.1, h).

Definition build_roundGroups (keys : list string) (m : gmap string loc)
    (h : Memory) : option (list (Z * loc) * Memory) :=
  foldlM (group_step m) ([], h) keys.

(** The comparator reads [id] and [communication_tokens] through the
    references; [position_step] calls it on objects that have them. *)
Definition compareRefs (h : Memory) (bestPathSet : gset string) (a b : loc) : Q :=
  match read_node h a, read_node h b with
  | Some a, Some b => compareNodes bestPathSet a b
  | _, _ => 0
  end.

Fixpoint place_row (round : Z) (index : nat) (roundNodes : list loc)
    (h : Memory) : option Memory :=
  match roundNodes with
  | [] => Some h
  | l :: rest =>
      write (set_xy (Z.of_nat index * (NODE_WIDTH + NODE_SPACING) + NODE_WIDTH / 2)
                    (Double.add (Double.add (Double.mul round LEVEL_HEIGHT)
                                            (NODE_HEIGHT / 2)) 40))
            l h
      ≫= place_row round (S index) rest
  end.

(** The body of the "Calculate positions" loop, for the entry of [round]
    whose array is at [roundNodes].  State: [maxWidth] and memory. *)
Definition position_step (bestPathSet : gset string)
    (st : Z * Memory) (entry : Z * loc) : option (Z * Memory) :=
  let '(maxWidth, h) := st in
  let '(round, roundNodes) := entry in
  elems ← read_nodes h roundNodes;
  _ ← mapM (read_node h) elems;
  let sorted := sort (compareRefs h bestPathSet) elems in
  h ← write (set_elems (λ _, VRef <$> sorted)) roundNodes h;
  let totalWidth := rowWidth sorted in
  h ← place_row round 0 sorted h;
  Some (Z.max maxWidth totalWidth, h).

Definition center_step (maxWidth : Z) (h : Memory) (entry : Z * loc)
  : option Memory :=
  elems ← read_nodes h entry.2;
  let roundWidth := rowWidth elems in
  let offset := (maxWidth - roundWidth) / 2 in
  foldlM (λ h l, write (add_x offset) l h) h elems.

Record LayoutResult := mkLayoutResult {
  treeRoot : option loc;
  width : Z;
  height : Z;
  memory : Memory;
  nodeCount : nat              (* [nodeMap.size], the depth bound below *)
}.

Definition layout (h : Memory) (nodes : loc) (bestPathSet : loc)
  : option LayoutResult :=
  elems ← read_nodes h nodes;
  match elems with
  | [] => Some (mkLayoutResult None 800 600 h 0)
  | _ =>
      '(keys, m, h) ← build_nodeMap h elems;
      '(h, root) ← link keys m h;
      match root with
      | None => Some (mkLayoutResult None 800 600 h (length keys))
      | Some root =>
          '(roundGroups, h) ← build_roundGroups keys m h;
          has ← read_set h bestPathSet;
          '(maxWidth, h) ← foldlM (position_step has) (0, h) roundGroups;
          h ← foldlM (center_step maxWidth) h roundGroups;
          let height :=
            match Math_max (roundGroups.*1) with
            | Some maxRound =>
                Double.add (Double.mul (Double.add maxRound 1) LEVEL_HEIGHT) 100
            | None => 0
            end in
          let width := Z.max (maxWidth + 80) 800 in
          Some (mkLayoutResult (Some root) width height h (length keys))
      end
  end.

(** ** The [edges] and [allNodes] memos *)

Record Edge := mkEdge { from : loc; to : loc; isBestPath : bool }.

Fixpoint traverse_edges (fuel : nat) (h : Memory) (bestPathSet : gset string)
    (n : loc) : option (list Edge) :=
  match fuel with
  | O => Some []
  | S fuel =>
      children ← read_children h n ≫= read_nodes h;
      below ←
        mapM (λ c,
                node ← read_node h n;
                child ← read_node h c;
                below ← traverse_edges fuel h bestPathSet c;
                Some (mkEdge n c (bool_decide (id node ∈ bestPathSet)
                                  && bool_decide (id child ∈ bestPathSet))
                      :: below))
             children;
      Some (concat below)
  end.

Fixpoint traverse_nodes (fuel : nat) (h : Memory) (n : loc) : option (list loc) :=
  match fuel with
  | O => Some []
  | S fuel =>
      children ← read_children h n ≫= read_nodes h;
      below ← mapM (traverse_nodes fuel h) children;
      Some (n :: concat below)
  end.

Record Rendered := mkRendered {
  layoutOf : LayoutResult;
  edgesOf : list Edge;
  allNodesOf : list loc
}.

(** One render of the component: it is handed the addresses of its [nodes]
    and [bestPath] props and leaves a memory. *)
Definition OptimizationTree (h : Memory) (nodes bestPath : loc)
  : option Rendered :=
  '(h, bestPathSet) ← bestPathSet_memo h bestPath;
  L ← layout h nodes bestPathSet;
  let h := memory L in
  has ← read_set h bestPathSet;
  edges ← match treeRoot L with
          | Some root => traverse_edges (nodeCount L) h has root
          | None => Some []
          end;
  allNodes ← match treeRoot L with
             | Some root => traverse_nodes (nodeCount L) h root
             | None => Some []
             end;
  Some (mkRendered L edges allNodes).

(** ** What the JSX reads off a render *)

(** A drawn node: its [ProtocolNode] fields and its coordinates. *)
Definition View := (ProtocolNode * Z * Z)%type.

Record Drawing := mkDrawing {
  drawn_nodes : list View;
  drawn_edges : list (View * View * bool);
  canvas : Z * Z
}.

Definition view (h : Memory) (l : loc) : option View :=
  o ← h !! l; n ← o_node o; x ← o_x o; y ← o_y o; Some (n, x, y).

Definition drawing (T : Rendered) : option Drawing :=
  let h := memory (layoutOf T) in
  nodes ← mapM (view h) (allNodesOf T);
  edges ← mapM (λ e, a ← view h (from e); b ← view h (to e);
                     Some (a, b, isBestPath e)) (edgesOf T);
  Some (mkDrawing nodes edges (width (layoutOf T), height (layoutOf T))).

End Mem.

(* ===================================================================== *)
(** * The tree reducer: [handleOptimizeEvent] of [app/page.tsx] *)
(* ===================================================================== *)

Module Reducer.

(** Modelled from the spec: [OptimizeStreamEvent] of [@/lib/types], a file
    that is not among the sources; a union tagged by [type], with the fields
    of the specification's event table, which are the ones the handler
    reads. *)
Inductive OptimizeStreamEvent :=
  | base_evaluated (node : ProtocolNode) (best_path : list string)
  | candidate_evaluated (node : ProtocolNode) (round_index : Z)
  | best_updated (node : ProtocolNode) (best_path : list string)
  | done (tree : list ProtocolNode) (best_path : list string)
         (best_node : ProtocolNode)
  | error (message : string).

(** The [useState] cells the handler writes, and the ones the layout reads. *)
Record State := mkState {
  optNodes : list ProtocolNode;
  optBestPath : list string;
  optBestNode : option ProtocolNode;
  optCurrentRound : Z;
  optError : option string;
  protocol : string
}.

(** One call of the handler; each setter replaces its cell, and
    [setOptNodes((prev) => [...prev, event.node])] appends to the cell's
    latest value. *)
Definition handleOptimizeEvent (s : State) (event : OptimizeStreamEvent) : State :=
  match event with
  | base_evaluated node best_path =>
      mkState [node] best_path (Some node) 0 (optError s) (protocol s)
  | candidate_evaluated node round_index =>
      mkState (optNodes s ++ [node]) (optBestPath s) (optBestNode s)
              round_index (optError s) (protocol s)
  | best_updated node best_path =>
      mkState (optNodes s) best_path (Some node) (optCurrentRound s)
              (optError s) (protocol s)
  | done tree best_path best_node =>
      mkState tree best_path (Some best_node) (optCurrentRound s)
              (optError s) (rule best_node)
  | error message =>
      mkState (optNodes s) (optBestPath s) (optBestNode s) (optCurrentRound s)
              (Some message) (protocol s)
  end.

(** The events of a stream, in arrival order. *)
Definition run (s : State) (events : list OptimizeStreamEvent) : State :=
  foldl handleOptimizeEvent s events.

(** What [handleOptimize] sets before it opens the stream. *)
Definition start (protocol0 : string) : State :=
  mkState [] [] None 0 None protocol0.

End Reducer.

(* ===================================================================== *)
(** * The text-to-speech route: [POST] of [app/api/tts/route.ts] *)
(* ===================================================================== *)

Module Tts.

(** A JavaScript string is a sequence of UTF-16 code units. *)
Definition jsstring := list N.

(** What [JSON.parse] and [req.json()] produce. *)
#[local] Unset Elimination Schemes.
Inductive json :=
  | JNull
  | JBool (b : bool)
  | JNumber (q : Q)
  | JString (s : jsstring)
  | JArray (elems : list json)
  | JObject (fields : list (string * json)).
#[local] Set Elimination Schemes.

(** A value read in the handler: [undefined] or a JSON value. *)
Definition value := option json.

(** ECMAScript [WhiteSpace] and [LineTerminator] code points, the ones that
    [String.prototype.trim] strips; all of them are single code units. *)
Definition is_white_space (u : N) : bool :=
  (N.eqb u 9 || N.eqb u 10 || N.eqb u 11 || N.eqb u 12 || N.eqb u 13
   || N.eqb u 32 || N.eqb u 160 || N.eqb u 5760
   || (N.leb 8192 u && N.leb u 8202)
   || N.eqb u 8232 || N.eqb u 8233 || N.eqb u 8239 || N.eqb u 8287
   || N.eqb u 12288 || N.eqb u 65279)%bool.

Fixpoint trimStart (s : jsstring) : jsstring :=
  match s with
  | [] => []
  | u :: s' => if is_white_space u then trimStart s' else s
  end.

Definition trimEnd (s : jsstring) : jsstring := reverse (trimStart (reverse s)).

Definition trim (s : jsstring) : jsstring := trimEnd (trimStart s).

(** How a step of the handler ends: with a value, or with something thrown
    that nothing in the handler catches, which is a [TypeError] or a
    [RangeError]. *)
Inductive completion (A : Type) :=
  | Normal (a : A)
  | TypeError
  | RangeError.
Arguments Normal {A} a.
Arguments TypeError {A}.
Arguments RangeError {A}.

(** [o.name]: reading a property of [null] throws; an object has the
    property when a field carries the name ([JSON.parse] keeps the last of
    several); primitives and arrays inherit nothing called [text],
    [voice_id], [model_id], [output_format] or [detail]. *)
Definition get (o : json) (name : string) : completion value :=
  match o with
  | JNull => TypeError
  | JObject fields => Normal (snd <$> last (filter (λ f, f.1 = name) fields))
  | _ => Normal None
  end.

(** [v?.trim()]: [undefined] for [undefined] and [null], the trimmed string
    for a string, and a [TypeError] for the rest, where [v.trim] is not a
    function. *)
Definition optional_trim (v : value) : completion (option jsstring) :=
  match v with
  | None | Some JNull => Normal None
  | Some (JString s) => Normal (Some (trim s))
  | Some _ => TypeError
  end.

(** [v ?? d] *)
Definition nullish (v : value) (d : value) : value :=
  match v with
  | None | Some JNull => d
  | _ => v
  end.

(** Truthiness of a read value. *)
Definition truthy (v : value) : bool :=
  match v with
  | None | Some JNull => false
  | Some (JBool b) => b
  | Some (JNumber q) => negb (Qeq_bool q 0)
  | Some (JString s) => negb (bool_decide (s = []))
  | Some (JArray _) | Some (JObject _) => true
  end.

(** [ToString(v)] completes.  A template literal and the conversion of an
    argument to a [USVString] call it.  An object that [JSON.parse] made has
    the [toString] of [Object.prototype] unless it has a member of that name,
    which is no function: then [valueOf] returns no primitive either, and the
    conversion throws a [TypeError].  An array joins the conversions of its
    elements, [null] counting as the empty string. *)
Fixpoint stringifiable (v : json) : bool :=
  match v with
  | JNull | JBool _ | JNumber _ | JString _ => true
  | JArray elems =>
      (fix all (l : list json) : bool :=
         match l with
         | [] => true
         | e :: l' => stringifiable e && all l'
         end) elems
  | JObject fields => negb (existsb (λ f, String.eqb f.1 "toString") fields)
  end.

Definition ToString (v : value) : completion value :=
  match v with
  | None => Normal None
  | Some j => if stringifiable j then Normal v else TypeError
  end.

Record Response := mkResponse {
  status : Z;
  detail : option jsstring;                  (* the [{ detail }] JSON body *)
  audio : option (list N * jsstring)         (* bytes and [Content-Type] *)
}.

(** [Response.json({ detail }, { status })].  The constructor of a response
    throws a [RangeError] for a status outside 200..599, and a [TypeError]
    for a body together with a status that allows none (204, 205 and 304;
    101 and 103 are out of the range). *)
Definition Response_json (detail : jsstring) (status : Z) : completion Response :=
  if (200 <=? status) && (status <=? 599) then
    if (status =? 204) || (status =? 205) || (status =? 304) then TypeError
    else Normal (mkResponse status (Some detail) None)
  else RangeError.

(** The request [fetch] is called with; the id and the format stay the
    values whose conversions to strings are interpolated. *)
Record UpstreamRequest := mkUpstreamRequest {
  u_voiceId : value;
  u_output_format : option value;            (* the query parameter, if set *)
  u_apiKey : jsstring;
  u_text : jsstring;
  u_model_id : value
}.

(** What [fetch] resolves to: the status, what the promises of [text()] and
    of [arrayBuffer()] resolve to ([None] when the promise rejects, as it
    does when the connection breaks while the body is read), and the
    [content-type] header. *)
Record UpstreamResponse := mkUpstreamResponse {
  u_status : Z;
  u_rawText : option jsstring;
  u_arrayBuffer : option (list N);
  u_contentType : option jsstring
}.

(** [upstream.ok]: the status is in 200..299. *)
Definition u_ok (upstream : UpstreamResponse) : bool :=
  (200 <=? u_status upstream) && (u_status upstream <=? 299).

(** The messages of the handler, as code units. *)
Definition units (s : string) : jsstring :=
  Ascii.N_of_ascii <$> String.list_ascii_of_string s.

Definition DEFAULT_VOICE_ID : jsstring := units "onwK4e9ZLuTAKqWW03F9".
Definition DEFAULT_MODEL_ID : jsstring := units "eleven_multilingual_v2".
Definition DEFAULT_OUTPUT_FORMAT : jsstring := units "mp3_44100_128".

(** What the handler did: the requests sent upstream, and how it ended. *)
Definition Outcome := (list UpstreamRequest * completion Response)%type.

(** A computation of the handler: the requests it sends, and its completion.
    What is thrown ends it. *)
Definition Run (A : Type) : Type := (list UpstreamRequest * completion A)%type.

Definition run_bind {A B} (k : A → Run B) (m : Run A) : Run B :=
  match m.2 with
  | Normal a => (m.1 ++ (k a).1, (k a).2)
  | TypeError => (m.1, TypeError)
  | RangeError => (m.1, RangeError)
  end.

#[export] Instance Run_bind : MBind Run := @run_bind.

(** A step that sends nothing. *)
Definition step {A} (c : completion A) : Run A := ([], c).

(** [await promise], for a promise that resolves to [a] or rejects.  The
    promises awaited here are those of [fetch], [text()] and [arrayBuffer()],
    which reject with a [TypeError]. *)
Definition await {A} (promise : option A) : completion A :=
  match promise with
  | Some a => Normal a
  | None => TypeError
  end.

Section Handler.
(** [process.env], the upstream service ([None] when the promise of [fetch]
    rejects: no connection, or a credential that is no header value), and
    [JSON.parse] ([None] when it throws). *)
Context (env : string → option jsstring).
Context (fetch : UpstreamRequest → option UpstreamResponse).
Context (JSON_parse : jsstring → option json).

Definition env_value (name : string) : value := JString <$> env name.

(** [body] is [None] when [req.json()] rejects. *)
Definition POST (body : option json) : Outcome :=
  match env "ELEVENLABS_API_KEY" with
  | None | Some [] =>
      step (Response_json (units "ELEVENLABS_API_KEY is not set") 500)
  | Some apiKey =>
      match body with
      | None => step (Response_json (units "Invalid JSON payload") 400)
      | Some body =>
          v ← step (get body "text");
          trimmed ← step (optional_trim v);
          let text := default [] trimmed in
          match text with
          | [] => step (Response_json (units "text is required") 400)
          | _ =>
              voice_id ← step (get body "voice_id");
              let voiceId :=
                nullish (nullish voice_id (env_value "ELEVENLABS_VOICE_ID"))
                        (Some (JString DEFAULT_VOICE_ID)) in
              model_id ← step (get body "model_id");
              let modelId :=
                nullish (nullish model_id (env_value "ELEVENLABS_MODEL_ID"))
                        (Some (JString DEFAULT_MODEL_ID)) in
              output_format ← step (get body "output_format");
              let outputFormat :=
                nullish (nullish output_format
                           (env_value "ELEVENLABS_OUTPUT_FORMAT"))
                        (Some (JString DEFAULT_OUTPUT_FORMAT)) in
              (* [new URL(`...${voiceId}`)] *)
              voiceId ← step (ToString voiceId);
              (* [if (outputFormat) url.searchParams.set(...)] *)
              format ← step (if truthy outputFormat
                             then ToString outputFormat else Normal None);
              let request :=
                mkUpstreamRequest voiceId
                  (if truthy outputFormat then Some format else None)
                  apiKey text modelId in
              upstream ← ([request], await (fetch request));
              if u_ok upstream then (
                audioBuffer ← step (await (u_arrayBuffer upstream));
                let contentType :=
                  match u_contentType upstream with
                  | None | Some [] => units "audio/mpeg"
                  | Some ct => ct
                  end in
                step (Normal (mkResponse 200 None (Some (audioBuffer, contentType)))))
              else (
                rawText ← step (await (u_rawText upstream));
                let detail0 :=
                  match rawText with
                  | [] => units "ElevenLabs request failed"
                  | _ => rawText
                  end in
                let detail :=
                  match JSON_parse rawText with
                  | Some (JObject fields) =>
                      match last (filter (λ f, f.1 = "detail") fields) with
                      | Some (_, JString d) => d
                      | _ => detail0
                      end
                  | _ => detail0
                  end in
                step (Response_json detail (u_status upstream)))
          end
      end
  end.

End Handler.

End Tts.

(* ===================================================================== *)
(** * The page: the run reducer and the optimize handlers of [app/page.tsx] *)
(* ===================================================================== *)

Module Page.

(** Modelled from the spec: [AgentMessageEvent], [FinalEvent] and [RunEvent]
    of [@/lib/types], a file that is not among the sources; the fields are
    those of the specification's message-exchange stream, which are the ones
    the page reads.  [direction] stays the string the page compares, since
    the page has a branch for a direction that is neither of the two.  Both
    events have a [message]; the one of [FinalEvent] is [final_message]
    here. *)
Record AgentMessageEvent := mkAgentMessageEvent {
  direction : string;
  from : string;
  to : string;
  message : string
}.

Record FinalEvent := mkFinalEvent {
  final_message : string;
  tokens : option Q                   (* [tokens?: number] *)
}.

Inductive RunEvent :=
  | agent_message (e : AgentMessageEvent)
  | final (e : FinalEvent).

(** The object [handleRun] stores on a final event, [{ final,
    communicationTokens, events }]; [final] and [events] are [r_final] and
    [r_events] here. *)
Record RunResponse := mkRunResponse {
  r_final : string;
  communicationTokens : Q;
  r_events : list RunEvent
}.

(** The [useState] cells of the simulate tab. *)
Record RunState := mkRunState {
  events : list RunEvent;
  runResult : option RunResponse;
  runLoading : bool;
  runError : option string
}.

(** The calls a stream session makes: [onEvent(evt)], [onError(err)] with
    [err.message], [onClose()]. *)
Inductive Callback (E : Type) :=
  | onEvent (evt : E)
  | onError (err_message : string)
  | onClose.
Arguments onEvent {E} evt.
Arguments onError {E} err_message.
Arguments onClose {E}.

(** What [handleRun] sets before it opens the stream. *)
Definition handleRun (s : RunState) : RunState := mkRunState [] None true None.

(** The three callbacks [handleRun] hands to [streamRunSimulation]. *)
Definition run_callback (s : RunState) (c : Callback RunEvent) : RunState :=
  match c with
  | onEvent evt =>
      let log := events s ++ [evt] in
      match evt with
      | final f =>
          mkRunState log
            (Some (mkRunResponse (final_message f) (default 0%Q (tokens f)) []))
            (runLoading s) (runError s)
      | agent_message _ => mkRunState log (runResult s) (runLoading s) (runError s)
      end
  | onError err_message =>
      mkRunState (events s) (runResult s) false (Some err_message)
  | onClose => mkRunState (events s) (runResult s) false (runError s)
  end.

(** A run: the reset, then the session's calls in the order it makes them. *)
Definition run_session (s : RunState) (calls : list (Callback RunEvent)) : RunState :=
  foldl run_callback (handleRun s) calls.

(** [events.filter((e) => e.type === "agent_message")] *)
Definition messageEvents (events : list RunEvent) : list AgentMessageEvent :=
  omap (λ e, match e with agent_message m => Some m | final _ => None end) events.

(** [events.find((e) => e.type === "final")] *)
Fixpoint finalEvent (events : list RunEvent) : option FinalEvent :=
  match events with
  | [] => None
  | final f :: _ => Some f
  | agent_message _ :: rest => finalEvent rest
  end.

(** [messageEvents[messageEvents.length - 1]] *)
Definition lastMessage (events : list RunEvent) : option AgentMessageEvent :=
  last (messageEvents events).

Definition speakingAgent (events : list RunEvent) : option string :=
  match lastMessage events with
  | None => None
  | Some m =>
      if decide (direction m = "outbound") then Some "agent1"
      else if decide (direction m = "return") then Some "agent2"
      else None
  end.

(** The status pill: [runLoading ? "Streaming..." : events.length ? "Complete"
    : "Idle"]. *)
Definition statusLabel (s : RunState) : string :=
  if runLoading s then "Streaming..."
  else match events s with [] => "Idle" | _ => "Complete" end.

(** [finalEvent?.tokens ?? runResult?.communicationTokens], and the number the
    pill beside the status shows: none when that value is falsy. *)
Definition tokenCount (s : RunState) : option Q :=
  match finalEvent (events s) ≫= tokens with
  | Some t => Some t
  | None => communicationTokens <$> runResult s
  end.

Definition tokenPill (s : RunState) : option Q :=
  match tokenCount s with
  | Some q => if Qeq_bool q 0 then None else Some q
  | None => None
  end.

(** [MessageArc]: [events.filter(e => e.direction === d).slice(-1)[0]] *)
Definition latest_of (d : string) (events : list AgentMessageEvent)
  : option AgentMessageEvent :=
  last (filter (λ e, direction e = d) events).

Definition outboundMessage := latest_of "outbound".
Definition returnMessage := latest_of "return".

(** ** The optimize tab *)

(** The cells of the optimize tab: the ones [handleOptimizeEvent] writes, and
    the three only the handlers below write. *)
Record OptState := mkOptState {
  reducer : Reducer.State;
  optLoading : bool;
  selectedOptNode : option ProtocolNode;
  optConfigCollapsed : bool
}.

(** The form cells [handleOptimize] reads.  [optPrompts] is a sequence of
    code units, since the handler splits and trims it. *)
Record Form := mkForm {
  agent1Prompt : string;
  agent2Prompt : string;
  optPrompts : Tts.jsstring;
  optRounds : Z;
  optBranch : Z
}.

(** The payload, [{ agent1Prompt, agent2Prompt, protocol, inputPrompts,
    rounds, variationCount }]; the first three are prefixed here. *)
Record OptimizeRequest := mkOptimizeRequest {
  q_agent1Prompt : string;
  q_agent2Prompt : string;
  q_protocol : string;
  inputPrompts : list Tts.jsstring;
  rounds : Z;
  variationCount : Z
}.

(** [s.split("\n")]: the pieces between line feeds; never an empty array. *)
Fixpoint split_lf (s : Tts.jsstring) : list Tts.jsstring :=
  match s with
  | [] => [[]]
  | u :: s' =>
      if N.eqb u 10 then [] :: split_lf s'
      else match split_lf s' with
           | p :: ps => (u :: p) :: ps
           | [] => [[u]]                (* not reached *)
           end
  end.

(** [optPrompts.split("\n").map((p) => p.trim()).filter(Boolean)] *)
Definition prompts_of (optPrompts : Tts.jsstring) : list Tts.jsstring :=
  filter (λ p, p ≠ []) (Tts.trim <$> split_lf optPrompts).

(** [handleOptimize]: the cells after its setters, and the payload it opens
    the stream with. *)
Definition handleOptimize (form : Form) (s : OptState)
  : OptState * OptimizeRequest :=
  (mkOptState (Reducer.start (Reducer.protocol (reducer s))) true None true,
   mkOptimizeRequest (agent1Prompt form) (agent2Prompt form)
     (Reducer.protocol (reducer s)) (prompts_of (optPrompts form))
     (optRounds form) (optBranch form)).

(** The three callbacks [handleOptimize] hands to [streamOptimizeProtocol]. *)
Definition optimize_callback (s : OptState)
    (c : Callback Reducer.OptimizeStreamEvent) : OptState :=
  match c with
  | onEvent evt =>
      mkOptState (Reducer.handleOptimizeEvent (reducer s) evt)
        (optLoading s) (selectedOptNode s) (optConfigCollapsed s)
  | onError err_message =>
      let r := reducer s in
      mkOptState
        (Reducer.mkState (Reducer.optNodes r) (Reducer.optBestPath r)
           (Reducer.optBestNode r) (Reducer.optCurrentRound r)
           (Some err_message) (Reducer.protocol r))
        false (selectedOptNode s) (optConfigCollapsed s)
  | onClose =>
      mkOptState (reducer s) false (selectedOptNode s) (optConfigCollapsed s)
  end.

Definition optimize_session (form : Form) (s : OptState)
    (calls : list (Callback Reducer.OptimizeStreamEvent)) : OptState :=
  foldl optimize_callback (handleOptimize form s).1 calls.

(** [setSelectedOptNode((prev) => (prev?.id === node.id ? null : node))] *)
Definition handleNodeClick (prev : option ProtocolNode) (node : ProtocolNode)
  : option ProtocolNode :=
  match prev with
  | Some p => if decide (id p = id node) then None else Some node
  | None => Some node
  end.

(** The props the page hands to [OptimizationTree]: [nodes] and [bestPath],
    with what the component computes from them, and
    [selectedNodeId={selectedOptNode?.id ?? null}]. *)
Definition tree_of (s : OptState) : Layout.Rendered :=
  Layout.OptimizationTree (Reducer.optNodes (reducer s))
    (Reducer.optBestPath (reducer s)).

Definition selectedNodeId (s : OptState) : option string :=
  id <$> selectedOptNode s.

End Page.

(* ===================================================================== *)
(** * What [OptimizationTree] draws from the memos *)
(* ===================================================================== *)

Module View.
Import Layout.

(** The three class names [getNodeColor] returns. *)
Record NodeColor := mkNodeColor { bg : string; border : string; glow : string }.

#[global] Instance NodeColor_eq_dec : EqDecision NodeColor.
Proof. solve_decision. Defined.

Definition selectedColor : NodeColor :=
  mkNodeColor "from-amber-400 to-orange-500" "ring-amber-300" "shadow-amber-400/50".
Definition bestColor : NodeColor :=
  mkNodeColor "from-emerald-400 to-teal-500" "ring-emerald-300"
    "shadow-emerald-400/40".
Definition plainColor : NodeColor :=
  mkNodeColor "from-slate-600 to-slate-700" "ring-slate-500" "shadow-slate-600/20".

(** [getNodeColor(node)]; it reads [node.id] only, and a reference to a
    [TreeNode] is that id. *)
Definition getNodeColor (bestPathSet : gset string)
    (selectedNodeId : option string) (node : string) : NodeColor :=
  let isBest := bool_decide (node ∈ bestPathSet) in
  let isSelected := bool_decide (Some node = selectedNodeId) in
  if isSelected then selectedColor
  else if isBest then bestColor
  else plainColor.

(** [allNodes[allNodes.length - 1]] *)
Definition latestNode (allNodes : list string) : option string := last allNodes.

(** The [top] the effect scrolls to: [Math.max(0, latestNode.y - 200)], when
    [allNodes.length > 0]. *)
Definition scrollTop (L : LayoutResult) (allNodes : list string) : option Z :=
  k ← latestNode allNodes;
  t ← heap L !! k;
  Some (Z.max 0 (Double.sub (y t) 200)).

(** [index === allNodes.length - 1 && isRunning] *)
Definition isLatest (allNodes : list string) (isRunning : bool) (index : nat)
  : bool :=
  bool_decide (Z.of_nat index = Z.of_nat (length allNodes) - 1) && isRunning.

(** The width of the progress bar in per cent:
    [(currentRound / Math.max(totalRounds, 1)) * 100]. *)
Definition progress (currentRound totalRounds : Q) : Q :=
  let Math_max (a b : Q) := if Qle_bool a b then b else a in
  (currentRound / Math_max totalRounds 1 * 100)%Q.

End View.

(* ===================================================================== *)
(** * Sample runs *)
(* ===================================================================== *)

Module Samples.

(** The run of the specification's scenario: a base node, one candidate below
    it, and a further candidate below that one. *)
Definition nodeA : ProtocolNode := mkProtocolNode "n0" None 0 120 "base rule".
Definition nodeB : ProtocolNode := mkProtocolNode "n1" (Some "n0") 1 80 "rule B".
Definition nodeC : ProtocolNode := mkProtocolNode "n2" (Some "n1") 2 60 "rule C".
Definition chain3 : list ProtocolNode := [nodeA; nodeB; nodeC].

(** Two nodes that name each other as parent, beside a root. *)
Definition loopB : ProtocolNode := mkProtocolNode "b" (Some "c") 1 80 "rule b".
Definition loopC : ProtocolNode := mkProtocolNode "c" (Some "b") 1 60 "rule c".
Definition looped : list ProtocolNode := [nodeA; loopB; loopC].

(** A root with four candidates in round 1, and a node of round 1 whose
    parent is not in the list. *)
Definition cand1 : ProtocolNode := mkProtocolNode "c1" (Some "n0") 1 10 "rule 1".
Definition cand2 : ProtocolNode := mkProtocolNode "c2" (Some "n0") 1 20 "rule 2".
Definition cand3 : ProtocolNode := mkProtocolNode "c3" (Some "n0") 1 30 "rule 3".
Definition cand4 : ProtocolNode := mkProtocolNode "c4" (Some "n0") 1 40 "rule 4".
Definition fan4 : list ProtocolNode := [nodeA; cand1; cand2; cand3; cand4].
Definition orphan : ProtocolNode := mkProtocolNode "x" (Some "ghost") 1 5 "rule x".

(** A root, five candidates of round 1 appended in no order of their tokens,
    three of which tie, and two candidates of round 2; [bestOfMixed] is a best
    path through the third candidate. *)
Definition m1 : ProtocolNode := mkProtocolNode "m1" (Some "n0") 1 30 "rule 1".
Definition m2 : ProtocolNode := mkProtocolNode "m2" (Some "n0") 1 10 "rule 2".
Definition m3 : ProtocolNode := mkProtocolNode "m3" (Some "n0") 1 10 "rule 3".
Definition m4 : ProtocolNode := mkProtocolNode "m4" (Some "n0") 1 10 "rule 4".
Definition m5 : ProtocolNode := mkProtocolNode "m5" (Some "n0") 1 5 "rule 5".
Definition m6 : ProtocolNode := mkProtocolNode "m6" (Some "m3") 2 8 "rule 6".
Definition m7 : ProtocolNode := mkProtocolNode "m7" (Some "m3") 2 4 "rule 7".
Definition mixed : list ProtocolNode := [nodeA; m1; m2; m3; m4; m5; m6; m7].
Definition bestOfMixed : list string := ["n0"; "m3"; "m6"].


End Samples.

(* ===================================================================== *)
(** * Facts about [sort] *)
(* ===================================================================== *)

Module SortFacts.
Import Layout.

Section Sort.
Context {A : Type} (compareFn : A → A → Q).

(** [a] may stand in front of [b]. *)
Definition cmp_le (a b : A) : Prop := (compareFn a b <= 0)%Q.
(** The comparator ties [a] and [b]. *)
Definition cmp_tie (a b : A) : Prop := cmp_le a b ∧ cmp_le b a.

#[export] Instance cmp_le_dec a b : Decision (cmp_le a b).
Proof.
  unfold cmp_le.
  destruct (Qle_bool (compareFn a b) 0) eqn:E.
  - left. by apply Qle_bool_iff.
  - right. intros H. apply Qle_bool_iff in H. congruence.
Defined.

#[export] Instance cmp_tie_dec a b : Decision (cmp_tie a b).
Proof. unfold cmp_tie. apply _. Defined.

Lemma sort_insert_Permutation a l : sort_insert compareFn a l ≡ₚ a :: l.
Proof.
  induction l as [|b l IH]; simpl; [done|].
  destruct (Qle_bool _ _); [done|].
  rewrite IH. apply Permutation_swap.
Qed.

Lemma sort_Permutation l : sort compareFn l ≡ₚ l.
Proof.
  induction l as [|a l IH]; simpl; [done|].
  by rewrite sort_insert_Permutation, IH.
Qed.

Lemma sort_length l : length (sort compareFn l) = length l.
Proof. by rewrite sort_Permutation. Qed.

Hypothesis cmp_total : ∀ a b, cmp_le a b ∨ cmp_le b a.
Hypothesis cmp_trans : ∀ a b c, cmp_le a b → cmp_le b c → cmp_le a c.

Lemma sort_insert_StronglySorted a l :
  StronglySorted cmp_le l → StronglySorted cmp_le (sort_insert compareFn a l).
Proof.
  induction 1 as [|b l Hl IH Hb]; simpl.
  - repeat constructor.
  - destruct (Qle_bool (compareFn a b) 0) eqn:E.
    + apply Qle_bool_iff in E.
      constructor; [by constructor|].
      constructor; [done|].
      eapply Forall_impl; [exact Hb|]. intros c Hc. by eapply cmp_trans.
    + assert (cmp_le b a) as Hba.
      { destruct (cmp_total a b) as [H|H]; [|done].
        apply Qle_bool_iff in H. congruence. }
      constructor; [done|].
      rewrite sort_insert_Permutation. by constructor.
Qed.

Lemma sort_StronglySorted l : StronglySorted cmp_le (sort compareFn l).
Proof.
  induction l as [|a l IH]; simpl; [constructor|].
  by apply sort_insert_StronglySorted.
Qed.

(** Stability: the elements tied with [c] keep their relative order. *)
Lemma sort_insert_stable c a l :
  filter (cmp_tie c) (sort_insert compareFn a l) = filter (cmp_tie c) (a :: l).
Proof.
  induction l as [|b l IH]; simpl; [done|].
  destruct (Qle_bool (compareFn a b) 0) eqn:E; [done|].
  rewrite filter_cons, IH, !filter_cons.
  destruct (decide (cmp_tie c b)) as [Hb|Hb]; [|done].
  destruct (decide (cmp_tie c a)) as [Ha|Ha]; [|done].
  exfalso. destruct Ha as [Hca Hac], Hb as [Hcb Hbc].
  assert (cmp_le a b) as H by (by eapply cmp_trans).
  apply Qle_bool_iff in H. congruence.
Qed.

Lemma sort_stable c l :
  filter (cmp_tie c) (sort compareFn l) = filter (cmp_tie c) l.
Proof.
  induction l as [|a l IH]; simpl; [done|].
  by rewrite sort_insert_stable, !filter_cons, IH.
Qed.

(** The three properties fix the result: any array that is a stable sorted
    rearrangement of [l] is [sort l]. *)
Lemma stable_sorted_unique l1 l2 :
  StronglySorted cmp_le l1 → StronglySorted cmp_le l2 →
  (∀ c, filter (cmp_tie c) l1 = filter (cmp_tie c) l2) →
  l1 = l2.
Proof.
  intros H1. revert l2.
  induction H1 as [|a l1 Hl1 IH Ha]; intros l2 H2 Hf.
  - destruct l2 as [|b l2]; [done|].
    specialize (Hf b). rewrite filter_cons in Hf.
    destruct (decide (cmp_tie b b)) as [|n]; [done|].
    destruct n. destruct (cmp_total b b); by split.
  - destruct H2 as [|b l2 Hl2 Hb].
    { specialize (Hf a). rewrite filter_cons in Hf.
      destruct (decide (cmp_tie a a)) as [|n]; [done|].
      destruct n. destruct (cmp_total a a); by split. }
    assert (cmp_tie a a) as Haa by (destruct (cmp_total a a); by split).
    assert (cmp_tie b b) as Hbb by (destruct (cmp_total b b); by split).
    assert (cmp_tie a b) as Hab.
    { split.
      - pose proof (Hf b) as Hfb. rewrite !filter_cons in Hfb.
        destruct (decide (cmp_tie b b)); [|done].
        destruct (decide (cmp_tie b a)) as [[]|]; [done|].
        assert (b ∈ filter (cmp_tie b) l1) as Hin by (rewrite Hfb; left).
        apply list_elem_of_filter in Hin as [_ Hin].
        rewrite Forall_forall in Ha. by apply Ha.
      - pose proof (Hf a) as Hfa. rewrite !filter_cons in Hfa.
        destruct (decide (cmp_tie a a)); [|done].
        destruct (decide (cmp_tie a b)) as [[]|]; [done|].
        assert (a ∈ filter (cmp_tie a) l2) as Hin by (rewrite <-Hfa; left).
        apply list_elem_of_filter in Hin as [_ Hin].
        rewrite Forall_forall in Hb. by apply Hb. }
    pose proof (Hf a) as Hfa. rewrite !filter_cons in Hfa.
    destruct (decide (cmp_tie a a)); [|done].
    destruct (decide (cmp_tie a b)); [|done].
    injection Hfa as -> Hfa. f_equal.
    apply IH; [done|]. intros d.
    specialize (Hf d). rewrite !filter_cons in Hf.
    destruct (decide (cmp_tie d b)); [by injection Hf|done].
Qed.

Lemma sort_unique l l' :
  StronglySorted cmp_le l' →
  (∀ c, filter (cmp_tie c) l' = filter (cmp_tie c) l) →
  l' = sort compareFn l.
Proof.
  intros Hs Hf. apply stable_sorted_unique; [done|apply sort_StronglySorted|].
  intros c. by rewrite sort_stable.
Qed.
End Sort.

End SortFacts.

(* ===================================================================== *)
(** * The comparator of the layout *)
(* ===================================================================== *)

Module Order.
Import Layout SortFacts.

(** The two-key order of the specification: members of the best path first,
    then ascending [communication_tokens]. *)
Definition precedes (bestPathSet : gset string) (a b : ProtocolNode) : Prop :=
  (id a ∈ bestPathSet ∧ id b ∉ bestPathSet)
  ∨ ((id a ∈ bestPathSet ↔ id b ∈ bestPathSet)
     ∧ (communication_tokens a <= communication_tokens b)%Q).

(** Nodes the two keys do not tell apart. *)
Definition ties (bestPathSet : gset string) (a b : ProtocolNode) : Prop :=
  (id a ∈ bestPathSet ↔ id b ∈ bestPathSet)
  ∧ (communication_tokens a == communication_tokens b)%Q.

Lemma cmp_le_precedes bp a b : cmp_le (compareNodes bp) a b ↔ precedes bp a b.
Proof.
  unfold cmp_le, compareNodes, precedes.
  destruct (decide (id a ∈ bp)) as [Ha|Ha], (decide (id b ∈ bp)) as [Hb|Hb];
    simpl.
  - split; [intros H; right; split; [tauto|lra] | intros [[_ []]|[_ H]]; [done|lra]].
  - split; [tauto|]. intros _. by vm_compute.
  - split.
    + intros H. by vm_compute in H.
    + intros [[]|[H _]]; [done|]. destruct Ha. by apply H.
  - split; [intros H; right; split; [tauto|lra] | intros [[? ?]|[_ H]]; [done|lra]].
Qed.

Lemma cmp_tie_ties bp a b : cmp_tie (compareNodes bp) a b ↔ ties bp a b.
Proof.
  unfold cmp_tie. rewrite !cmp_le_precedes. unfold precedes, ties. split.
  - intros [[[Ha Hb]|[Hab H1]] [[Hb' Ha']|[Hba H2]]]; try tauto.
    split; [done|]. by apply Qle_antisym.
  - intros [Hab He]. split; right; (split; [tauto|]); rewrite He; apply Qle_refl.
Qed.


Lemma precedes_trans bp a b c :
  precedes bp a b → precedes bp b c → precedes bp a c.
Proof.
  unfold precedes. intros [[]|[? H1]] [[]|[? H2]]; try tauto.
  right. split; [tauto|]. by eapply Qle_trans.
Qed.


Lemma compareNodes_trans bp a b c :
  cmp_le (compareNodes bp) a b → cmp_le (compareNodes bp) b c →
  cmp_le (compareNodes bp) a c.
Proof. rewrite !cmp_le_precedes. apply precedes_trans. Qed.

#[export] Instance precedes_dec bp a b : Decision (precedes bp a b).
Proof.
  refine (cast_if (decide (cmp_le (compareNodes bp) a b)));
    by rewrite <-cmp_le_precedes.
Defined.

#[export] Instance ties_dec bp a b : Decision (ties bp a b).
Proof.
  refine (cast_if (decide (cmp_tie (compareNodes bp) a b)));
    by rewrite <-cmp_tie_ties.
Defined.

End Order.

(* ===================================================================== *)
(** * What each pass of the layout leaves in the heap *)
(* ===================================================================== *)

Module Facts.
Import Layout SortFacts Order.

(** The immutable part of the object behind a reference. *)
Definition node_of (h : Heap) (k : string) : option ProtocolNode :=
  node <$> h !! k.

Definition parent_of (h : Heap) (k : string) : option string :=
  node_of h k ≫= parent_id.

(** [k] is a node whose [parent_id] is [null]. *)
Definition is_root (nd : string → option ProtocolNode) (k : string) : Prop :=
  parent_id <$> nd k = Some None.

#[export] Instance is_root_dec nd k : Decision (is_root nd k).
Proof. unfold is_root. apply _. Defined.

Definition fresh (n : ProtocolNode) : TreeNode := mkTreeNode n 0 0 [].

(** ** [build_nodeMap] *)

Lemma build_nodeMap_snoc nodes n :
  build_nodeMap (nodes ++ [n]) = nodeMap_set (build_nodeMap nodes) n.
Proof. unfold build_nodeMap. by rewrite foldl_snoc. Qed.

Record nodeMap_ok (nodes : list ProtocolNode) (keys : list string) (h : Heap)
  : Prop := {
  keys_NoDup : NoDup keys;
  keys_dom : ∀ k, k ∈ keys ↔ is_Some (h !! k);
  heap_fresh : ∀ k t, h !! k = Some t → ∃ n, n ∈ nodes ∧ id n = k ∧ t = fresh n
}.

Lemma build_nodeMap_ok nodes :
  nodeMap_ok nodes (build_nodeMap nodes).1 (build_nodeMap nodes).2.
Proof.
  induction nodes as [|n nodes IH] using rev_ind.
  - split; simpl.
    + constructor.
    + intros k. rewrite lookup_empty. split; [by intros ?%elem_of_nil|by intros []].
    + intros k t. by rewrite lookup_empty.
  - rewrite build_nodeMap_snoc. destruct IH as [ND DOM FR].
    unfold nodeMap_set. simpl. split.
    + destruct (decide _); [done|]. apply NoDup_app.
      split_and!; [done| |apply NoDup_singleton].
      by intros k Hk ->%list_elem_of_singleton.
    + intros k. destruct (decide (k = id n)) as [->|Hne].
      * rewrite lookup_insert_eq. split; [eauto|]. intros _.
        destruct (decide _); [done|]. apply elem_of_app; right; left.
      * rewrite lookup_insert_ne by done. rewrite <-DOM.
        destruct (decide _); [done|].
        rewrite elem_of_app, list_elem_of_singleton. tauto.
    + intros k t. destruct (decide (k = id n)) as [->|Hne].
      * rewrite lookup_insert_eq. intros [= <-]. exists n.
        split_and!; [apply elem_of_app; right; left|done..].
      * rewrite lookup_insert_ne by done. intros (m & ? & ? & ?)%FR.
        exists m. rewrite elem_of_app. eauto.
Qed.

(** On a list without repeated ids the map holds the nodes as they came. *)
Lemma build_nodeMap_NoDup nodes :
  NoDup (id <$> nodes) →
  (build_nodeMap nodes).1 = id <$> nodes
  ∧ ∀ n, n ∈ nodes → (build_nodeMap nodes).2 !! id n = Some (fresh n).
Proof.
  induction nodes as [|n nodes IH] using rev_ind; intros ND.
  - split; [done|]. by intros n ?%elem_of_nil.
  - rewrite fmap_app in ND. apply NoDup_app in ND as (ND & Hn & _).
    destruct (IH ND) as [Hk Hh]. rewrite build_nodeMap_snoc.
    unfold nodeMap_set; simpl. split.
    + rewrite Hk, fmap_app. destruct (decide _) as [Hin|]; [|done].
      destruct (Hn _ Hin). left.
    + intros m [Hm| ->%list_elem_of_singleton]%elem_of_app.
      * rewrite lookup_insert_ne; [by apply Hh|].
        intros E. apply (Hn (id m)); [by apply list_elem_of_fmap_2|].
        rewrite <-E. left.
      * by rewrite lookup_insert_eq.
Qed.

(** ** [link] *)

Lemma link_step_heap h ro c k :
  (link_step (h, ro) c).1 !! k =
  match parent_of h c with
  | Some p => if decide (p = k) then push_child c <$> h !! k else h !! k
  | None => h !! k
  end.
Proof.
  unfold link_step, parent_of, node_of; simpl.
  destruct (h !! c) as [t|]; simpl; [|done].
  destruct (parent_id (node t)) as [p|]; simpl; [|done].
  destruct (decide (p = k)) as [->|Hne].
  - destruct (h !! k) eqn:E; simpl; [|by rewrite E].
    by rewrite lookup_alter_eq, E.
  - destruct (h !! p); simpl; [|done]. by rewrite lookup_alter_ne.
Qed.

Lemma link_step_root h ro c :
  (link_step (h, ro) c).2 = if decide (is_root (node_of h) c) then Some c else ro.
Proof.
  destruct (decide (is_root (node_of h) c)) as [Hr|Hr];
    unfold is_root, node_of in Hr; unfold link_step; simpl;
    destruct (h !! c) as [t|]; simpl in *; try done;
    destruct (parent_id (node t)) as [p|]; simpl in *; try done;
    by destruct (h !! p).
Qed.

Lemma link_step_node_of h ro c k :
  node_of (link_step (h, ro) c).1 k = node_of h k.
Proof.
  unfold node_of at 1. rewrite link_step_heap.
  destruct (parent_of h c); [|done]. destruct (decide _); [|done].
  unfold node_of. by destruct (h !! k).
Qed.

(** The children of [k] once [ks] have been visited: the visited references
    whose node names [k] as parent, in visiting order. *)
Definition link_children (nd : string → option ProtocolNode)
    (ks : list string) (k : string) : list string :=
  filter (λ c, nd c ≫= parent_id = Some k) ks.

Lemma foldl_link_step_heap nd ks : ∀ h ro,
  (∀ c, node_of h c = nd c) →
  ∀ k, (foldl link_step (h, ro) ks).1 !! k =
       (λ t, mkTreeNode (node t) (x t) (y t) (children t ++ link_children nd ks k))
         <$> h !! k.
Proof.
  induction ks as [|c ks IH]; intros h ro Hnd k; simpl.
  - destruct (h !! k) as [[]|]; simpl; [|done]. by rewrite app_nil_r.
  - destruct (link_step (h, ro) c) as [h1 ro1] eqn:E.
    assert (∀ k, h1 !! k = (link_step (h, ro) c).1 !! k) as Hh1 by (by rewrite E).
    rewrite IH.
    2:{ intros c'. rewrite <-Hnd, <-(link_step_node_of h ro c c').
        unfold node_of. by rewrite Hh1. }
    rewrite Hh1, link_step_heap. unfold link_children. rewrite filter_cons.
    unfold parent_of. rewrite Hnd.
    destruct (nd c ≫= parent_id) as [p|] eqn:Ep.
    + destruct (decide (p = k)) as [->|Hne].
      * rewrite decide_True by done.
        destruct (h !! k) as [t|]; simpl; [|done].
        by rewrite <-app_assoc.
      * rewrite decide_False by congruence. done.
    + rewrite decide_False by done. done.
Qed.

Lemma foldl_link_step_root nd ks : ∀ h ro,
  (∀ c, node_of h c = nd c) →
  (foldl link_step (h, ro) ks).2 =
  match last (filter (is_root nd) ks) with Some r => Some r | None => ro end.
Proof.
  induction ks as [|c ks IH]; intros h ro Hnd; simpl; [done|].
  destruct (link_step (h, ro) c) as [h1 ro1] eqn:E.
  assert (ro1 = (link_step (h, ro) c).2) as -> by (by rewrite E).
  rewrite IH.
  2:{ intros c'. rewrite <-Hnd, <-(link_step_node_of h ro c c'). by rewrite E. }
  rewrite link_step_root, filter_cons.
  destruct (decide (is_root (node_of h) c)) as [Hr|Hr];
    unfold is_root in Hr; rewrite Hnd in Hr.
  - rewrite decide_True by done. rewrite last_cons.
    by destruct (last (filter (is_root nd) ks)).
  - by rewrite decide_False by done.
Qed.

(** ** [build_roundGroups] *)

Definition groups_of (vals : list ProtocolNode) : RoundGroups :=
  foldl (λ g n, group_push (round_index n) n g) [] vals.

Lemma build_roundGroups_values keys h :
  build_roundGroups keys h = groups_of (omap (node_of h) keys).
Proof.
  unfold build_roundGroups, groups_of. generalize ([] : RoundGroups).
  induction keys as [|k keys IH]; intros g; simpl; [done|].
  unfold group_step at 2, node_of at 1.
  destruct (h !! k) as [t|]; simpl; by rewrite IH.
Qed.

Lemma group_push_keys {A} r (n : A) g :
  (group_push r n g).*1 = if decide (r ∈ g.*1) then g.*1 else g.*1 ++ [r].
Proof.
  induction g as [|[r0 ns0] g IH]; [done|]. csimpl.
  - destruct (decide (r0 = r)) as [->|Hne]; csimpl.
    + by rewrite decide_True by left.
    + rewrite IH. destruct (decide (r ∈ g.*1)).
      * by rewrite decide_True by (by right).
      * rewrite decide_False; [done|]. by intros [->|?]%elem_of_cons.
Qed.

Lemma group_push_elem {A} r (n : A) g r' ns' :
  NoDup g.*1 → (r', ns') ∈ group_push r n g →
  (r' ≠ r ∧ (r', ns') ∈ g)
  ∨ (r' = r ∧ ((∃ ns, (r, ns) ∈ g ∧ ns' = ns ++ [n]) ∨ (ns' = [n] ∧ r ∉ g.*1))).
Proof.
  induction g as [|[r0 ns0] g IH]; csimpl; intros ND Hin.
  - apply list_elem_of_singleton in Hin as [= -> ->]. right. split; [done|].
    right. split; [done|apply not_elem_of_nil].
  - apply NoDup_cons in ND as [Hr0 ND].
    destruct (decide (r0 = r)) as [->|Hne].
    + apply elem_of_cons in Hin as [[= -> ->]|Hin].
      * right. split; [done|]. left. exists ns0. split; [left|done].
      * left. split; [|by right]. intros ->. apply Hr0.
        by apply (list_elem_of_fmap_2 fst) in Hin.
    + apply elem_of_cons in Hin as [[= -> ->]|Hin].
      * left. split; [done|left].
      * destruct (IH ND Hin) as [[? ?]|[-> [(ns & ? & ->)|[-> ?]]]].
        -- left. split; [done|by right].
        -- right. split; [done|]. left. exists ns. split; [by right|done].
        -- right. split; [done|]. right. split; [done|].
           by intros [?|?]%elem_of_cons.
Qed.

Record groups_ok (g : RoundGroups) (vals : list ProtocolNode) : Prop := {
  g_NoDup : NoDup g.*1;
  g_rows : ∀ r ns, (r, ns) ∈ g → ns = filter (λ n, round_index n = r) vals;
  g_nonempty : ∀ r ns, (r, ns) ∈ g → ns ≠ [];
  g_all : ∀ n, n ∈ vals → round_index n ∈ g.*1
}.

Lemma groups_ok_push g vals n :
  groups_ok g vals → groups_ok (group_push (round_index n) n g) (vals ++ [n]).
Proof.
  intros [ND Hrows Hne Hall]. split.
  - rewrite group_push_keys. destruct (decide _); [done|].
    apply NoDup_app. split_and!; [done| |apply NoDup_singleton].
    by intros r Hr ->%list_elem_of_singleton.
  - intros r ns Hin. rewrite filter_app, filter_cons, filter_nil.
    destruct (group_push_elem _ _ _ _ _ ND Hin)
      as [[Hr ?]|[-> [(ns0 & ? & ->)|[-> Hr]]]].
    + rewrite decide_False by done. rewrite app_nil_r. by apply Hrows.
    + rewrite decide_True by done. f_equal. by apply Hrows.
    + rewrite decide_True by done.
      destruct (filter (λ m, round_index m = round_index n) vals)
        as [|m l] eqn:E; [done|].
      assert (m ∈ m :: l) as Hm by left.
      rewrite <-E in Hm. apply list_elem_of_filter in Hm as [Em Hm].
      destruct Hr. rewrite <-Em. by apply Hall.
  - intros r ns Hin.
    destruct (group_push_elem _ _ _ _ _ ND Hin)
      as [[Hr ?]|[-> [(ns0 & ? & ->)|[-> Hr]]]]; [by eapply Hne| |done].
    by destruct ns0.
  - intros m Hm. rewrite group_push_keys.
    apply elem_of_app in Hm as [Hm| ->%list_elem_of_singleton].
    + destruct (decide _); [by apply Hall|]. apply elem_of_app. left. by apply Hall.
    + destruct (decide _); [done|]. apply elem_of_app. right. left.
Qed.

Lemma groups_of_ok vals : groups_ok (groups_of vals) vals.
Proof.
  unfold groups_of. induction vals as [|n vals IH] using rev_ind.
  - split; simpl; [constructor|by intros ?? ?%elem_of_nil..|by intros ? ?%elem_of_nil].
  - rewrite foldl_snoc. by apply groups_ok_push.
Qed.

(** ** The "Calculate positions" loop *)

Definition slot_x (index : nat) : Z :=
  Z.of_nat index * (NODE_WIDTH + NODE_SPACING) + NODE_WIDTH / 2.
Definition level_y (round : Z) : Z :=
  Double.add (Double.add (Double.mul round LEVEL_HEIGHT) (NODE_HEIGHT / 2)) 40.

(** Up to [2^53] every integer is a double. *)
Lemma fl_exact z : Z.abs z ≤ 2 ^ 53 → Double.fl z = z.
Proof.
  intros Hz. unfold Double.fl. by rewrite (proj2 (Z.leb_le _ _) Hz).
Qed.

(** Past [2^53]: to the nearest double, a tie to the even significand, also
    when the significand carries into the next power of two. *)
Example fl_rounds :
  Double.fl (2 ^ 53 + 1) = 2 ^ 53
  ∧ Double.fl (2 ^ 53 + 3) = 2 ^ 53 + 4
  ∧ Double.fl (- (2 ^ 53 + 3)) = - (2 ^ 53 + 4)
  ∧ Double.fl (2 ^ 54 + 2) = 2 ^ 54
  ∧ Double.fl (2 ^ 54 + 3) = 2 ^ 54 + 4
  ∧ Double.fl (2 ^ 54 + 6) = 2 ^ 54 + 8
  ∧ Double.fl (2 ^ 54 - 1) = 2 ^ 54
  ∧ Double.mul (2 ^ 53 - 1) 160 = 1441151880758558464.
Proof. by vm_compute. Qed.

(** For a [round] of at most [2^45] in magnitude no operation of the [y]
    expression rounds. *)
Lemma level_y_exact round :
  Z.abs round ≤ 2 ^ 45 → level_y round = round * 160 + 80.
Proof.
  intros Hr. unfold level_y, Double.add, Double.mul, LEVEL_HEIGHT, NODE_HEIGHT.
  change (80 / 2) with 40.
  change (2 ^ 45) with 35184372088832 in Hr.
  assert (∀ z, Z.abs z ≤ 9007199254740992 → Double.fl z = z) as Hfl
    by apply fl_exact.
  rewrite (Hfl (round * 160)) by lia.
  rewrite (Hfl (round * 160 + 40)) by lia.
  rewrite Hfl; lia.
Qed.

Definition canvas_height (maxRound : Z) : Z :=
  Double.add (Double.mul (Double.add maxRound 1) LEVEL_HEIGHT) 100.

Lemma canvas_height_exact maxRound :
  Z.abs maxRound ≤ 2 ^ 45 → canvas_height maxRound = (maxRound + 1) * 160 + 100.
Proof.
  intros Hr.
  unfold canvas_height, Double.add, Double.mul, LEVEL_HEIGHT.
  change (2 ^ 45) with 35184372088832 in Hr.
  assert (∀ z, Z.abs z ≤ 9007199254740992 → Double.fl z = z) as Hfl
    by apply fl_exact.
  rewrite (Hfl (maxRound + 1)) by lia.
  rewrite (Hfl ((maxRound + 1) * 160)) by lia.
  rewrite Hfl; lia.
Qed.

Lemma place_row_notin round row : ∀ i h k,
  k ∉ id <$> row → place_row round i row h !! k = h !! k.
Proof.
  induction row as [|n row IH]; intros i h k Hk; simpl; [done|].
  rewrite fmap_cons in Hk. apply not_elem_of_cons in Hk as [Hne Hk].
  rewrite IH by done. by apply lookup_alter_ne.
Qed.

Lemma place_row_in round row : ∀ i h j n,
  NoDup (id <$> row) → row !! j = Some n →
  place_row round i row h !! id n
  = set_xy (slot_x (i + j)) (level_y round) <$> h !! id n.
Proof.
  induction row as [|n0 row IH]; intros i h j n ND Hj; [done|].
  rewrite fmap_cons in ND. apply NoDup_cons in ND as [Hn0 ND].
  destruct j as [|j]; simpl in *.
  - injection Hj as ->. rewrite place_row_notin by done.
    rewrite lookup_alter_eq, Nat.add_0_r. done.
  - rewrite (IH _ _ j n) by done. rewrite lookup_alter_ne.
    + by rewrite Nat.add_succ_r.
    + intros E. apply Hn0. rewrite E.
      apply list_elem_of_fmap_2. by eapply list_elem_of_lookup_2.
Qed.

Definition sorted_rows (bp : gset string) (g : RoundGroups) : RoundGroups :=
  (λ e, (e.1, sort (compareNodes bp) e.2)) <$> g.

Definition widest (mw : Z) (g : RoundGroups) : Z :=
  foldl Z.max mw (rowWidth <$> g.*2).

Definition place_rows (bp : gset string) (h : Heap) (g : RoundGroups) : Heap :=
  foldl (λ h e, place_row e.1 0 (sort (compareNodes bp) e.2) h) h g.

Lemma foldl_position_step bp g : ∀ done mw h,
  foldl (position_step bp) (done, mw, h) g
  = (done ++ sorted_rows bp g, widest mw g, place_rows bp h g).
Proof.
  induction g as [|[r ns] g IH]; intros done mw h; simpl.
  - by rewrite app_nil_r.
  - rewrite IH. unfold sorted_rows, widest, place_rows, rowWidth. csimpl.
    by rewrite <-app_assoc, sort_length.
Qed.

Lemma ids_sort bp ns :
  id <$> sort (compareNodes bp) ns ≡ₚ id <$> ns.
Proof. by rewrite sort_Permutation. Qed.

Lemma place_rows_notin bp g : ∀ h k,
  k ∉ id <$> mjoin g.*2 → place_rows bp h g !! k = h !! k.
Proof.
  induction g as [|[r ns] g IH]; intros h k Hk; [done|].
  unfold place_rows in *. csimpl in *.
  rewrite fmap_app, not_elem_of_app in Hk. destruct Hk as [Hk1 Hk2].
  rewrite IH by done. apply place_row_notin. by rewrite ids_sort.
Qed.

Lemma place_rows_in bp g : ∀ h r ns j n,
  NoDup (id <$> mjoin g.*2) → (r, ns) ∈ g →
  sort (compareNodes bp) ns !! j = Some n →
  place_rows bp h g !! id n = set_xy (slot_x j) (level_y r) <$> h !! id n.
Proof.
  induction g as [|[r0 ns0] g IH]; intros h r ns j n ND Hin Hj.
  { by apply elem_of_nil in Hin. }
  csimpl in ND. rewrite fmap_app in ND. apply NoDup_app in ND as (ND0 & Hdis & ND).
  assert (id n ∈ id <$> ns) as Hn.
  { rewrite <-(ids_sort bp). apply list_elem_of_fmap_2.
    by eapply list_elem_of_lookup_2. }
  change (place_rows bp h ((r0, ns0) :: g))
    with (place_rows bp (place_row r0 0 (sort (compareNodes bp) ns0) h) g).
  apply elem_of_cons in Hin as [[= -> ->]|Hin].
  - rewrite place_rows_notin by (by apply Hdis).
    apply (place_row_in _ _ 0); [by rewrite ids_sort|done].
  - rewrite (IH _ r ns j n) by done.
    rewrite place_row_notin; [done|]. rewrite ids_sort. intros H0.
    apply (Hdis _ H0). rewrite list_elem_of_fmap in Hn.
    destruct Hn as (m & -> & Hm). apply list_elem_of_fmap_2.
    apply list_elem_of_join. exists ns. split; [done|].
    by apply (list_elem_of_fmap_2 snd) in Hin.
Qed.

(** ** The "Center all rounds" loop *)

Lemma center_step_notin mw e : ∀ h k,
  k ∉ id <$> e.2 → center_step mw h e !! k = h !! k.
Proof.
  unfold center_step. generalize ((mw - rowWidth e.2) / 2). intros off.
  induction (e.2) as [|n row IH]; intros h k Hk; simpl; [done|].
  rewrite fmap_cons in Hk. apply not_elem_of_cons in Hk as [Hne Hk].
  rewrite IH by done. by apply lookup_alter_ne.
Qed.

Lemma center_step_in mw e : ∀ h n,
  NoDup (id <$> e.2) → n ∈ e.2 →
  center_step mw h e !! id n = add_x ((mw - rowWidth e.2) / 2) <$> h !! id n.
Proof.
  unfold center_step. generalize ((mw - rowWidth e.2) / 2). intros off.
  induction (e.2) as [|n0 row IH]; intros h n ND Hn; simpl.
  { by apply elem_of_nil in Hn. }
  rewrite fmap_cons in ND. apply NoDup_cons in ND as [Hn0 ND].
  assert (∀ (h' : Heap) k, k ∉ id <$> row →
    foldl (λ h n, alter (add_x off) (id n) h) h' row !! k = h' !! k) as Hnotin.
  { clear. induction row as [|m row IH]; intros h' k Hk; simpl; [done|].
    rewrite fmap_cons in Hk. apply not_elem_of_cons in Hk as [Hne Hk].
    rewrite IH by done. by apply lookup_alter_ne. }
  destruct (decide (id n = id n0)) as [E|Hne].
  - rewrite E, Hnotin by done. by rewrite lookup_alter_eq.
  - apply elem_of_cons in Hn as [->|Hn]; [done|].
    rewrite IH by done. by rewrite lookup_alter_ne.
Qed.

Definition center_rows (mw : Z) (h : Heap) (g : RoundGroups) : Heap :=
  foldl (center_step mw) h g.

Lemma center_rows_notin mw g : ∀ h k,
  k ∉ id <$> mjoin g.*2 → center_rows mw h g !! k = h !! k.
Proof.
  induction g as [|[r ns] g IH]; intros h k Hk; [done|].
  unfold center_rows in *. csimpl in *.
  rewrite fmap_app, not_elem_of_app in Hk. destruct Hk as [Hk1 Hk2].
  rewrite IH by done. by apply center_step_notin.
Qed.

Lemma center_rows_in mw g : ∀ h r row n,
  NoDup (id <$> mjoin g.*2) → (r, row) ∈ g → n ∈ row →
  center_rows mw h g !! id n = add_x ((mw - rowWidth row) / 2) <$> h !! id n.
Proof.
  induction g as [|[r0 ns0] g IH]; intros h r row n ND Hin Hn.
  { by apply elem_of_nil in Hin. }
  csimpl in ND. rewrite fmap_app in ND. apply NoDup_app in ND as (ND0 & Hdis & ND).
  change (center_rows mw h ((r0, ns0) :: g))
    with (center_rows mw (center_step mw h (r0, ns0)) g).
  apply elem_of_cons in Hin as [[= -> ->]|Hin].
  - rewrite center_rows_notin by (by apply Hdis, list_elem_of_fmap_2).
    by apply (center_step_in mw (r0, ns0)).
  - rewrite (IH _ r row n) by done.
    rewrite center_step_notin; [done|]. simpl. intros H0.
    apply (Hdis _ H0). apply list_elem_of_fmap_2.
    apply list_elem_of_join. exists row. split; [done|].
    by apply (list_elem_of_fmap_2 snd) in Hin.
Qed.

(** ** The whole memo *)

(** The keys of [nodeMap], the node stored under a key, and the values in
    iteration order. *)
Definition keys_of (nodes : list ProtocolNode) : list string :=
  (build_nodeMap nodes).1.
Definition stored (nodes : list ProtocolNode) (k : string) : option ProtocolNode :=
  node_of (build_nodeMap nodes).2 k.
Definition entries (nodes : list ProtocolNode) : list ProtocolNode :=
  omap (stored nodes) (keys_of nodes).

Lemma keys_of_NoDup nodes : NoDup (keys_of nodes).
Proof. apply (build_nodeMap_ok nodes). Qed.

Lemma stored_Some nodes k n : stored nodes k = Some n → id n = k ∧ n ∈ nodes.
Proof.
  unfold stored, node_of. destruct (_ !! k) as [t|] eqn:E; [|done].
  intros [= <-]. apply (build_nodeMap_ok nodes) in E as (n & ? & ? & ->). done.
Qed.

Lemma stored_heap nodes k :
  (build_nodeMap nodes).2 !! k = fresh <$> stored nodes k.
Proof.
  unfold stored, node_of. destruct (_ !! k) as [t|] eqn:E; [|done].
  apply (build_nodeMap_ok nodes) in E as (n & ? & ? & ->). done.
Qed.

Lemma stored_keys nodes k : k ∈ keys_of nodes ↔ is_Some (stored nodes k).
Proof.
  unfold keys_of, stored, node_of.
  rewrite (keys_dom _ _ _ (build_nodeMap_ok nodes)), fmap_is_Some. done.
Qed.

Lemma entries_elem nodes n : n ∈ entries nodes ↔ stored nodes (id n) = Some n.
Proof.
  unfold entries. rewrite list_elem_of_omap. split.
  - intros (k & Hk & Hn). by destruct (stored_Some _ _ _ Hn) as [<- _].
  - intros Hn. exists (id n). split; [|done]. apply stored_keys. eauto.
Qed.

Lemma entries_ids nodes : id <$> entries nodes = keys_of nodes.
Proof.
  unfold entries.
  assert (∀ k, k ∈ keys_of nodes → is_Some (stored nodes k)) as H
    by (intros k; apply stored_keys).
  induction (keys_of nodes) as [|k ks IH]; [done|]. csimpl.
  destruct (H k) as [n Hn]; [left|]. rewrite Hn. csimpl.
  rewrite IH by (intros; apply H; by right).
  by destruct (stored_Some _ _ _ Hn) as [-> _].
Qed.

Lemma entries_NoDup nodes : NoDup (id <$> entries nodes).
Proof. rewrite entries_ids. apply keys_of_NoDup. Qed.

Lemma entries_NoDup_ids nodes : NoDup (id <$> nodes) → entries nodes = nodes.
Proof.
  intros ND. destruct (build_nodeMap_NoDup nodes ND) as [Hk Hh].
  unfold entries, keys_of. rewrite Hk.
  assert (∀ n, n ∈ nodes → stored nodes (id n) = Some n) as H.
  { intros n Hn. unfold stored, node_of. by rewrite Hh. }
  clear Hk Hh ND. generalize dependent (stored nodes). intros f H.
  induction nodes as [|n ns IH]; [done|]. csimpl.
  rewrite H by left. csimpl. f_equal. apply IH. intros; apply H; by right.
Qed.

(** Rows hold every stored node once. *)
Lemma groups_ids_NoDup g vals :
  groups_ok g vals → NoDup (id <$> vals) → NoDup (id <$> mjoin g.*2).
Proof.
  intros [ND Hrows _ _] NDv.
  assert (∀ a b, a ∈ vals → b ∈ vals → id a = id b → a = b) as Hinj.
  { intros a b (i & Hi)%list_elem_of_lookup (j & Hj)%list_elem_of_lookup E.
    assert (i = j) as ->; [|congruence].
    eapply NoDup_lookup; [exact NDv|by rewrite list_lookup_fmap, Hi|].
    rewrite list_lookup_fmap, Hj. simpl. by rewrite E. }
  induction g as [|[r ns] g IH]; csimpl in *; [constructor|].
  apply NoDup_cons in ND as [Hr ND]. rewrite fmap_app. apply NoDup_app.
  assert (ns = filter (λ n, round_index n = r) vals) as Hns by (apply Hrows; left).
  split_and!.
  - rewrite Hns. eapply sublist_NoDup; [exact NDv|].
    apply fmap_sublist, sublist_filter.
  - intros k (a & -> & Ha)%list_elem_of_fmap (b & E & Hb)%list_elem_of_fmap.
    apply list_elem_of_join in Hb as (ns' & Hb & Hns').
    apply list_elem_of_fmap in Hns' as ([r' ?] & -> & Hin). simpl in Hb.
    rewrite Hns in Ha. apply list_elem_of_filter in Ha as [Ra Ha].
    rewrite (Hrows r' _ (list_elem_of_further _ _ _ Hin)) in Hb.
    apply list_elem_of_filter in Hb as [Rb Hb].
    rewrite (Hinj a b Ha Hb E) in Ra. apply Hr.
    rewrite <-Ra, Rb. by apply (list_elem_of_fmap_2 fst) in Hin.
  - apply IH; [done|]. intros; apply Hrows; by right.
Qed.

Lemma sorted_rows_ids bp g :
  id <$> mjoin (sorted_rows bp g).*2 ≡ₚ id <$> mjoin g.*2.
Proof.
  induction g as [|[r ns] g IH]; [done|]. csimpl.
  by rewrite !fmap_app, IH, sort_Permutation.
Qed.

Lemma sorted_rows_elem bp g r row :
  (r, row) ∈ sorted_rows bp g ↔
  ∃ ns, (r, ns) ∈ g ∧ row = sort (compareNodes bp) ns.
Proof.
  unfold sorted_rows. rewrite list_elem_of_fmap. split.
  - intros ([r' ns] & [= -> ->] & Hin). eauto.
  - intros (ns & Hin & ->). by exists (r, ns).
Qed.

Lemma sorted_rows_keys bp g : (sorted_rows bp g).*1 = g.*1.
Proof. unfold sorted_rows. rewrite <-list_fmap_compose. done. Qed.

(** The last key whose node has no parent: the [root] the linking loop ends
    with. *)
Definition root_of (nodes : list ProtocolNode) : option string :=
  last (filter (is_root (stored nodes)) (keys_of nodes)).

Definition linked (nodes : list ProtocolNode) : Heap :=
  (link (keys_of nodes) (build_nodeMap nodes).2).1.

Definition children_in (nodes : list ProtocolNode) (k : string) : list string :=
  link_children (stored nodes) (keys_of nodes) k.

Lemma linked_lookup nodes k :
  linked nodes !! k
  = (λ n, mkTreeNode n 0 0 (children_in nodes k)) <$> stored nodes k.
Proof.
  unfold linked, link.
  rewrite (foldl_link_step_heap (stored nodes)) by done.
  rewrite stored_heap. by destruct (stored nodes k).
Qed.

Lemma link_root nodes :
  (link (keys_of nodes) (build_nodeMap nodes).2).2 = root_of nodes.
Proof.
  unfold link. rewrite (foldl_link_step_root (stored nodes)) by done.
  unfold root_of. by destruct (last _).
Qed.

Lemma linked_node_of nodes k : node_of (linked nodes) k = stored nodes k.
Proof. unfold node_of. rewrite linked_lookup. by destruct (stored nodes k). Qed.

Definition groups (nodes : list ProtocolNode) : RoundGroups :=
  groups_of (entries nodes).

Lemma build_roundGroups_linked nodes :
  build_roundGroups (keys_of nodes) (linked nodes) = groups nodes.
Proof.
  rewrite build_roundGroups_values. unfold groups, entries. f_equal.
  apply list_omap_ext, Forall_Forall2_diag, Forall_forall.
  intros k _. apply linked_node_of.
Qed.

Definition final_heap (nodes : list ProtocolNode) (bp : gset string) : Heap :=
  center_rows (widest 0 (groups nodes))
    (place_rows bp (linked nodes) (groups nodes))
    (sorted_rows bp (groups nodes)).

Definition final_height (nodes : list ProtocolNode) : Z :=
  match Math_max (groups nodes).*1 with
  | Some maxRound =>
      Double.add (Double.mul (Double.add maxRound 1) LEVEL_HEIGHT) 100
  | None => 0
  end.

Lemma layout_unfold nodes bp :
  layout nodes bp =
  match nodes with
  | [] => empty_layout ∅
  | _ =>
      match root_of nodes with
      | None => empty_layout (linked nodes)
      | Some root =>
          mkLayoutResult (Some root)
            (Z.max (widest 0 (groups nodes) + 80) 800)
            (final_height nodes) (final_heap nodes bp)
            (sorted_rows bp (groups nodes)) (widest 0 (groups nodes))
      end
  end.
Proof.
  unfold layout. destruct nodes as [|n0 ns]; [done|].
  generalize (n0 :: ns). clear. intros nodes.
  pose proof (link_root nodes) as HR.
  pose proof (build_roundGroups_linked nodes) as HG.
  unfold final_heap, final_height. rewrite <-HG, <-HR.
  unfold linked, keys_of. clear HR HG.
  destruct (build_nodeMap nodes) as [keys h0]; simpl.
  destruct (link keys h0) as [h1 [root|]]; simpl; [|done].
  rewrite foldl_position_step. simpl. by rewrite sorted_rows_keys.
Qed.

Lemma groups_ok_nodes nodes : groups_ok (groups nodes) (entries nodes).
Proof. apply groups_of_ok. Qed.

Lemma groups_NoDup nodes : NoDup (id <$> mjoin (groups nodes).*2).
Proof. apply (groups_ids_NoDup _ _ (groups_ok_nodes nodes)), entries_NoDup. Qed.

(** Every stored node sits in the row of its round. *)
Lemma entry_slot nodes bp n :
  n ∈ entries nodes →
  ∃ row j, (round_index n, row) ∈ sorted_rows bp (groups nodes)
           ∧ row !! j = Some n.
Proof.
  intros Hn. destruct (groups_ok_nodes nodes) as [_ Hrows _ Hall].
  apply Hall in Hn as Hr.
  apply list_elem_of_fmap in Hr as ([r ns] & Hr & Hin). simpl in Hr. subst r.
  exists (sort (compareNodes bp) ns).
  assert (n ∈ sort (compareNodes bp) ns) as [j Hj]%list_elem_of_lookup.
  { rewrite sort_Permutation, (Hrows _ _ Hin). by apply list_elem_of_filter. }
  exists j. split; [|done]. apply sorted_rows_elem. eauto.
Qed.

Lemma row_entries nodes bp r row n :
  (r, row) ∈ sorted_rows bp (groups nodes) → n ∈ row →
  n ∈ entries nodes ∧ round_index n = r.
Proof.
  intros (ns & Hin & ->)%sorted_rows_elem Hn.
  rewrite sort_Permutation in Hn.
  rewrite (g_rows _ _ (groups_ok_nodes nodes) _ _ Hin) in Hn.
  apply list_elem_of_filter in Hn. tauto.
Qed.

(** The object of the [j]-th node of a row when the memo returns. *)
Lemma final_heap_slot nodes bp r row j n :
  (r, row) ∈ sorted_rows bp (groups nodes) → row !! j = Some n →
  final_heap nodes bp !! id n
  = Some (mkTreeNode n
            (slot_x j + (widest 0 (groups nodes) - rowWidth row) / 2)
            (level_y r) (children_in nodes (id n))).
Proof.
  intros Hrow Hj. unfold final_heap.
  assert (n ∈ row) as Hn by (by eapply list_elem_of_lookup_2).
  rewrite (center_rows_in _ _ _ r row n);
    [|rewrite sorted_rows_ids; apply groups_NoDup|done..].
  pose proof Hrow as (ns & Hin & ->)%sorted_rows_elem.
  rewrite (place_rows_in bp _ _ r ns j n); [|apply groups_NoDup|done..].
  rewrite linked_lookup.
  destruct (row_entries _ _ _ _ _ Hrow Hn) as [He _].
  apply entries_elem in He. by rewrite He.
Qed.

Lemma final_heap_None nodes bp k :
  stored nodes k = None → final_heap nodes bp !! k = None.
Proof.
  intros Hk. unfold final_heap.
  assert (k ∉ id <$> mjoin (groups nodes).*2) as Hnot.
  { intros (n & -> & Hn)%list_elem_of_fmap.
    apply list_elem_of_join in Hn as (ns & Hn & Hns).
    apply list_elem_of_fmap in Hns as ([r ?] & -> & Hin). simpl in Hn.
    rewrite (g_rows _ _ (groups_ok_nodes nodes) _ _ Hin) in Hn.
    apply list_elem_of_filter in Hn as [_ Hn]. apply entries_elem in Hn.
    congruence. }
  rewrite center_rows_notin by (by rewrite sorted_rows_ids).
  rewrite place_rows_notin by done.
  by rewrite linked_lookup, Hk.
Qed.

(** No pass touches the node part or, after linking, the children. *)
Lemma final_heap_lookup nodes bp k t :
  final_heap nodes bp !! k = Some t →
  stored nodes k = Some (node t) ∧ children t = children_in nodes k.
Proof.
  intros Ht. destruct (stored nodes k) as [n|] eqn:Hk.
  - destruct (stored_Some _ _ _ Hk) as [<- _].
    apply entries_elem in Hk as He.
    destruct (entry_slot nodes bp n He) as (row & j & Hrow & Hj).
    rewrite (final_heap_slot _ _ _ _ _ _ Hrow Hj) in Ht.
    by injection Ht as <-.
  - by rewrite final_heap_None in Ht.
Qed.

Lemma final_heap_dom nodes bp k :
  is_Some (final_heap nodes bp !! k) ↔ k ∈ keys_of nodes.
Proof.
  rewrite stored_keys. split.
  - intros [t Ht]. apply final_heap_lookup in Ht as [-> _]. eauto.
  - intros [n Hn]. destruct (stored_Some _ _ _ Hn) as [<- _].
    apply entries_elem in Hn.
    destruct (entry_slot nodes bp n Hn) as (row & j & Hrow & Hj).
    rewrite (final_heap_slot _ _ _ _ _ _ Hrow Hj). eauto.
Qed.

End Facts.

(* ===================================================================== *)
(** * The traversals *)
(* ===================================================================== *)

Module Tree.
Import Layout.

Lemma bind_ext_in {A B} (f g : A → list B) (l : list A) :
  (∀ a, a ∈ l → f a = g a) → l ≫= f = l ≫= g.
Proof.
  induction l as [|a l IH]; intros H; [done|]. csimpl.
  rewrite H by left. f_equal. apply IH. intros; apply H; by right.
Qed.

Lemma fmap_bind_list {A B C} (f : B → C) (g : A → list B) (l : list A) :
  f <$> (l ≫= g) = l ≫= λ a, f <$> g a.
Proof.
  induction l as [|a l IH]; [done|].
  by rewrite !bind_cons, fmap_app, IH.
Qed.

Lemma filter_ne_notin (r : string) (l : list string) :
  r ∉ l → filter (λ k, k ≠ r) l = l.
Proof.
  induction l as [|a l IH]; intros Hr; [done|].
  apply not_elem_of_cons in Hr as [? ?].
  rewrite filter_cons, decide_True by done. f_equal. by apply IH.
Qed.

Lemma length_filter_ne (r : string) (l : list string) :
  NoDup l → r ∈ l → length (filter (λ k, k ≠ r) l) = (length l - 1)%nat.
Proof.
  induction l as [|a l IH]; intros ND Hr; [by apply elem_of_nil in Hr|].
  apply NoDup_cons in ND as [Ha ND]. rewrite filter_cons.
  destruct (decide (a ≠ r)) as [Hne|Heq].
  - apply elem_of_cons in Hr as [->|Hr]; [done|]. simpl. rewrite IH by done.
    destruct l; [by apply elem_of_nil in Hr|simpl; lia].
  - assert (a = r) as -> by (by destruct (decide (a = r))).
    rewrite filter_ne_notin by done. simpl. lia.
Qed.

Section Traversal.
(** A heap whose [children] arrays list, in key order, the keys that name
    the owner as parent: what the linking loop leaves. *)
Context (keys : list string) (par : string → option string) (h : Heap).
Context (bp : gset string).
Hypothesis keys_NoDup : NoDup keys.
Hypothesis heap_dom : ∀ k, is_Some (h !! k) ↔ k ∈ keys.
Hypothesis heap_children : ∀ k t,
  h !! k = Some t → children t = filter (λ c, par c = Some k) keys.
Hypothesis par_keys : ∀ c p, par c = Some p → c ∈ keys.

(** [up j v]: the [j]-th ancestor of [v]. *)
Fixpoint up (j : nat) (v : string) : option string :=
  match j with
  | O => Some v
  | S j => par v ≫= up j
  end.

Lemma up_add a b v : up (a + b) v = up a v ≫= up b.
Proof.
  revert v. induction a as [|a IH]; intros v; simpl; [done|].
  destruct (par v) as [p|]; simpl; [apply IH|done].
Qed.

Lemma up_S_r j v : up (S j) v = up j v ≫= par.
Proof.
  replace (S j) with (j + 1)%nat by lia. rewrite up_add.
  destruct (up j v) as [w|]; simpl; [|done]. by destruct (par w).
Qed.

(** A node that has no parent is reached after one number of steps only. *)
Lemma up_top_unique a b v r r' :
  up a v = Some r → par r = None →
  up b v = Some r' → par r' = None → a = b.
Proof.
  assert (∀ a b r r', (a < b)%nat → up a v = Some r → par r = None →
                      up b v = Some r' → False) as H.
  { clear. intros a b r r' Hlt Ha Hr Hb.
    replace b with (a + S (b - a - 1))%nat in Hb by lia.
    rewrite up_add, Ha in Hb. simpl in Hb. by rewrite Hr in Hb. }
  intros Ha Hr Hb Hr'.
  destruct (lt_eq_lt_dec a b) as [[Hlt| ->]|Hlt]; [|done|]; exfalso; eauto.
Qed.

Lemma up_no_cycle j i v r :
  up j v = Some r → par r = None → up (S i) v ≠ Some v.
Proof.
  intros Hj Hr Hi.
  assert (up (S i + j) v = Some r) as H by (by rewrite up_add, Hi).
  pose proof (up_top_unique _ _ _ _ _ H Hr Hj Hr). lia.
Qed.

(** ** Depth is bounded by the number of keys *)

Fixpoint chain (j : nat) (v : string) : list string :=
  v :: match j with
       | O => []
       | S j => match par v with Some p => chain j p | None => [] end
       end.

Lemma chain_length j : ∀ v r, up j v = Some r → length (chain j v) = S j.
Proof.
  induction j as [|j IH]; intros v r Hj; simpl in *; [done|].
  destruct (par v) as [p|]; simpl in *; [|done]. f_equal. by eapply IH.
Qed.

Lemma chain_elem j : ∀ v w, w ∈ chain j v → ∃ i, (i ≤ j)%nat ∧ up i v = Some w.
Proof.
  induction j as [|j IH]; intros v w Hw; simpl in Hw.
  - apply list_elem_of_singleton in Hw as ->. by exists 0%nat.
  - apply elem_of_cons in Hw as [->|Hw]; [exists 0%nat; split; [lia|done]|].
    destruct (par v) as [p|] eqn:Ep; [|by apply elem_of_nil in Hw].
    destruct (IH _ _ Hw) as (i & ? & Hi). exists (S i). split; [lia|].
    simpl. by rewrite Ep.
Qed.

Lemma chain_keys j : ∀ v r,
  up j v = Some r → r ∈ keys → ∀ w, w ∈ chain j v → w ∈ keys.
Proof.
  induction j as [|j IH]; intros v r Hj Hr w Hw; simpl in *.
  - apply list_elem_of_singleton in Hw as ->. by injection Hj as ->.
  - destruct (par v) as [p|] eqn:Ep; simpl in *; [|done].
    apply elem_of_cons in Hw as [->|Hw]; [by eapply par_keys|by eapply IH].
Qed.

Lemma chain_NoDup j : ∀ v r,
  up j v = Some r → par r = None → NoDup (chain j v).
Proof.
  induction j as [|j IH]; intros v r Hj Hr; simpl.
  - apply NoDup_singleton.
  - pose proof Hj as Hj'. simpl in Hj.
    destruct (par v) as [p|] eqn:Ep; simpl in Hj; [|done].
    constructor; [|by eapply IH].
    intros (i & _ & Hi)%chain_elem.
    apply (up_no_cycle _ i _ _ Hj' Hr). simpl. by rewrite Ep.
Qed.

Lemma depth_bound j v r :
  up j v = Some r → par r = None → r ∈ keys → (j < length keys)%nat.
Proof.
  intros Hj Hr Hk.
  assert (length (chain j v) ≤ length keys)%nat as H.
  { apply submseteq_length, NoDup_submseteq; [by eapply chain_NoDup|].
    by eapply chain_keys. }
  rewrite (chain_length _ _ _ Hj) in H. lia.
Qed.

(** ** What the traversal emits *)

Lemma traverse_edges_S f n t :
  h !! n = Some t →
  traverse_edges (S f) h bp n =
  children t ≫= λ c,
    mkEdge n c (bool_decide (n ∈ bp) && bool_decide (c ∈ bp))
      :: traverse_edges f h bp c.
Proof. intros Hn. simpl. by rewrite Hn. Qed.

Lemma child_iff n t c : h !! n = Some t → c ∈ children t ↔ par c = Some n.
Proof.
  intros Hn. rewrite (heap_children _ _ Hn), list_elem_of_filter.
  split; [tauto|]. intros Hc. split; [done|by eapply par_keys].
Qed.

Lemma traverse_edges_elem f : ∀ n e,
  e ∈ traverse_edges f h bp n →
  from e ∈ keys ∧ par (to e) = Some (from e)
  ∧ isBestPath e = bool_decide (from e ∈ bp) && bool_decide (to e ∈ bp)
  ∧ ∃ j, (j < f)%nat ∧ up j (from e) = Some n.
Proof.
  induction f as [|f IH]; intros n e He; [by apply elem_of_nil in He|].
  destruct (h !! n) as [t|] eqn:Hn;
    [|simpl in He; rewrite Hn in He; by apply elem_of_nil in He].
  rewrite (traverse_edges_S _ _ _ Hn) in He.
  apply list_elem_of_bind in He as (c & He & Hc).
  apply elem_of_cons in He as [->|He]; simpl.
  - split_and!; [apply heap_dom; eauto|by eapply child_iff|done|].
    exists 0%nat. split; [lia|done].
  - destruct (IH _ _ He) as (? & ? & ? & j & ? & Hj). split_and!; [done..|].
    exists (S j). split; [lia|]. rewrite up_S_r, Hj. simpl.
    by eapply child_iff.
Qed.

Lemma traverse_edges_intro f : ∀ j n p c,
  n ∈ keys → (j < f)%nat → up j p = Some n → par c = Some p →
  mkEdge p c (bool_decide (p ∈ bp) && bool_decide (c ∈ bp))
    ∈ traverse_edges f h bp n.
Proof.
  induction f as [|f IH]; intros j n p c Hn Hlt Hj Hc; [lia|].
  apply heap_dom in Hn as [t Hn]. rewrite (traverse_edges_S _ _ _ Hn).
  apply list_elem_of_bind. destruct j as [|j].
  - injection Hj as ->. exists c. split; [left|by eapply child_iff].
  - rewrite up_S_r in Hj. destruct (up j p) as [c'|] eqn:Hc'; [|done].
    simpl in Hj. exists c'. split; [|by eapply child_iff].
    right. apply (IH j); [by eapply par_keys|lia|done..].
Qed.

(** ** More fuel changes nothing once the depth is exhausted *)

Lemma traverse_edges_stable f : ∀ n F,
  (∀ c j, (f < j)%nat → up j c ≠ Some n) → (f ≤ F)%nat →
  traverse_edges F h bp n = traverse_edges f h bp n.
Proof.
  induction f as [|f IH]; intros n F Hno HF.
  - destruct F as [|F]; [done|]. simpl.
    destruct (h !! n) as [t|] eqn:Hn; [|done].
    destruct (children t) as [|c cs] eqn:Hc; [done|].
    destruct (Hno c 1%nat); [lia|]. simpl.
    assert (c ∈ children t) as Hin by (rewrite Hc; left).
    apply (child_iff _ _ _ Hn) in Hin. by rewrite Hin.
  - destruct F as [|F]; [lia|]. simpl.
    destruct (h !! n) as [t|] eqn:Hn; [|done].
    apply bind_ext_in. intros c Hc. f_equal. apply IH; [|lia].
    intros c' j Hlt Hj. apply (Hno c' (S j)); [lia|].
    rewrite up_S_r, Hj. simpl. by eapply child_iff.
Qed.

Lemma traverse_nodes_stable f : ∀ n F,
  (∀ c j, (f < j)%nat → up j c ≠ Some n) → (f < F)%nat →
  traverse_nodes F h n = traverse_nodes (S f) h n.
Proof.
  induction f as [|f IH]; intros n F Hno HF.
  - destruct F as [|F]; [lia|]. simpl. f_equal.
    destruct (h !! n) as [t|] eqn:Hn; [|done].
    destruct (children t) as [|c cs] eqn:Hc; [done|].
    destruct (Hno c 1%nat); [lia|]. simpl.
    assert (c ∈ children t) as Hin by (rewrite Hc; left).
    apply (child_iff _ _ _ Hn) in Hin. by rewrite Hin.
  - destruct F as [|F]; [lia|].
    change (traverse_nodes (S F) h n)
      with (n :: match h !! n with
                 | None => []
                 | Some t => children t ≫= traverse_nodes F h
                 end).
    change (traverse_nodes (S (S f)) h n)
      with (n :: match h !! n with
                 | None => []
                 | Some t => children t ≫= traverse_nodes (S f) h
                 end).
    f_equal. destruct (h !! n) as [t|] eqn:Hn; [|done].
    apply bind_ext_in. intros c Hc. apply IH; [|lia].
    intros c' j Hlt Hj. apply (Hno c' (S j)); [lia|].
    rewrite up_S_r, Hj. simpl. by eapply child_iff.
Qed.

(** From a node without parent the recursion is at most [length keys - 1]
    deep, so the fuel the memos are given is never used up. *)
Lemma root_depth r c j :
  par r = None → r ∈ keys → (length keys - 1 < j)%nat → up j c ≠ Some r.
Proof.
  intros Hr Hk Hlt Hj. pose proof (depth_bound _ _ _ Hj Hr Hk). lia.
Qed.

Lemma traverse_edges_fuel r F :
  par r = None → r ∈ keys → (length keys ≤ F)%nat →
  traverse_edges F h bp r = traverse_edges (length keys) h bp r.
Proof.
  intros Hr Hk HF.
  rewrite (traverse_edges_stable (length keys - 1) r F);
    [|intros; by apply root_depth|lia].
  symmetry. apply traverse_edges_stable; [|lia].
  intros; by apply root_depth.
Qed.

Lemma traverse_nodes_fuel r F :
  par r = None → r ∈ keys → (length keys ≤ F)%nat →
  traverse_nodes F h r = traverse_nodes (length keys) h r.
Proof.
  intros Hr Hk HF.
  assert (0 < length keys)%nat.
  { destruct keys; [by apply elem_of_nil in Hk|simpl; lia]. }
  rewrite (traverse_nodes_stable (length keys - 1) r F);
    [|intros; by apply root_depth|lia].
  symmetry. apply traverse_nodes_stable; [|lia].
  intros; by apply root_depth.
Qed.

(** [allNodes] is the root followed by the targets of [edges]. *)
Lemma traverse_nodes_edges f : ∀ n,
  traverse_nodes (S f) h n = n :: (to <$> traverse_edges f h bp n).
Proof.
  induction f as [|f IH]; intros n.
  - simpl. f_equal. destruct (h !! n) as [t|]; [|done].
    induction (children t) as [|??]; [done|]. csimpl. done.
  - change (traverse_nodes (S (S f)) h n)
      with (n :: match h !! n with
                 | None => []
                 | Some t => children t ≫= traverse_nodes (S f) h
                 end).
    destruct (h !! n) as [t|] eqn:Hn.
    + rewrite (traverse_edges_S _ _ _ Hn). f_equal.
      induction (children t) as [|c cs IHc]; [done|].
      rewrite !bind_cons, fmap_app, fmap_cons, <-IHc, IH. done.
    + simpl. by rewrite Hn.
Qed.

(** ** The targets of the edges *)

Lemma targets_elem f n c :
  n ∈ keys →
  c ∈ to <$> traverse_edges f h bp n ↔ ∃ j, (j < f)%nat ∧ up (S j) c = Some n.
Proof.
  intros Hn. split.
  - intros (e & -> & He)%list_elem_of_fmap.
    apply traverse_edges_elem in He as (_ & Hp & _ & j & ? & Hj).
    exists j. split; [done|]. simpl. by rewrite Hp.
  - intros (j & Hlt & Hj). simpl in Hj.
    destruct (par c) as [p|] eqn:Hp; [|done]. simpl in Hj.
    pose proof (traverse_edges_intro f j n p c Hn Hlt Hj Hp) as He.
    by apply (list_elem_of_fmap_2 to) in He.
Qed.

Lemma targets_NoDup f : ∀ n d r,
  n ∈ keys → up d n = Some r → par r = None →
  NoDup (to <$> traverse_edges f h bp n).
Proof.
  induction f as [|f IH]; intros n d r Hk Hd Hr; [constructor|].
  pose proof Hk as [t Hn]%heap_dom.
  rewrite (traverse_edges_S _ _ _ Hn), fmap_bind_list.
  assert (∀ c, c ∈ children t → up (S d) c = Some r) as Hdepth.
  { intros c Hc%(child_iff _ _ _ Hn). simpl. by rewrite Hc. }
  assert (∀ c y, c ∈ children t →
    y ∈ to <$> (mkEdge n c (bool_decide (n ∈ bp) && bool_decide (c ∈ bp))
                  :: traverse_edges f h bp c) →
    ∃ i, up (i + S d) y = Some r ∧ up i y = Some c) as Hin.
  { intros c y Hc Hy. rewrite fmap_cons in Hy.
    apply elem_of_cons in Hy as [->|Hy].
    - exists 0%nat. split; [by apply Hdepth|done].
    - apply targets_elem in Hy as (j & _ & Hj);
        [|eapply par_keys; by apply (child_iff _ _ _ Hn)].
      exists (S j). split; [|done]. rewrite up_add, Hj. by apply Hdepth. }
  apply NoDup_bind.
  - intros c1 c2 y Hc1 Hc2 Hy1 Hy2.
    destruct (Hin _ _ Hc1 Hy1) as (i1 & Hr1 & Hi1).
    destruct (Hin _ _ Hc2 Hy2) as (i2 & Hr2 & Hi2).
    assert (i1 + S d = i2 + S d)%nat as E
      by (by eapply (up_top_unique _ _ y)).
    assert (i1 = i2) as -> by lia. congruence.
  - intros c Hc. rewrite fmap_cons. constructor.
    + intros (j & _ & Hj)%targets_elem;
        [|eapply par_keys; by apply (child_iff _ _ _ Hn)].
      by apply (up_no_cycle _ j _ _ (Hdepth c Hc) Hr).
    + apply (IH c (S d) r); [|by apply Hdepth|done].
      eapply par_keys. by apply (child_iff _ _ _ Hn).
  - rewrite (heap_children _ _ Hn). by apply NoDup_filter.
Qed.

(** When every key climbs to the parentless [r], the edges below [r] point
    at every other key exactly once. *)
Lemma targets_Permutation r :
  par r = None → r ∈ keys →
  (∀ k, k ∈ keys → ∃ j, up j k = Some r) →
  to <$> traverse_edges (length keys) h bp r ≡ₚ filter (λ k, k ≠ r) keys.
Proof.
  intros Hr Hk Hall. apply NoDup_Permutation.
  - by apply (targets_NoDup _ r 0%nat r).
  - by apply NoDup_filter.
  - intros c. rewrite (targets_elem _ _ _ Hk), list_elem_of_filter. split.
    + intros (j & _ & Hj). split.
      * intros ->. simpl in Hj. by rewrite Hr in Hj.
      * simpl in Hj. destruct (par c) eqn:E; [by eapply par_keys|done].
    + intros [Hne Hc]. destruct (Hall c Hc) as [[|j] Hj].
      * by injection Hj.
      * exists j. split; [|done].
        pose proof (depth_bound _ _ _ Hj Hr Hk). lia.
Qed.

Lemma heap_size : size h = length keys.
Proof.
  rewrite <-(size_dom (D:=gset string)).
  assert (dom h = list_to_set keys) as ->.
  { apply set_eq. intros k.
    rewrite elem_of_dom, elem_of_list_to_set. apply heap_dom. }
  by apply size_list_to_set.
Qed.
End Traversal.

(** The flag of an emitted edge, whatever the heap. *)
Lemma traverse_edges_flag f (h : Heap) bp : ∀ n e,
  e ∈ traverse_edges f h bp n →
  isBestPath e = bool_decide (from e ∈ bp) && bool_decide (to e ∈ bp).
Proof.
  induction f as [|f IH]; intros n e He; [by apply elem_of_nil in He|].
  simpl in He. destruct (h !! n) as [t|]; [|by apply elem_of_nil in He].
  apply list_elem_of_bind in He as (c & He & _).
  apply elem_of_cons in He as [->|He]; [done|by eapply IH].
Qed.

End Tree.

(* ===================================================================== *)
(** * The tree the memos return *)
(* ===================================================================== *)

Module Rooted.
Import Layout Facts Tree.

(** The parent a key declares. *)
Definition par (nodes : list ProtocolNode) (c : string) : option string :=
  stored nodes c ≫= parent_id.

Lemma final_heap_children nodes bp k t :
  final_heap nodes bp !! k = Some t →
  children t = filter (λ c, par nodes c = Some k) (keys_of nodes).
Proof. by intros [_ ->]%final_heap_lookup. Qed.

Lemma par_keys nodes c p : par nodes c = Some p → c ∈ keys_of nodes.
Proof.
  unfold par. intros H. apply stored_keys.
  by destruct (stored nodes c).
Qed.

Lemma root_of_Some nodes r :
  root_of nodes = Some r → r ∈ keys_of nodes ∧ par nodes r = None.
Proof.
  intros H%last_Some_elem_of. apply list_elem_of_filter in H as [H ?].
  split; [done|]. unfold is_root in H. unfold par.
  destruct (stored nodes r) as [n|]; simpl in *; congruence.
Qed.

Lemma root_of_None nodes k :
  root_of nodes = None → k ∈ keys_of nodes → par nodes k ≠ None.
Proof.
  intros H%last_None Hk Hp.
  assert (k ∈ filter (is_root (stored nodes)) (keys_of nodes)) as Hin.
  { apply list_elem_of_filter. split; [|done].
    apply stored_keys in Hk as [n Hn]. unfold is_root, par in *.
    rewrite Hn in *. simpl in *. by rewrite Hp. }
  rewrite H in Hin. by apply elem_of_nil in Hin.
Qed.

Lemma edges_rooted nodes bp r :
  root_of nodes = Some r →
  edges (layout nodes bp) bp
  = traverse_edges (length (keys_of nodes)) (final_heap nodes bp) bp r.
Proof.
  intros Hr. rewrite layout_unfold. destruct nodes as [|n0 ns]; [done|].
  rewrite Hr. unfold edges; simpl.
  by rewrite (heap_size (keys_of (n0 :: ns)) _ (keys_of_NoDup _)
                (final_heap_dom _ bp)).
Qed.

Lemma allNodes_rooted nodes bp r :
  root_of nodes = Some r →
  allNodes (layout nodes bp)
  = traverse_nodes (length (keys_of nodes)) (final_heap nodes bp) r.
Proof.
  intros Hr. rewrite layout_unfold. destruct nodes as [|n0 ns]; [done|].
  rewrite Hr. unfold allNodes; simpl.
  by rewrite (heap_size (keys_of (n0 :: ns)) _ (keys_of_NoDup _)
                (final_heap_dom _ bp)).
Qed.

Lemma layout_unrooted nodes bp :
  root_of nodes = None →
  treeRoot (layout nodes bp) = None
  ∧ width (layout nodes bp) = 800 ∧ height (layout nodes bp) = 600.
Proof.
  intros Hr. rewrite layout_unfold. destruct nodes; [done|]. by rewrite Hr.
Qed.

(** The recursion of [edges] and [allNodes] ends by itself: any larger bound
    on the depth gives the same arrays. *)
Lemma edges_fuel nodes bp r F :
  root_of nodes = Some r → (length (keys_of nodes) ≤ F)%nat →
  traverse_edges F (final_heap nodes bp) bp r = edges (layout nodes bp) bp.
Proof.
  intros Hr HF. rewrite (edges_rooted _ _ _ Hr).
  destruct (root_of_Some _ _ Hr).
  eapply traverse_edges_fuel; eauto using keys_of_NoDup, final_heap_dom,
    final_heap_children, par_keys.
Qed.

Lemma allNodes_fuel nodes bp r F :
  root_of nodes = Some r → (length (keys_of nodes) ≤ F)%nat →
  traverse_nodes F (final_heap nodes bp) r = allNodes (layout nodes bp).
Proof.
  intros Hr HF. rewrite (allNodes_rooted _ _ _ Hr).
  destruct (root_of_Some _ _ Hr).
  eapply traverse_nodes_fuel; eauto using keys_of_NoDup, final_heap_dom,
    final_heap_children, par_keys.
Qed.

(** ** Lists without repeated ids *)

Section NoDup.
Context (nodes : list ProtocolNode).
Hypothesis ids_NoDup : NoDup (id <$> nodes).

Lemma keys_of_ids : keys_of nodes = id <$> nodes.
Proof. apply (build_nodeMap_NoDup nodes ids_NoDup). Qed.

Lemma stored_id n : n ∈ nodes → stored nodes (id n) = Some n.
Proof.
  intros Hn. apply entries_elem. by rewrite entries_NoDup_ids.
Qed.

Lemma par_id n : n ∈ nodes → par nodes (id n) = parent_id n.
Proof. intros Hn. unfold par. by rewrite stored_id. Qed.

Lemma id_inj a b : a ∈ nodes → b ∈ nodes → id a = id b → a = b.
Proof.
  intros Ha%stored_id Hb%stored_id E. rewrite E in Ha. congruence.
Qed.

Lemma key_node k : k ∈ keys_of nodes → ∃ n, n ∈ nodes ∧ id n = k.
Proof.
  rewrite keys_of_ids. intros (n & -> & ?)%list_elem_of_fmap. eauto.
Qed.

(** With a single parentless node, that node is the root. *)
Lemma root_of_unique root :
  root ∈ nodes → parent_id root = None →
  (∀ n, n ∈ nodes → parent_id n = None → n = root) →
  root_of nodes = Some (id root).
Proof.
  intros Hin Hp Huniq. unfold root_of.
  destruct (last _) as [r|] eqn:E.
  - apply last_Some_elem_of, list_elem_of_filter in E as [Hr Hk].
    apply key_node in Hk as (n & Hn & <-).
    unfold is_root in Hr. rewrite (stored_id _ Hn) in Hr.
    f_equal. f_equal. apply Huniq; [done|]. simpl in Hr. congruence.
  - apply last_None in E.
    assert (id root ∈ filter (is_root (stored nodes)) (keys_of nodes)) as H.
    { apply list_elem_of_filter. split.
      - unfold is_root. rewrite stored_id by done. simpl. by rewrite Hp.
      - rewrite keys_of_ids. by apply list_elem_of_fmap_2. }
    rewrite E in H. by apply elem_of_nil in H.
Qed.
End NoDup.

End Rooted.

(* ===================================================================== *)
(** * Properties of the tree layout engine *)
(* ===================================================================== *)

Module LayoutSpec.
Import Layout SortFacts Order Facts Tree Rooted.

(** Following [parent_id] from the node with id [k] arrives at a node that has
    none. *)
Inductive reaches_root (nodes : list ProtocolNode) : string → Prop :=
  | reaches_here n :
      n ∈ nodes → parent_id n = None → reaches_root nodes (id n)
  | reaches_step n p :
      n ∈ nodes → parent_id n = Some p → reaches_root nodes p →
      reaches_root nodes (id n).

(** Every [parent_id] that is not [null] is the id of a node of the list. *)
Definition parents_resolve (nodes : list ProtocolNode) : Prop :=
  ∀ n p, n ∈ nodes → parent_id n = Some p → ∃ m, m ∈ nodes ∧ id m = p.

(** [root] is the one node of the list without parent. *)
Definition single_root (nodes : list ProtocolNode) (root : ProtocolNode) : Prop :=
  root ∈ nodes ∧ parent_id root = None
  ∧ ∀ n, n ∈ nodes → parent_id n = None → n = root.

Lemma reaches_root_up nodes root k :
  NoDup (id <$> nodes) → single_root nodes root →
  reaches_root nodes k → ∃ j, up (par nodes) j k = Some (id root).
Proof.
  intros ND (_ & _ & Huniq). induction 1 as [m Hm Hpm|m p Hm Hpm _ [j Hj]].
  - exists 0%nat. by rewrite (Huniq m Hm Hpm).
  - exists (S j). simpl. by rewrite (par_id nodes ND m Hm), Hpm.
Qed.

(** The data model's rule for a stream of nodes, that a parent is in the list
    before its child, makes every node reach a node without parent. *)
Lemma earlier_parents_reach_root nodes :
  (∀ i n p, nodes !! i = Some n → parent_id n = Some p →
     ∃ j m, (j < i)%nat ∧ nodes !! j = Some m ∧ id m = p) →
  ∀ n, n ∈ nodes → reaches_root nodes (id n).
Proof.
  intros Hearlier n (i & Hi)%list_elem_of_lookup. revert n Hi.
  induction (lt_wf i) as [i _ IH]. intros n Hi.
  destruct (parent_id n) as [p|] eqn:Hp.
  - destruct (Hearlier i n p Hi Hp) as (j & m & Hlt & Hj & <-).
    eapply reaches_step; [by eapply list_elem_of_lookup_2|done|by eapply IH].
  - apply reaches_here; [by eapply list_elem_of_lookup_2|done].
Qed.

(** On a list without repeated ids, with one parentless node that every node
    reaches, the edges point at every other node exactly once. *)
Lemma edge_targets nodes bp root :
  NoDup (id <$> nodes) → single_root nodes root →
  (∀ n, n ∈ nodes → reaches_root nodes (id n)) →
  to <$> edges (layout nodes bp) bp ≡ₚ filter (λ k, k ≠ id root) (id <$> nodes).
Proof.
  intros ND Hsingle Hreach. pose proof Hsingle as (Hroot & Hp & Huniq).
  rewrite (edges_rooted nodes bp (id root))
    by (by apply root_of_unique).
  rewrite <-(keys_of_ids nodes ND).
  apply (targets_Permutation (keys_of nodes) (par nodes));
    eauto using keys_of_NoDup, final_heap_dom, final_heap_children, par_keys.
  - by rewrite par_id.
  - rewrite keys_of_ids by done. by apply list_elem_of_fmap_2.
  - intros k (n & Hn & <-)%key_node; [|done].
    eapply reaches_root_up; eauto.
Qed.

(** C1 (as amended).  For a list of nodes with distinct ids, exactly one node
    without parent, and every node reaching that node along [parent_id]: the
    layout emits [length nodes - 1] edges, and the parentless node is the only
    node no edge points at. *)
Theorem edge_count_of_rooted_tree nodes bestPath root :
  NoDup (id <$> nodes) → single_root nodes root →
  (∀ n, n ∈ nodes → reaches_root nodes (id n)) →
  let T := OptimizationTree nodes bestPath in
  length (edgesOf T) = (length nodes - 1)%nat
  ∧ ∀ n, n ∈ nodes → (∀ e, e ∈ edgesOf T → to e ≠ id n) ↔ n = root.
Proof.
  intros ND Hsingle Hreach T.
  pose proof (edge_targets nodes (list_to_set bestPath) root ND Hsingle Hreach)
    as HP.
  destruct Hsingle as (Hroot & Hp & Huniq).
  change (edgesOf T)
    with (edges (layout nodes (list_to_set bestPath)) (list_to_set bestPath)).
  split.
  - rewrite <-(length_fmap to), HP, length_filter_ne, length_fmap;
      [done|done|by apply list_elem_of_fmap_2].
  - intros n Hn. split.
    + intros Hno. destruct (decide (id n = id root)) as [E|Hne].
      { by apply (id_inj nodes ND). }
      exfalso.
      assert (id n ∈ to <$> edges (layout nodes (list_to_set bestPath))
                               (list_to_set bestPath)) as Hin.
      { rewrite HP. apply list_elem_of_filter.
        split; [done|by apply list_elem_of_fmap_2]. }
      apply list_elem_of_fmap in Hin as (e & E & He). by apply (Hno e).
    + intros -> e He Hto.
      apply (list_elem_of_fmap_2 to) in He. rewrite HP, Hto in He.
      by apply list_elem_of_filter in He as [? _].
Qed.

(** C3.  An emitted edge carries the best-path flag exactly when the ids of
    both its ends occur in [bestPath]; where they occur plays no part. *)
Theorem best_path_flag_iff_membership nodes bestPath e :
  e ∈ edgesOf (OptimizationTree nodes bestPath) →
  isBestPath e = true ↔ from e ∈ bestPath ∧ to e ∈ bestPath.
Proof.
  unfold OptimizationTree, edges; simpl.
  destruct (treeRoot _) as [r|]; [|by intros ?%elem_of_nil].
  intros ->%traverse_edges_flag.
  rewrite andb_true_iff, !bool_decide_eq_true, !elem_of_list_to_set. done.
Qed.

Lemma edge_count_of_rooted_tree_witness :
  let T := OptimizationTree Samples.chain3 ["n0"; "n1"] in
  length (edgesOf T) = (length Samples.chain3 - 1)%nat
  ∧ ∀ n, n ∈ Samples.chain3 →
      (∀ e, e ∈ edgesOf T → to e ≠ id n) ↔ n = Samples.nodeA.
Proof.
  apply (edge_count_of_rooted_tree Samples.chain3 ["n0"; "n1"] Samples.nodeA).
  - apply (bool_decide_unpack _). vm_compute. exact I.
  - split_and!; [left|reflexivity|].
    intros n Hn Hp. unfold Samples.chain3 in Hn.
    repeat (apply elem_of_cons in Hn as [->|Hn]; [try done|]).
    by apply elem_of_nil in Hn.
  - assert (reaches_root Samples.chain3 "n0") as H0
      by (apply (reaches_here _ Samples.nodeA); [left|reflexivity]).
    assert (reaches_root Samples.chain3 "n1") as H1
      by (apply (reaches_step _ Samples.nodeB "n0");
          [right; left|reflexivity|exact H0]).
    assert (reaches_root Samples.chain3 "n2") as H2
      by (apply (reaches_step _ Samples.nodeC "n1");
          [right; right; left|reflexivity|exact H1]).
    intros n Hn. unfold Samples.chain3 in Hn.
    repeat (apply elem_of_cons in Hn as [->|Hn]; [assumption|]).
    by apply elem_of_nil in Hn.
Defined.

(** C1 as the specification states it asks only that every [parent_id]
    resolves.  Two nodes that name each other as parent satisfy that, are not
    below the root, and get no edge: three nodes, no edge, and no node with an
    incoming edge. *)
Lemma edge_count_counterexample :
  NoDup (id <$> Samples.looped)
  ∧ single_root Samples.looped Samples.nodeA
  ∧ parents_resolve Samples.looped
  ∧ length Samples.looped = 3%nat
  ∧ edgesOf (OptimizationTree Samples.looped ["n0"]) = [].
Proof.
  split_and!.
  - apply (bool_decide_unpack _). vm_compute. exact I.
  - split_and!; [left|reflexivity|].
    intros n Hn Hp. unfold Samples.looped in Hn.
    repeat (apply elem_of_cons in Hn as [->|Hn]; [try done|]).
    by apply elem_of_nil in Hn.
  - intros n p Hn Hp. unfold Samples.looped in Hn.
    repeat (apply elem_of_cons in Hn as [->|Hn]; [|]);
      [done| | |by apply elem_of_nil in Hn]; injection Hp as <-.
    + exists Samples.loopC. split; [right; right; left|done].
    + exists Samples.loopB. split; [right; left|done].
  - reflexivity.
  - by vm_compute.
Qed.

Lemma best_path_flag_iff_membership_witness :
  isBestPath (mkEdge "n0" "n1" true) = true
  ↔ "n0" ∈ ["n0"; "n1"] ∧ "n1" ∈ ["n0"; "n1"].
Proof.
  apply (best_path_flag_iff_membership Samples.chain3 ["n0"; "n1"]
           (mkEdge "n0" "n1" true)).
  vm_compute. left.
Defined.

(** ** Rows *)

Lemma foldl_max_le_init (l : list Z) : ∀ mw, mw ≤ foldl Z.max mw l.
Proof.
  induction l as [|a l IH]; intros mw; simpl; [lia|].
  specialize (IH (Z.max mw a)). lia.
Qed.

Lemma foldl_max_ge (l : list Z) : ∀ mw a, a ∈ l → a ≤ foldl Z.max mw l.
Proof.
  induction l as [|b l IH]; intros mw a Ha; [by apply elem_of_nil in Ha|].
  simpl. apply elem_of_cons in Ha as [->|Ha]; [|by apply IH].
  pose proof (foldl_max_le_init l (Z.max mw b)). lia.
Qed.

Lemma foldl_max_in (l : list Z) : ∀ mw,
  foldl Z.max mw l = mw ∨ foldl Z.max mw l ∈ l.
Proof.
  induction l as [|b l IH]; intros mw; simpl; [by left|].
  destruct (IH (Z.max mw b)) as [E|Hin]; [|right; by right].
  rewrite E. destruct (Z.max_spec mw b) as [[_ ->]|[_ ->]]; [right; left|by left].
Qed.


Lemma widest_ge g r ns : (r, ns) ∈ g → rowWidth ns ≤ widest 0 g.
Proof.
  intros Hin. apply foldl_max_ge, list_elem_of_fmap_2.
  by apply (list_elem_of_fmap_2 snd) in Hin.
Qed.




Lemma has_root nodes :
  NoDup (id <$> nodes) → (∃ n, n ∈ nodes ∧ parent_id n = None) →
  ∃ r, root_of nodes = Some r.
Proof.
  intros ND (n & Hn & Hp). destruct (root_of nodes) as [r|] eqn:E; [eauto|].
  destruct (root_of_None nodes (id n) E).
  - rewrite keys_of_ids by done. by apply list_elem_of_fmap_2.
  - by rewrite par_id.
Qed.





(** The rows and the positions of [Samples.mixed]: the best-path member [m3]
    leads round 1, the 5-token node follows, the nodes that tie at 10 tokens
    keep their order, and the rows of one and of two nodes are centred under
    the row of five. *)
Example mixed_rows_and_positions :
  let L := layoutOf (OptimizationTree Samples.mixed Samples.bestOfMixed) in
  (λ row : Z * list ProtocolNode, (row.1, id <$> row.2)) <$> rows L
    = [(0, ["n0"]); (1, ["m3"; "m5"; "m2"; "m4"; "m1"]); (2, ["m6"; "m7"])]
  ∧ maxWidth L = 780
  ∧ (λ k : string, (λ t, (x t, y t)) <$> heap L !! k)
      <$> ["n0"; "m3"; "m5"; "m2"; "m4"; "m1"; "m6"; "m7"]
    = [Some (390, 80); Some (70, 240); Some (230, 240); Some (390, 240);
       Some (550, 240); Some (710, 240); Some (310, 400); Some (470, 400)].
Proof. vm_compute. done. Qed.


(** ** The canvas *)

(** With a root the memo returns [max(maxWidth + 80, 800)] and
    [(maxRound + 1) * LEVEL_HEIGHT + 100] as doubles give it, where
    [maxRound] is the largest [round_index] in the map; the [-Infinity] of
    [Math.max()] does not occur. *)
Lemma canvas_size nodes bp r :
  root_of nodes = Some r →
  let L := layout nodes bp in
  width L = Z.max (maxWidth L + 80) 800
  ∧ ∃ maxRound,
      height L = canvas_height maxRound
      ∧ (∀ n, n ∈ entries nodes → round_index n ≤ maxRound)
      ∧ ∃ n, n ∈ entries nodes ∧ round_index n = maxRound.
Proof.
  intros Hr L. unfold L. rewrite layout_unfold, Hr.
  destruct nodes as [|n0 ns] eqn:En; [done|]. rewrite <-En in *. simpl.
  split; [done|]. unfold final_height.
  pose proof (groups_ok_nodes nodes) as [_ Grows Gne Gall].
  destruct ((groups nodes).*1) as [|k ks] eqn:Ek.
  { destruct (root_of_Some _ _ Hr) as [[n Hn]%stored_keys _].
    destruct (stored_Some _ _ _ Hn) as [<- _]. apply entries_elem in Hn.
    apply Gall in Hn. try rewrite Ek in Hn. by apply elem_of_nil in Hn. }
  simpl. eexists. split; [done|]. split.
  - intros n Hn%Gall. try rewrite Ek in Hn.
    apply elem_of_cons in Hn as [->|Hn];
      [apply foldl_max_le_init|by apply foldl_max_ge].
  - assert (foldl Z.max k ks ∈ (groups nodes).*1) as Hin.
    { rewrite Ek. destruct (foldl_max_in ks k) as [->|?]; [left|by right]. }
    apply list_elem_of_fmap in Hin as ([r' row] & E & Hin). simpl in E.
    destruct row as [|n rest] eqn:Erow; [by destruct (Gne _ _ Hin)|].
    assert (n ∈ n :: rest) as Hn by left.
    rewrite (Grows _ _ Hin) in Hn. apply list_elem_of_filter in Hn as [? ?].
    exists n. split; [done|congruence].
Qed.

(** Of two nodes of a round that are not on the best path, the one with
    fewer tokens is placed to the left. *)
Example fewer_tokens_left :
  let n50 := mkProtocolNode "p" (Some "n0") 1 50 "rule p" in
  let n30 := mkProtocolNode "q" (Some "n0") 1 30 "rule q" in
  let L := layoutOf (OptimizationTree [Samples.nodeA; n50; n30] ["n0"]) in
  x <$> heap L !! "q" = Some 70 ∧ x <$> heap L !! "p" = Some 230.
Proof. by vm_compute. Qed.

(** ** Orphans *)

(** A node whose parent is not in the list is not met by the traversals. *)
Lemma orphan_not_traversed nodes bp o p f r e :
  NoDup (id <$> nodes) → o ∈ nodes → parent_id o = Some p → p ∉ id <$> nodes →
  root_of nodes = Some r →
  e ∈ traverse_edges f (final_heap nodes bp) bp r →
  from e ≠ id o ∧ to e ≠ id o.
Proof.
  intros ND Ho Hp Hghost Hr He.
  assert (p ∉ keys_of nodes) as Hp' by (by rewrite keys_of_ids).
  destruct (root_of_Some _ _ Hr) as [Hrk Hrp].
  eapply (traverse_edges_elem (keys_of nodes) (par nodes)) in He
    as (Hfrom & Hto & _ & j & _ & Hj);
    eauto using final_heap_dom, final_heap_children, par_keys.
  split.
  - intros E. rewrite E in Hj. destruct j as [|j]; simpl in Hj.
    + injection Hj as <-. rewrite par_id in Hrp by done. congruence.
    + rewrite par_id, Hp in Hj by done. simpl in Hj. destruct j as [|j].
      * injection Hj as <-. done.
      * simpl in Hj. destruct (par nodes p) eqn:Epp; [|done].
        by apply par_keys in Epp.
  - intros E. rewrite E in Hto. rewrite (par_id nodes ND o Ho), Hp in Hto.
    injection Hto as Hto. by rewrite Hto in Hp'.
Qed.

(** C10.  A node whose [parent_id] names no node of the list is in neither
    [allNodes] nor [edges], yet it has its slot in the row of its round; and
    there is a list where appending such a node moves a rendered node of its
    round and widens [maxWidth] and the canvas. *)
Theorem orphan_hidden_but_placed :
  (∀ nodes bestPath o p,
     NoDup (id <$> nodes) → o ∈ nodes →
     parent_id o = Some p → p ∉ id <$> nodes →
     let T := OptimizationTree nodes bestPath in
     (id o ∉ allNodesOf T)
     ∧ (∀ e, e ∈ edgesOf T → from e ≠ id o ∧ to e ≠ id o)
     ∧ ((∃ n, n ∈ nodes ∧ parent_id n = None) →
        ∃ row k t,
          (round_index o, row) ∈ rows (layoutOf T) ∧ row !! k = Some o
          ∧ heap (layoutOf T) !! id o = Some t
          ∧ x t = Z.of_nat k * (NODE_WIDTH + NODE_SPACING) + NODE_WIDTH / 2
                  + (maxWidth (layoutOf T) - rowWidth row) / 2))
  ∧ (∃ nodes bestPath o p c,
       parent_id o = Some p ∧ (p ∉ id <$> (nodes ++ [o]))
       ∧ NoDup (id <$> (nodes ++ [o]))
       ∧ c ∈ nodes ∧ round_index c = round_index o
       ∧ let T := OptimizationTree nodes bestPath in
         let T' := OptimizationTree (nodes ++ [o]) bestPath in
         id c ∈ allNodesOf T ∧ id c ∈ allNodesOf T'
         ∧ x <$> heap (layoutOf T) !! id c ≠ x <$> heap (layoutOf T') !! id c
         ∧ maxWidth (layoutOf T) < maxWidth (layoutOf T')
         ∧ width (layoutOf T) < width (layoutOf T')).
Proof.
  split.
  - intros nodes bestPath o p ND Ho Hp Hghost T.
    set (bp := list_to_set bestPath : gset string).
    destruct (root_of nodes) as [r|] eqn:Hr.
    + pose proof (root_of_Some _ _ Hr) as [Hrk Hrp].
      assert (id o ≠ r) as Hne.
      { intros <-. rewrite par_id in Hrp by done. congruence. }
      split_and!.
      * unfold T, OptimizationTree. simpl.
        rewrite (allNodes_rooted _ _ _ Hr).
        destruct (length (keys_of nodes)) as [|f] eqn:El.
        { destruct (keys_of nodes); [by apply elem_of_nil in Hrk|done]. }
        rewrite (traverse_nodes_edges _ bp).
        intros [?|(e & E & He)%list_elem_of_fmap]%elem_of_cons; [done|].
        by destruct (orphan_not_traversed _ _ _ _ _ _ _ ND Ho Hp Hghost Hr He).
      * intros e He. unfold T, OptimizationTree in He. simpl in He.
        rewrite (edges_rooted _ _ _ Hr) in He.
        by eapply orphan_not_traversed.
      * intros _. unfold T, OptimizationTree. simpl.
        rewrite layout_unfold, Hr. destruct nodes as [|n0 ns] eqn:En;
          [by apply elem_of_nil in Ho|]. rewrite <-En in *. simpl.
        destruct (entry_slot nodes bp o) as (row & k & Hrow & Hk).
        { by rewrite entries_NoDup_ids. }
        exists row, k. eexists. split_and!; [done|done| |].
        -- by eapply final_heap_slot.
        -- done.
    + unfold T, OptimizationTree. simpl. split_and!.
      * unfold allNodes.
        rewrite (proj1 (layout_unrooted nodes _ Hr)). apply not_elem_of_nil.
      * intros e He. unfold edges in He.
        rewrite (proj1 (layout_unrooted nodes _ Hr)) in He.
        by apply elem_of_nil in He.
      * intros Hroot. destruct (has_root nodes ND Hroot) as [r Hr']. congruence.
  - exists Samples.fan4, ["n0"], Samples.orphan, "ghost", Samples.cand1.
    split; [reflexivity|].
    split; [apply (bool_decide_unpack _); vm_compute; exact I|].
    split; [apply (bool_decide_unpack _); vm_compute; exact I|].
    split; [right; left|].
    split; [reflexivity|].
    split; [apply (bool_decide_unpack _); vm_compute; exact I|].
    split; [apply (bool_decide_unpack _); vm_compute; exact I|].
    split; [vm_compute; congruence|].
    split; by vm_compute.
Qed.

Lemma orphan_hidden_but_placed_witness :
  let T := OptimizationTree (Samples.fan4 ++ [Samples.orphan]) ["n0"] in
  (id Samples.orphan ∉ allNodesOf T)
  ∧ (∀ e, e ∈ edgesOf T →
       from e ≠ id Samples.orphan ∧ to e ≠ id Samples.orphan)
  ∧ ((∃ n, n ∈ Samples.fan4 ++ [Samples.orphan] ∧ parent_id n = None) →
     ∃ row k t,
       (round_index Samples.orphan, row) ∈ rows (layoutOf T)
       ∧ row !! k = Some Samples.orphan
       ∧ heap (layoutOf T) !! id Samples.orphan = Some t
       ∧ x t = Z.of_nat k * (NODE_WIDTH + NODE_SPACING) + NODE_WIDTH / 2
               + (maxWidth (layoutOf T) - rowWidth row) / 2).
Proof.
  apply (proj1 orphan_hidden_but_placed
           (Samples.fan4 ++ [Samples.orphan]) ["n0"] Samples.orphan "ghost").
  - apply (bool_decide_unpack _). vm_compute. exact I.
  - apply elem_of_app. right. left.
  - reflexivity.
  - apply (bool_decide_unpack _). vm_compute. exact I.
Defined.

End LayoutSpec.

(* ===================================================================== *)
(** * The memos over a memory do what the memos over ids do *)
(* ===================================================================== *)

Module Refine.
Import Layout.

(** ** Memory a render leaves *)

(** [H] is [h0] followed by new objects: every object of [h0] is in [H] at
    its address, as it was. *)
Definition extends (h0 H : Mem.Memory) : Prop := ∃ news, H = h0 ++ news.

Lemma extends_refl h : extends h h.
Proof. exists []. by rewrite app_nil_r. Qed.

Lemma extends_trans h0 h1 h2 : extends h0 h1 → extends h1 h2 → extends h0 h2.
Proof. intros [n1 ->] [n2 ->]. exists (n1 ++ n2). by rewrite app_assoc. Qed.

Lemma extends_length h0 H : extends h0 H → (length h0 ≤ length H)%nat.
Proof. intros [news ->]. rewrite length_app. lia. Qed.

Lemma extends_alloc h0 H news : extends h0 H → extends h0 (H ++ news).
Proof. intros [news0 ->]. exists (news0 ++ news). by rewrite app_assoc. Qed.

Lemma extends_lookup h0 H l o : extends h0 H → h0 !! l = Some o → H !! l = Some o.
Proof. intros [news ->]. apply lookup_app_l_Some. Qed.

(** A write past the old memory keeps the old memory.  A write into it would
    not: [write] replaces the object at whatever address it is given. *)
Lemma extends_write h0 H H' f l :
  extends h0 H → (length h0 ≤ l)%nat → Mem.write f l H = Some H' →
  extends h0 H'.
Proof.
  intros [news ->] Hl. unfold Mem.write. intros Hw.
  destruct ((h0 ++ news) !! l) as [o|]; [|done]. simpl in Hw.
  destruct (f o) as [o'|]; [|done]. injection Hw as <-.
  exists (<[(l - length h0)%nat := o']> news). by rewrite insert_app_r_alt.
Qed.

Lemma extends_read_node h0 H l n :
  extends h0 H → Mem.read_node h0 l = Some n → Mem.read_node H l = Some n.
Proof.
  intros E. unfold Mem.read_node. destruct (h0 !! l) as [o|] eqn:Ho; [|done].
  by rewrite (extends_lookup _ _ _ _ E Ho).
Qed.

Lemma extends_read_elems h0 H l vs :
  extends h0 H → Mem.read_elems h0 l = Some vs → Mem.read_elems H l = Some vs.
Proof.
  intros E. unfold Mem.read_elems. destruct (h0 !! l) as [o|] eqn:Ho; [|done].
  by rewrite (extends_lookup _ _ _ _ E Ho).
Qed.

Lemma extends_read_set h0 H l s :
  extends h0 H → Mem.read_set h0 l = Some s → Mem.read_set H l = Some s.
Proof.
  intros E. unfold Mem.read_set. destruct (h0 !! l) as [o|] eqn:Ho; [|done].
  by rewrite (extends_lookup _ _ _ _ E Ho).
Qed.

(** ** Writes *)

Lemma write_Some f l H o o' :
  H !! l = Some o → f o = Some o' → Mem.write f l H = Some (<[l := o']> H).
Proof. intros Hl Hf. unfold Mem.write. rewrite Hl. simpl. by rewrite Hf. Qed.

Lemma write_frame f l H H' a :
  Mem.write f l H = Some H' → a ≠ l → H' !! a = H !! a.
Proof.
  unfold Mem.write. intros Hw Hne.
  destruct (H !! l) as [o|]; [|done]. simpl in Hw.
  destruct (f o) as [o'|]; [|done]. injection Hw as <-.
  by rewrite list_lookup_insert_ne.
Qed.

Lemma write_length f l H H' :
  Mem.write f l H = Some H' → length H' = length H.
Proof.
  unfold Mem.write. intros Hw.
  destruct (H !! l) as [o|]; [|done]. simpl in Hw.
  destruct (f o) as [o'|]; [|done]. injection Hw as <-.
  apply length_insert.
Qed.

(** ** Loops *)

Lemma foldlM_sim {A B SA SB} (Rel : A → B → Prop) (R : SA → SB → Prop)
    (fM : SA → A → option SA) (f : SB → B → SB) la lb :
  Forall2 Rel la lb →
  (∀ a b s t, Rel a b → R s t → ∃ s', fM s a = Some s' ∧ R s' (f t b)) →
  ∀ s t, R s t → ∃ s', Mem.foldlM fM s la = Some s' ∧ R s' (foldl f t lb).
Proof.
  intros Hl Hstep. induction Hl as [|a b la lb Hab _ IH]; intros s t Hst; simpl.
  - eauto.
  - destruct (Hstep _ _ _ _ Hab Hst) as (s' & -> & Hs'). simpl. by apply IH.
Qed.

(** ** The simulation *)

(** The object of a [TreeNode] [t] whose [children] array is at [a], and an
    array of references. *)
Definition tree_obj (t : TreeNode) (a : Mem.loc) : Mem.Obj :=
  Mem.mkObj Mem.KObject (Some (node t)) (Some (x t)) (Some (y t)) (Some a).

Definition array_obj (ls : list Mem.loc) : Mem.Obj :=
  Mem.mkObj (Mem.KArray (Mem.VRef <$> ls)) None None None None.

Lemma mapM_as_ref ls : mapM Mem.as_ref (Mem.VRef <$> ls) = Some ls.
Proof. apply mapM_Some, Forall2_fmap_l, Forall_Forall2_diag, Forall_forall. done. Qed.

Lemma read_nodes_array H a ls :
  H !! a = Some (array_obj ls) → Mem.read_nodes H a = Some ls.
Proof.
  intros Ha. unfold Mem.read_nodes, Mem.read_elems. rewrite Ha. simpl.
  apply mapM_as_ref.
Qed.

Lemma push_array ls l :
  Mem.push (Mem.VRef l) (array_obj ls) = Some (array_obj (ls ++ [l])).
Proof. unfold Mem.push, Mem.set_elems, array_obj. simpl. by rewrite fmap_app. Qed.

(** References and the keys they stand for. *)
Definition kids (m : gmap string Mem.loc) (cs : list Mem.loc) (ks : list string)
  : Prop :=
  Forall2 (λ c kc, m !! kc = Some c) cs ks.

(** At the address the map gives for a key is the object that the
    id-addressed heap has under that key, and next to it the array of its
    children. *)
Record sim (m : gmap string Mem.loc) (H : Mem.Memory) (h : Heap) : Prop := {
  sim_inj : ∀ k1 k2 l, m !! k1 = Some l → m !! k2 = Some l → k1 = k2;
  sim_none : ∀ k, m !! k = None → h !! k = None;
  sim_some : ∀ k l, m !! k = Some l →
    ∃ t cs, H !! l = Some (tree_obj t (S l))
            ∧ H !! S l = Some (array_obj cs)
            ∧ h !! k = Some t
            ∧ kids m cs (children t) ∧ id (node t) = k
}.

Lemma sim_read_node m H h k l :
  sim m H h → m !! k = Some l →
  ∃ t, Mem.read_node H l = Some (node t) ∧ h !! k = Some t ∧ id (node t) = k.
Proof.
  intros Hsim Hk.
  destruct (sim_some _ _ _ Hsim _ _ Hk) as (t & cs & Hl & _ & Ht & _ & Hid).
  exists t. unfold Mem.read_node. by rewrite Hl.
Qed.

(** A [TreeNode] is no array: the address of one is not the address of the
    [children] of another. *)
Lemma sim_node_not_array m H h k l k' l' :
  sim m H h → m !! k = Some l → m !! k' = Some l' → l ≠ S l'.
Proof.
  intros Hsim Hk Hk' ->.
  destruct (sim_some _ _ _ Hsim _ _ Hk) as (t & cs & Hl & _).
  destruct (sim_some _ _ _ Hsim _ _ Hk') as (t' & cs' & _ & Ha & _).
  rewrite Hl in Ha. discriminate Ha.
Qed.

(** A write to the properties of the [TreeNode] of [k], paired with the same
    write to the object under [k]. *)
Lemma sim_write_node m H h k l f ft :
  sim m H h → m !! k = Some l →
  (∀ t a, f (tree_obj t a) = Some (tree_obj (ft t) a)) →
  (∀ t, node (ft t) = node t) → (∀ t, children (ft t) = children t) →
  ∃ H', Mem.write f l H = Some H' ∧ sim m H' (alter ft k h).
Proof.
  intros Hsim Hk Hf Hnode Hch. pose proof Hsim as [Hinj Hnone Hsome].
  destruct (Hsome _ _ Hk) as (t & cs & Hl & Ha & Ht & Hcs & Hid).
  exists (<[l := tree_obj (ft t) (S l)]> H). split.
  { by apply write_Some with (tree_obj t (S l)). }
  split; [done|..].
  - intros k' Hk'. rewrite lookup_alter_ne by congruence. by apply Hnone.
  - intros k' l' Hk'.
    destruct (decide (k = k')) as [<-|Hne].
    + assert (l' = l) as -> by congruence.
      exists (ft t), cs. rewrite lookup_alter_eq, Ht.
      rewrite list_lookup_insert_eq by (by eapply lookup_lt_Some).
      rewrite list_lookup_insert_ne by lia.
      rewrite Hnode, Hch. done.
    + destruct (Hsome _ _ Hk') as (t' & cs0 & Hl' & Ha' & Ht' & Hcs0 & Hid').
      exists t', cs0. rewrite lookup_alter_ne by done.
      rewrite !list_lookup_insert_ne; [done| |naive_solver].
      by eapply sim_node_not_array.
Qed.

(** [parent.children.push(child)] *)
Lemma sim_push_child m H h kp lp kc lc :
  sim m H h → m !! kp = Some lp → m !! kc = Some lc →
  ∃ H', Mem.read_children H lp = Some (S lp)
    ∧ Mem.write (Mem.push (Mem.VRef lc)) (S lp) H = Some H'
    ∧ sim m H' (alter (push_child kc) kp h).
Proof.
  intros Hsim Hp Hc. pose proof Hsim as [Hinj Hnone Hsome].
  destruct (Hsome _ _ Hp) as (t & cs & Hl & Ha & Ht & Hcs & Hid).
  exists (<[S lp := array_obj (cs ++ [lc])]> H). split_and!.
  { unfold Mem.read_children. by rewrite Hl. }
  { apply write_Some with (array_obj cs); [done|apply push_array]. }
  split; [done|..].
  - intros k' Hk'. rewrite lookup_alter_ne by congruence. by apply Hnone.
  - intros k' l' Hk'.
    assert (l' ≠ S lp) as Hna by (by eapply sim_node_not_array).
    destruct (decide (kp = k')) as [<-|Hne].
    + assert (l' = lp) as -> by congruence.
      exists (push_child kc t), (cs ++ [lc]). rewrite lookup_alter_eq, Ht.
      rewrite list_lookup_insert_ne by lia.
      rewrite list_lookup_insert_eq by (by eapply lookup_lt_Some).
      split_and!; [done..| |done]. simpl.
      apply Forall2_app; [done|]. by constructor.
    + destruct (Hsome _ _ Hk') as (t' & cs0 & Hl' & Ha' & Ht' & Hcs0 & Hid').
      exists t', cs0. rewrite lookup_alter_ne by done.
      rewrite !list_lookup_insert_ne; [done| |lia].
      intros [= ->]. naive_solver.
Qed.

(** What is written or made past the [TreeNode]s and their arrays does not
    touch the simulation. *)
Lemma sim_frame m H H' h N :
  sim m H h → (∀ k l, m !! k = Some l → (S l < N)%nat) →
  (∀ a, (a < N)%nat → H' !! a = H !! a) → sim m H' h.
Proof.
  intros [Hinj Hnone Hsome] HN Hframe. split; [done..|].
  intros k l Hk. destruct (Hsome _ _ Hk) as (t & cs & Hl & Ha & Ht & Hcs & Hid).
  pose proof (HN _ _ Hk). exists t, cs.
  rewrite !Hframe by lia. done.
Qed.

(** ** Building the map *)

Record built (h0 : Mem.Memory) (m : gmap string Mem.loc) (H : Mem.Memory)
    (h : Heap) : Prop := {
  built_sim : sim m H h;
  built_ext : extends h0 H;
  built_fresh : ∀ k l, m !! k = Some l → (length h0 ≤ l ∧ S l < length H)%nat;
  built_leaf : ∀ k t, h !! k = Some t → children t = []
}.

Lemma nodeMap_set_sim h0 keys m H h l n :
  built h0 m H h → Mem.read_node h0 l = Some n →
  ∃ st', Mem.nodeMap_set (keys, m, H) l = Some st'
         ∧ st'.1.1 = (nodeMap_set (keys, h) n).1
         ∧ built h0 st'.1.2 st'.2 (nodeMap_set (keys, h) n).2.
Proof.
  intros [Hsim Hext Hfresh Hleaf] Hn.
  unfold Mem.nodeMap_set, nodeMap_set. simpl.
  rewrite (extends_read_node _ _ _ _ Hext Hn). simpl.
  eexists. split; [done|]. simpl. split; [done|].
  destruct Hsim as [Hinj Hnone Hsome]. split.
  - split.
    + intros k1 k2 l'. rewrite !lookup_insert.
      destruct (decide (id n = k1)), (decide (id n = k2)); try congruence.
      * intros [= <-] H2. apply Hfresh in H2. lia.
      * intros H1 [= <-]. apply Hfresh in H1. lia.
      * apply Hinj.
    + intros k. rewrite !lookup_insert.
      destruct (decide (id n = k)); [done|]. apply Hnone.
    + intros k l'. rewrite !lookup_insert.
      destruct (decide (id n = k)) as [<-|Hne].
      * intros [= <-]. exists (mkTreeNode n 0 0 []), [].
        rewrite list_lookup_middle by done.
        rewrite (lookup_app_r H) by lia.
        replace (S (length H) - length H)%nat with 1%nat by lia.
        split_and!; [done|done|done|constructor|done].
      * intros Hk. pose proof (Hfresh _ _ Hk).
        destruct (Hsome _ _ Hk) as (t & cs & Hl & Ha & Ht & Hc & Hid).
        exists t, cs. rewrite !lookup_app_l by lia.
        split_and!; [done..| |done].
        rewrite (Hleaf _ _ Ht) in *.
        apply Forall2_nil_inv_r in Hc as ->. constructor.
  - by apply extends_alloc.
  - intros k l'. rewrite lookup_insert, length_app. simpl.
    destruct (decide (id n = k)).
    + intros [= <-]. pose proof (extends_length _ _ Hext). lia.
    + intros ?%Hfresh. lia.
  - intros k t. rewrite lookup_insert.
    destruct (decide (id n = k)); [by intros [= <-]|]. apply Hleaf.
Qed.

Lemma build_nodeMap_sim h0 ls ns :
  Forall2 (λ l n, Mem.read_node h0 l = Some n) ls ns →
  ∃ keys m H, Mem.build_nodeMap h0 ls = Some (keys, m, H)
    ∧ keys = (build_nodeMap ns).1
    ∧ built h0 m H (build_nodeMap ns).2.
Proof.
  intros Hls.
  set (R := λ (s : list string * gmap string Mem.loc * Mem.Memory)
              (t : list string * Heap),
              s.1.1 = t.1 ∧ built h0 s.1.2 s.2 t.2).
  assert (R ([], ∅, h0) ([], ∅)) as H0.
  { split; [done|]. simpl. split.
    - split; [by intros ??? ?%lookup_empty_Some|done|
              by intros ?? ?%lookup_empty_Some].
    - apply extends_refl.
    - by intros ?? ?%lookup_empty_Some.
    - by intros ?? ?%lookup_empty_Some. }
  assert (∀ l n s t, Mem.read_node h0 l = Some n → R s t →
            ∃ s', Mem.nodeMap_set s l = Some s' ∧ R s' (nodeMap_set t n)) as Hstep.
  { intros l n [[keys m] H] [keys' h] Hn [Ek Hb]. simpl in Ek, Hb. subst keys'.
    destruct (nodeMap_set_sim _ keys _ _ _ _ _ Hb Hn) as (st' & -> & ? & ?).
    eexists. split; [done|]. by split. }
  destruct (foldlM_sim _ R Mem.nodeMap_set nodeMap_set ls ns Hls Hstep _ _ H0)
    as ([[keys m] H] & E & Hk & Hb).
  by exists keys, m, H.
Qed.

(** ** The invariant of the passes after the build *)

(** Besides the simulation: the node part under each key is the one the
    build stored ([nd]), memory only grew, and the [TreeNode]s and their
    arrays are new and below [N]. *)
Record inv (h0 : Mem.Memory) (nd : string → option ProtocolNode)
    (m : gmap string Mem.loc) (N : nat) (H : Mem.Memory) (h : Heap) : Prop := {
  inv_sim : sim m H h;
  inv_nd : ∀ k, Facts.node_of h k = nd k;
  inv_ext : extends h0 H;
  inv_fresh : ∀ k l, m !! k = Some l → (length h0 ≤ l ∧ S l < N)%nat;
  inv_len : (N ≤ length H)%nat
}.

Lemma node_of_alter h k ft :
  (∀ t, node (ft t) = node t) →
  ∀ k', Facts.node_of (alter ft k h) k' = Facts.node_of h k'.
Proof.
  intros Hnode k'. unfold Facts.node_of.
  destruct (decide (k = k')) as [->|Hne].
  - rewrite lookup_alter_eq. destruct (h !! k'); simpl; [|done].
    by rewrite Hnode.
  - by rewrite lookup_alter_ne.
Qed.

Lemma inv_write_node h0 nd m N H h k l f ft :
  inv h0 nd m N H h → m !! k = Some l →
  (∀ t a, f (tree_obj t a) = Some (tree_obj (ft t) a)) →
  (∀ t, node (ft t) = node t) → (∀ t, children (ft t) = children t) →
  ∃ H', Mem.write f l H = Some H' ∧ inv h0 nd m N H' (alter ft k h).
Proof.
  intros [Hsim Hnd Hext Hfresh Hlen] Hk Hf Hnode Hch.
  destruct (sim_write_node _ _ _ _ _ _ _ Hsim Hk Hf Hnode Hch) as (H' & Hw & Hsim').
  exists H'. split; [done|]. split; [done| |..|done|].
  - intros k'. by rewrite node_of_alter.
  - apply (extends_write _ H _ f l); [done| |done].
    by destruct (Hfresh _ _ Hk).
  - by rewrite (write_length _ _ _ _ Hw).
Qed.

Lemma inv_push_child h0 nd m N H h kp lp kc lc :
  inv h0 nd m N H h → m !! kp = Some lp → m !! kc = Some lc →
  ∃ H', Mem.read_children H lp = Some (S lp)
    ∧ Mem.write (Mem.push (Mem.VRef lc)) (S lp) H = Some H'
    ∧ inv h0 nd m N H' (alter (push_child kc) kp h).
Proof.
  intros [Hsim Hnd Hext Hfresh Hlen] Hp Hc.
  destruct (sim_push_child _ _ _ _ _ _ _ Hsim Hp Hc) as (H' & Hr & Hw & Hsim').
  exists H'. split_and!; [done..|]. split; [done| |..|done|].
  - intros k'. by rewrite node_of_alter.
  - apply (extends_write _ H _ (Mem.push (Mem.VRef lc)) (S lp)); [done| |done].
    destruct (Hfresh _ _ Hp). lia.
  - by rewrite (write_length _ _ _ _ Hw).
Qed.

Lemma inv_frame h0 nd m N H H' h :
  inv h0 nd m N H h → (∀ a, (a < N)%nat → H' !! a = H !! a) →
  extends h0 H' → (N ≤ length H')%nat → inv h0 nd m N H' h.
Proof.
  intros [Hsim Hnd Hext Hfresh Hlen] Hframe Hext' Hlen'. split; try done.
  eapply sim_frame; [done| |done]. intros k l Hk. by destruct (Hfresh _ _ Hk).
Qed.

(** A reference and the node it stands for. *)
Definition rel_ref (nd : string → option ProtocolNode) (m : gmap string Mem.loc)
    (l : Mem.loc) (n : ProtocolNode) : Prop :=
  m !! id n = Some l ∧ nd (id n) = Some n.

Lemma rel_ref_read h0 nd m N H h l n :
  inv h0 nd m N H h → rel_ref nd m l n → Mem.read_node H l = Some n.
Proof.
  intros [Hsim Hnd _ _ _] [Hm Hn].
  destruct (sim_read_node _ _ _ _ _ Hsim Hm) as (t & -> & Ht & _).
  rewrite <-Hnd in Hn. unfold Facts.node_of in Hn. by rewrite Ht in Hn.
Qed.

(** ** Linking *)

Definition root_rel (m : gmap string Mem.loc)
    (rL : option Mem.loc) (r : option string) : Prop :=
  option_Forall2 (λ l k, m !! k = Some l) rL r.

Lemma link_step_sim h0 nd m N H h rL r k :
  inv h0 nd m N H h → root_rel m rL r → is_Some (m !! k) →
  ∃ st', Mem.link_step m (H, rL) k = Some st'
    ∧ inv h0 nd m N st'.1 (link_step (h, r) k).1
    ∧ root_rel m st'.2 (link_step (h, r) k).2.
Proof.
  intros Hinv Hroot [l Hk]. pose proof Hinv as [Hsim _ _ _ _].
  unfold Mem.link_step, link_step. simpl. rewrite Hk. simpl.
  destruct (sim_read_node _ _ _ _ _ Hsim Hk) as (t & -> & -> & _). simpl.
  destruct (parent_id (node t)) as [p|]; simpl.
  - destruct (m !! p) as [lp|] eqn:Hp.
    + destruct (sim_some _ _ _ Hsim _ _ Hp) as (tp & ? & _ & _ & -> & _).
      destruct (inv_push_child _ _ _ _ _ _ _ _ _ _ Hinv Hp Hk)
        as (H' & Hr & Hw & Hinv').
      rewrite Hr. simpl. rewrite Hw. simpl. eauto.
    + rewrite (sim_none _ _ _ Hsim _ Hp). eauto.
  - eexists. split; [done|]. split; [done|]. by constructor.
Qed.

Lemma link_sim h0 nd m N ks H h :
  inv h0 nd m N H h → Forall (λ k, is_Some (m !! k)) ks →
  ∃ st', Mem.link ks m H = Some st'
    ∧ inv h0 nd m N st'.1 (link ks h).1
    ∧ root_rel m st'.2 (link ks h).2.
Proof.
  intros Hinv Hks. unfold Mem.link, link.
  apply (foldlM_sim (λ k k', k = k' ∧ is_Some (m !! k))
           (λ (s : Mem.Memory * option Mem.loc) (t : Heap * option string),
              inv h0 nd m N s.1 t.1 ∧ root_rel m s.2 t.2)).
  - apply Forall_Forall2_diag. eapply Forall_impl; [exact Hks|]. done.
  - intros k ? [H1 rL] [h1 r] [<- Hk] [Hi Hr]. by apply link_step_sim.
  - split; [done|]. constructor.
Qed.

(** ** Grouping *)

(** The array at [a] holds references to the nodes [ns], in order. *)
Definition row_at (nd : string → option ProtocolNode) (m : gmap string Mem.loc)
    (H : Mem.Memory) (a : Mem.loc) (ns : list ProtocolNode) : Prop :=
  ∃ ls, H !! a = Some (array_obj ls) ∧ Forall2 (rel_ref nd m) ls ns.

Definition rows_rel (nd : string → option ProtocolNode) (m : gmap string Mem.loc)
    (H : Mem.Memory) (gL : list (Z * Mem.loc)) (g : RoundGroups) : Prop :=
  Forall2 (λ eL e, eL.1 = e.1 ∧ row_at nd m H eL.2 e.2) gL g.

Lemma rows_rel_keys nd m H gL g : rows_rel nd m H gL g → gL.*1 = g.*1.
Proof.
  induction 1 as [|[??] [??] ?? [E _] _ IH]; [done|]. csimpl.
  simpl in E. by rewrite E, IH.
Qed.

Lemma rows_rel_frame nd m H H' gL g :
  rows_rel nd m H gL g → (∀ a, a ∈ gL.*2 → H' !! a = H !! a) →
  rows_rel nd m H' gL g.
Proof.
  induction 1 as [|[r a] [r' ns] gL g [E (ls & Ha & Hls)] _ IH]; intros Hframe;
    [constructor|].
  constructor.
  - split; [done|]. exists ls. split; [|done]. simpl.
    rewrite Hframe; [done|]. csimpl. left.
  - apply IH. intros a' Ha'. apply Hframe. csimpl. by right.
Qed.

(** The arrays of the round groups are distinct and lie past the
    [TreeNode]s. *)
Record grouped (nd : string → option ProtocolNode) (m : gmap string Mem.loc)
    (N : nat) (H : Mem.Memory) (gL : list (Z * Mem.loc)) (g : RoundGroups)
  : Prop := {
  gr_rows : rows_rel nd m H gL g;
  gr_nodup : NoDup gL.*2;
  gr_bound : ∀ a, a ∈ gL.*2 → (N ≤ a < length H)%nat
}.

Lemma group_get_None r gL : Mem.group_get r gL = None → r ∉ gL.*1.
Proof.
  induction gL as [|[r' a] gL IH]; simpl; [intros _; apply not_elem_of_nil|].
  destruct (decide (r' = r)); [done|]. intros E. csimpl.
  apply not_elem_of_cons. split; [done|by apply IH].
Qed.

Lemma group_get_Some r gL a :
  Mem.group_get r gL = Some a →
  ∃ pre post, gL = pre ++ (r, a) :: post ∧ r ∉ pre.*1.
Proof.
  induction gL as [|[r' a'] gL IH]; simpl; [done|].
  destruct (decide (r' = r)) as [->|Hne].
  - intros [= ->]. exists [], gL. split; [done|apply not_elem_of_nil].
  - intros (pre & post & -> & Hpre)%IH. exists ((r', a') :: pre), post.
    split; [done|]. csimpl. apply not_elem_of_cons. by split.
Qed.

Lemma group_get_snoc r gL a :
  r ∉ gL.*1 → Mem.group_get r (gL ++ [(r, a)]) = Some a.
Proof.
  induction gL as [|[r' a'] gL IH]; csimpl; intros Hr.
  - by rewrite decide_True.
  - apply not_elem_of_cons in Hr as [? ?]. rewrite decide_False by done. auto.
Qed.

Lemma group_push_new {A} r (n : A) g :
  r ∉ g.*1 → group_push r n g = g ++ [(r, [n])].
Proof.
  induction g as [|[r' ns] g IH]; csimpl; intros Hr; [done|].
  apply not_elem_of_cons in Hr as [? ?]. rewrite decide_False by done.
  by rewrite IH.
Qed.

Lemma group_push_found {A} r (n : A) pre ns post :
  r ∉ pre.*1 →
  group_push r n (pre ++ (r, ns) :: post) = pre ++ (r, ns ++ [n]) :: post.
Proof.
  induction pre as [|[r' ns'] pre IH]; csimpl; intros Hr.
  - by rewrite decide_True.
  - apply not_elem_of_cons in Hr as [? ?]. rewrite decide_False by done.
    by rewrite IH.
Qed.

Lemma group_step_sim h0 nd m N H h gL g k :
  inv h0 nd m N H h → grouped nd m N H gL g → is_Some (m !! k) →
  ∃ st', Mem.group_step m (gL, H) k = Some st'
    ∧ inv h0 nd m N st'.2 h
    ∧ grouped nd m N st'.2 st'.1 (group_step h g k).
Proof.
  intros Hinv [Hrows Hnd Hbound] [l Hk].
  pose proof Hinv as [Hsim Hnode Hext Hfresh Hlen].
  destruct (Hfresh _ _ Hk) as [Hl0 HlN].
  unfold Mem.group_step, group_step. simpl. rewrite Hk. simpl.
  destruct (sim_read_node _ _ _ _ _ Hsim Hk) as (t & Hrd & Ht & Hid).
  rewrite Hrd, Ht. simpl.
  assert (rel_ref nd m l (node t)) as Hrel.
  { split; [by rewrite Hid|]. rewrite Hid, <-Hnode. unfold Facts.node_of.
    by rewrite Ht. }
  set (r := round_index (node t)).
  destruct (Mem.group_get r gL) as [a|] eqn:Eg; simpl.
  - rewrite Eg. simpl.
    destruct (group_get_Some _ _ _ Eg) as (preL & postL & -> & HpreL).
    apply Forall2_app_inv_l in Hrows as (pre & rest & Hpre & Hrest & ->).
    apply Forall2_cons_inv_l in Hrest as ([r' ns] & post & [E (ls & Ha & Hls)] & Hpost & ->).
    simpl in E, Ha, Hls. subst r'.
    rewrite fmap_app, fmap_cons in Hnd, Hbound. simpl in Hnd, Hbound.
    apply NoDup_app in Hnd as (NDpre & Hdisj & [Hnotin NDpost]%NoDup_cons).
    assert (N ≤ a < length H)%nat as Ha_bound
      by (apply Hbound, elem_of_app; right; left).
    rewrite (write_Some _ _ _ (array_obj ls) (array_obj (ls ++ [l])) Ha
               (push_array ls l)). simpl.
    eexists. split; [done|]. simpl.
    assert (∀ a', a' ≠ a →
              <[a := array_obj (ls ++ [l])]> H !! a' = H !! a') as Hframe
      by (intros; by apply list_lookup_insert_ne).
    split.
    + apply (inv_frame _ _ _ _ H); [done| | |by rewrite length_insert].
      * intros a' Ha'. apply Hframe. lia.
      * apply (extends_write _ H _ (Mem.push (Mem.VRef l)) a); [done|lia|].
        apply write_Some with (array_obj ls); [done|apply push_array].
    + rewrite group_push_found
        by (by rewrite <-(rows_rel_keys _ _ _ _ _ Hpre)).
      split.
      * apply Forall2_app; [|constructor].
        -- eapply rows_rel_frame; [exact Hpre|]. intros a' Ha'. apply Hframe.
           intros ->. by apply (Hdisj a); [|left].
        -- split; [done|]. exists (ls ++ [l]). simpl. split.
           ++ apply list_lookup_insert_eq. lia.
           ++ apply Forall2_app; [done|]. by constructor.
        -- eapply rows_rel_frame; [exact Hpost|]. intros a' Ha'. apply Hframe.
           by intros ->.
      * rewrite fmap_app, fmap_cons. simpl. apply NoDup_app.
        split_and!; [done|done|by apply NoDup_cons].
      * rewrite fmap_app, fmap_cons, length_insert. simpl. apply Hbound.
  - apply group_get_None in Eg as Hr.
    rewrite group_get_snoc by done. simpl.
    assert ((H ++ [Mem.new_array]) !! length H = Some (array_obj []))
      as Hnew by (by apply list_lookup_middle).
    rewrite (write_Some _ _ _ (array_obj []) (array_obj [l]) Hnew
               (push_array [] l)). simpl.
    eexists. split; [done|]. simpl.
    assert (∀ a', (a' < length H)%nat →
              <[length H := array_obj [l]]> (H ++ [Mem.new_array]) !! a'
              = H !! a') as Hframe.
    { intros a' Ha'. rewrite list_lookup_insert_ne by lia.
      by apply lookup_app_l. }
    split.
    + apply (inv_frame _ _ _ _ H); [done| | |].
      * intros a' Ha'. apply Hframe. lia.
      * apply (extends_write _ (H ++ [Mem.new_array]) _
                 (Mem.push (Mem.VRef l)) (length H)).
        -- by apply extends_alloc.
        -- by apply extends_length.
        -- apply write_Some with (array_obj []); [done|apply push_array].
      * rewrite length_insert, length_app. lia.
    + rewrite group_push_new by (by rewrite <-(rows_rel_keys _ _ _ _ _ Hrows)).
      split.
      * apply Forall2_app.
        -- eapply rows_rel_frame; [exact Hrows|]. intros a' Ha'. apply Hframe.
           by apply Hbound.
        -- constructor; [|constructor]. split; [done|]. exists [l]. simpl. split.
           ++ apply list_lookup_insert_eq. rewrite length_app. simpl. lia.
           ++ by constructor.
      * rewrite fmap_app. simpl. apply NoDup_app. split_and!; [done| |].
        -- intros a' Ha' ->%list_elem_of_singleton. apply Hbound in Ha'. lia.
        -- apply NoDup_singleton.
      * intros a'. rewrite fmap_app, length_insert, length_app. simpl.
        intros [Ha'|Ha']%elem_of_app.
        -- apply Hbound in Ha'. lia.
        -- apply list_elem_of_singleton in Ha' as ->. lia.
Qed.

Lemma build_roundGroups_sim h0 nd m N H h ks :
  inv h0 nd m N H h → Forall (λ k, is_Some (m !! k)) ks →
  ∃ gL H', Mem.build_roundGroups ks m H = Some (gL, H')
    ∧ inv h0 nd m N H' h
    ∧ grouped nd m N H' gL (build_roundGroups ks h).
Proof.
  intros Hinv Hks. unfold Mem.build_roundGroups, build_roundGroups.
  set (R := λ (s : list (Z * Mem.loc) * Mem.Memory) (t : RoundGroups),
              inv h0 nd m N s.2 h ∧ grouped nd m N s.2 s.1 t).
  assert (R ([], H) []) as H0.
  { split; [done|]. split; [constructor|constructor|].
    by intros a ?%elem_of_nil. }
  assert (Forall2 (λ k k', k = k' ∧ is_Some (m !! k)) ks ks) as Hks2.
  { apply Forall_Forall2_diag. eapply Forall_impl; [exact Hks|]. done. }
  assert (∀ k k' s t, k = k' ∧ is_Some (m !! k) → R s t →
            ∃ s', Mem.group_step m s k = Some s' ∧ R s' (group_step h t k'))
    as Hstep.
  { intros k ? [gL H1] g [<- Hk] [Hi Hg]. by apply group_step_sim. }
  destruct (foldlM_sim _ R (Mem.group_step m) (group_step h) ks ks Hks2 Hstep
              _ _ H0) as ([gL H'] & E & Hi & Hg).
  by exists gL, H'.
Qed.

(** ** Sorting, placing, centring *)

Lemma sort_insert_Forall2 {A B} (R : A → B → Prop) cmpA cmpB a b la lb :
  (∀ a b a' b', R a b → R a' b' → cmpA a a' = cmpB b b') →
  R a b → Forall2 R la lb →
  Forall2 R (sort_insert cmpA a la) (sort_insert cmpB b lb).
Proof.
  intros Hcmp Hab. induction 1 as [|a' b' la lb Hab' Hl IH]; simpl.
  - by repeat constructor.
  - rewrite (Hcmp a b a' b') by done.
    destruct (Qle_bool (cmpB b b') 0); by repeat constructor.
Qed.

Lemma sort_Forall2 {A B} (R : A → B → Prop) cmpA cmpB la lb :
  (∀ a b a' b', R a b → R a' b' → cmpA a a' = cmpB b b') →
  Forall2 R la lb → Forall2 R (sort cmpA la) (sort cmpB lb).
Proof.
  intros Hcmp. induction 1; simpl; [constructor|].
  by apply sort_insert_Forall2.
Qed.

Lemma compareRefs_sim h0 nd m N H h bp l n l' n' :
  inv h0 nd m N H h → rel_ref nd m l n → rel_ref nd m l' n' →
  Mem.compareRefs H bp l l' = compareNodes bp n n'.
Proof.
  intros Hinv Hl Hl'. unfold Mem.compareRefs.
  by rewrite (rel_ref_read _ _ _ _ _ _ _ _ Hinv Hl),
             (rel_ref_read _ _ _ _ _ _ _ _ Hinv Hl').
Qed.

Lemma rowWidth_Forall2 {A B} (R : A → B → Prop) la lb :
  Forall2 R la lb → rowWidth la = rowWidth lb.
Proof. intros Hl%Forall2_length. unfold rowWidth. by rewrite Hl. Qed.

(** The writes of a pass over the nodes of a row go to [TreeNode]s: what is
    at [N] or past it stays. *)
Lemma place_row_sim h0 nd m N r ls ns :
  Forall2 (rel_ref nd m) ls ns → ∀ i H h,
  inv h0 nd m N H h →
  ∃ H', Mem.place_row r i ls H = Some H'
        ∧ inv h0 nd m N H' (place_row r i ns h)
        ∧ ∀ a, (N ≤ a)%nat → H' !! a = H !! a.
Proof.
  induction 1 as [|l n ls ns [Hl _] _ IH]; intros i H h Hinv; simpl; [eauto|].
  destruct (inv_write_node _ _ _ _ _ _ _ _
              (Mem.set_xy
                 (Z.of_nat i * (NODE_WIDTH + NODE_SPACING) + NODE_WIDTH / 2)
                 (Double.add (Double.add (Double.mul r LEVEL_HEIGHT)
                                         (NODE_HEIGHT / 2)) 40))
              (set_xy
                 (Z.of_nat i * (NODE_WIDTH + NODE_SPACING) + NODE_WIDTH / 2)
                 (Double.add (Double.add (Double.mul r LEVEL_HEIGHT)
                                         (NODE_HEIGHT / 2)) 40))
              Hinv Hl) as (H1 & Hw & Hinv1); [done..|].
  rewrite Hw. simpl.
  destruct (IH (S i) _ _ Hinv1) as (H' & E & Hinv' & Hframe).
  exists H'. split_and!; [done..|]. intros a Ha. rewrite Hframe by done.
  apply (write_frame _ _ _ _ _ Hw).
  destruct (inv_fresh _ _ _ _ _ _ Hinv _ _ Hl). lia.
Qed.

Lemma add_x_sim h0 nd m N off ls ns :
  Forall2 (rel_ref nd m) ls ns → ∀ H h,
  inv h0 nd m N H h →
  ∃ H', Mem.foldlM (λ h l, Mem.write (Mem.add_x off) l h) H ls = Some H'
        ∧ inv h0 nd m N H' (foldl (λ h n, alter (add_x off) (id n) h) h ns)
        ∧ ∀ a, (N ≤ a)%nat → H' !! a = H !! a.
Proof.
  induction 1 as [|l n ls ns [Hl _] _ IH]; intros H h Hinv; simpl; [eauto|].
  destruct (inv_write_node _ _ _ _ _ _ _ _ (Mem.add_x off) (add_x off) Hinv Hl)
    as (H1 & Hw & Hinv1); [done..|].
  rewrite Hw. simpl.
  destruct (IH _ _ Hinv1) as (H' & E & Hinv' & Hframe).
  exists H'. split_and!; [done..|]. intros a Ha. rewrite Hframe by done.
  apply (write_frame _ _ _ _ _ Hw).
  destruct (inv_fresh _ _ _ _ _ _ Hinv _ _ Hl). lia.
Qed.

Lemma set_elems_array ls ls' :
  Mem.set_elems (λ _, Mem.VRef <$> ls') (array_obj ls) = Some (array_obj ls').
Proof. done. Qed.

Lemma position_sim h0 nd m N bp restL : ∀ rest doneL done mw H h,
  inv h0 nd m N H h → (length h0 ≤ N)%nat →
  rows_rel nd m H doneL done → rows_rel nd m H restL rest →
  NoDup (doneL ++ restL).*2 →
  (∀ a, a ∈ (doneL ++ restL).*2 → (N ≤ a)%nat) →
  ∃ mw' H', Mem.foldlM (Mem.position_step bp) (mw, H) restL = Some (mw', H')
    ∧ mw' = (foldl (position_step bp) (done, mw, h) rest).1.2
    ∧ inv h0 nd m N H' (foldl (position_step bp) (done, mw, h) rest).2
    ∧ rows_rel nd m H' (doneL ++ restL)
        (foldl (position_step bp) (done, mw, h) rest).1.1.
Proof.
  induction restL as [|[r a] restL IH];
    intros rest doneL done mw H h Hinv Hbase Hdone Hrest ND Hbound.
  { apply Forall2_nil_inv_l in Hrest as ->. simpl. rewrite app_nil_r.
    eauto 10. }
  apply Forall2_cons_inv_l in Hrest
    as ([r' ns] & rest' & [E (ls & Ha & Hls)] & Hrest & ->).
  simpl in E, Ha, Hls. subst r'. simpl.
  rewrite (read_nodes_array _ _ _ Ha). simpl.
  assert (mapM (Mem.read_node H) ls = Some ns) as ->.
  { apply mapM_Some. eapply Forall2_impl; [exact Hls|].
    intros l n. by eapply rel_ref_read. }
  simpl.
  assert (Forall2 (rel_ref nd m) (sort (Mem.compareRefs H bp) ls)
            (sort (compareNodes bp) ns)) as Hsorted.
  { apply sort_Forall2; [|done]. intros. by eapply compareRefs_sim. }
  set (sorted := sort (Mem.compareRefs H bp) ls) in *.
  set (sns := sort (compareNodes bp) ns) in *.
  rewrite fmap_app, fmap_cons in ND, Hbound. simpl in ND, Hbound.
  apply NoDup_app in ND as (NDdone & Hdisj & [Hnotin NDrest]%NoDup_cons).
  assert (N ≤ a)%nat as HaN by (apply Hbound, elem_of_app; right; left).
  rewrite (write_Some _ _ _ (array_obj ls) (array_obj sorted) Ha
             (set_elems_array ls sorted)). simpl.
  set (H1 := <[a := array_obj sorted]> H).
  assert (∀ a', a' ≠ a → H1 !! a' = H !! a') as Hframe1
    by (intros; by apply list_lookup_insert_ne).
  assert (inv h0 nd m N H1 h) as Hinv1.
  { apply (inv_frame _ _ _ _ H); [done| | |].
    - intros a' Ha'. apply Hframe1. lia.
    - apply (extends_write _ H _ (Mem.set_elems (λ _, Mem.VRef <$> sorted)) a);
        [apply Hinv|lia|].
      by apply write_Some with (array_obj ls).
    - unfold H1. rewrite length_insert. apply Hinv. }
  destruct (place_row_sim _ _ _ _ r _ _ Hsorted 0%nat _ _ Hinv1)
    as (H2 & -> & Hinv2 & Hframe2).
  simpl. rewrite (rowWidth_Forall2 _ _ _ Hsorted).
  destruct (IH rest' (doneL ++ [(r, a)]) (done ++ [(r, sns)])
              (Z.max mw (rowWidth sns)) H2 (place_row r 0 sns h))
    as (mw' & H' & -> & Emw & Hinv' & Hrows'); try done.
  - apply Forall2_app.
    + eapply rows_rel_frame; [exact Hdone|]. intros a' Ha'.
      rewrite Hframe2 by (apply Hbound, elem_of_app; by left).
      apply Hframe1. intros ->. by apply (Hdisj a); [|left].
    + constructor; [|constructor]. split; [done|]. exists sorted. simpl.
      split; [|done]. rewrite Hframe2 by done. unfold H1.
      apply list_lookup_insert_eq. by eapply lookup_lt_Some.
  - eapply rows_rel_frame; [exact Hrest|]. intros a' Ha'.
    rewrite Hframe2 by (apply Hbound, elem_of_app; right; by right).
    apply Hframe1. by intros ->.
  - rewrite <-app_assoc. simpl. rewrite fmap_app, fmap_cons. simpl.
    apply NoDup_app. split_and!; [done|done|by apply NoDup_cons].
  - rewrite <-app_assoc. simpl. by rewrite fmap_app, fmap_cons.
  - exists mw', H'. rewrite <-app_assoc in Hrows'. done.
Qed.

Lemma center_step_sim h0 nd m N mw r a ns H h :
  inv h0 nd m N H h → row_at nd m H a ns →
  ∃ H', Mem.center_step mw H (r, a) = Some H'
        ∧ inv h0 nd m N H' (center_step mw h (r, ns))
        ∧ ∀ a', (N ≤ a')%nat → H' !! a' = H !! a'.
Proof.
  intros Hinv (ls & Ha & Hls). unfold Mem.center_step, center_step. simpl.
  rewrite (read_nodes_array _ _ _ Ha). simpl.
  rewrite (rowWidth_Forall2 _ _ _ Hls).
  by apply add_x_sim.
Qed.

Lemma center_sim h0 nd m N mw restL : ∀ rest H h,
  inv h0 nd m N H h → rows_rel nd m H restL rest →
  (∀ a, a ∈ restL.*2 → (N ≤ a)%nat) →
  ∃ H', Mem.foldlM (Mem.center_step mw) H restL = Some H'
        ∧ inv h0 nd m N H' (foldl (center_step mw) h rest).
Proof.
  induction restL as [|[r a] restL IH]; intros rest H h Hinv Hrest Hbound.
  { apply Forall2_nil_inv_l in Hrest as ->. simpl. eauto. }
  apply Forall2_cons_inv_l in Hrest
    as ([r' ns] & rest' & [E Hrow] & Hrest & ->).
  simpl in E, Hrow. subst r'.
  destruct (center_step_sim _ _ _ _ mw r _ _ _ _ Hinv Hrow)
    as (H1 & E1 & Hinv1 & Hframe).
  change (Mem.foldlM (Mem.center_step mw) H ((r, a) :: restL))
    with (Mem.center_step mw H (r, a)
          ≫= λ a', Mem.foldlM (Mem.center_step mw) a' restL).
  change (foldl (center_step mw) h ((r, ns) :: rest'))
    with (foldl (center_step mw) (center_step mw h (r, ns)) rest').
  rewrite E1. apply IH; [done| |].
  - eapply rows_rel_frame; [exact Hrest|]. intros a' Ha'. apply Hframe.
    apply Hbound. csimpl. by right.
  - intros a' Ha'. apply Hbound. csimpl. by right.
Qed.

(** ** The layout memo *)

Lemma built_inv h0 m H h :
  built h0 m H h → inv h0 (Facts.node_of h) m (length H) H h.
Proof. intros [Hsim Hext Hfresh _]. by split. Qed.

Lemma built_keys h0 m H ns :
  built h0 m H (build_nodeMap ns).2 →
  Forall (λ k, is_Some (m !! k)) (build_nodeMap ns).1.
Proof.
  intros [Hsim _ _ _]. apply Forall_forall. intros k Hk.
  destruct (m !! k) eqn:E; [done|].
  apply (sim_none _ _ _ Hsim) in E.
  apply Facts.stored_keys in Hk as [n Hn].
  unfold Facts.stored, Facts.node_of in Hn. by rewrite E in Hn.
Qed.

Lemma layout_nonempty h nodes bestPathSet elems :
  Mem.read_nodes h nodes = Some elems → elems ≠ [] →
  Mem.layout h nodes bestPathSet
  = ('(keys, m, h) ← Mem.build_nodeMap h elems;
     '(h, root) ← Mem.link keys m h;
     match root with
     | None => Some (Mem.mkLayoutResult None 800 600 h (length keys))
     | Some root =>
         '(roundGroups, h) ← Mem.build_roundGroups keys m h;
         has ← Mem.read_set h bestPathSet;
         '(maxWidth, h) ←
           Mem.foldlM (Mem.position_step has) (0, h) roundGroups;
         h ← Mem.foldlM (Mem.center_step maxWidth) h roundGroups;
         let height :=
           match Math_max (roundGroups.*1) with
           | Some maxRound =>
               Double.add (Double.mul (Double.add maxRound 1) LEVEL_HEIGHT) 100
           | None => 0
           end in
         let width := Z.max (maxWidth + 80) 800 in
         Some (Mem.mkLayoutResult (Some root) width height h (length keys))
     end).
Proof. intros Hls Hne. unfold Mem.layout. rewrite Hls. by destruct elems. Qed.

Lemma layout_sim h0 nodes setRef ls ns has :
  Mem.read_nodes h0 nodes = Some ls →
  Forall2 (λ l n, Mem.read_node h0 l = Some n) ls ns →
  Mem.read_set h0 setRef = Some has →
  let L := layout ns has in
  ∃ LM, Mem.layout h0 nodes setRef = Some LM
    ∧ extends h0 (Mem.memory LM)
    ∧ Mem.width LM = width L ∧ Mem.height LM = height L
    ∧ Mem.nodeCount LM = length (Facts.keys_of ns)
    ∧ ∃ m, root_rel m (Mem.treeRoot LM) (treeRoot L)
           ∧ (is_Some (treeRoot L) → sim m (Mem.memory LM) (heap L)).
Proof.
  intros Hls Hns Hset L. unfold L. clear L.
  destruct (decide (ls = [])) as [->|Hne].
  { apply Forall2_nil_inv_l in Hns as ->. unfold Mem.layout. rewrite Hls.
    eexists. split; [done|]. simpl.
    split_and!; [apply extends_refl|done..|].
    exists ∅. split; [constructor|]. by intros []. }
  rewrite (layout_nonempty _ _ _ _ Hls Hne).
  destruct (build_nodeMap_sim h0 ls ns Hns) as (keys & m & H & -> & Hkeys & Hbuilt).
  simpl. unfold Facts.keys_of. rewrite <-Hkeys.
  assert (layout ns has =
          (let '(keys, h) := build_nodeMap ns in
          let '(h, root) := link keys h in
          match root with
          | None => empty_layout h
          | Some root =>
              let roundGroups := build_roundGroups keys h in
              let '(roundGroups, maxWidth, h) :=
                foldl (position_step has) ([], 0, h) roundGroups in
              let h := foldl (center_step maxWidth) h roundGroups in
              let height :=
                match Math_max (roundGroups.*1) with
                | Some maxRound =>
                    Double.add (Double.mul (Double.add maxRound 1) LEVEL_HEIGHT)
                      100
                | None => 0
                end in
              let width := Z.max (maxWidth + 80) 800 in
              mkLayoutResult (Some root) width height h roundGroups maxWidth
          end)) as ->.
  { destruct ns; [|done]. apply Forall2_nil_inv_r in Hns. done. }
  pose proof (built_keys _ _ _ _ Hbuilt) as Hks.
  pose proof (extends_length _ _ (built_ext _ _ _ _ Hbuilt)) as Hbase.
  destruct (build_nodeMap ns) as [keysP h]. simpl in Hkeys, Hbuilt, Hks.
  subst keysP. apply built_inv in Hbuilt.
  set (N := length H) in *.
  destruct (link_sim _ _ _ _ keys _ _ Hbuilt Hks) as ([H1 rL] & -> & Hinv1 & Hroot1).
  simpl. destruct (link keys h) as [h1 r]. simpl in Hinv1, Hroot1.
  destruct Hroot1 as [l k Hlk|].
  2:{ eexists. split; [done|]. simpl. split_and!; [apply Hinv1|done..|].
      exists m. split; [constructor|]. by intros []. }
  destruct (build_roundGroups_sim _ _ _ _ _ _ keys Hinv1 Hks)
    as (gL & H2 & -> & Hinv2 & [Hrows HND Hbound]).
  simpl. rewrite (extends_read_set _ _ _ _ (inv_ext _ _ _ _ _ _ Hinv2) Hset).
  simpl.
  destruct (position_sim _ _ _ _ has gL (build_roundGroups keys h1) [] [] 0
              _ _ Hinv2 Hbase) as (mwL & H3 & -> & Hmw & Hinv3 & Hrows3);
    [constructor|done|done|intros a Ha; by apply Hbound|].
  simpl. destruct (foldl (position_step _) _ _) as [[g2 mw] h2].
  simpl in Hmw, Hinv3, Hrows3. subst mwL.
  destruct (center_sim _ _ _ _ mw gL g2 _ _ Hinv3 Hrows3) as (H4 & -> & Hinv4).
  { intros a Ha. by apply Hbound. }
  simpl. eexists. split; [done|]. simpl.
  rewrite (rows_rel_keys _ _ _ _ _ Hrows3).
  split_and!; [apply Hinv4|done..|].
  exists m. split; [by constructor|]. intros _. apply Hinv4.
Qed.

(** ** The traversals and what is drawn *)

Definition edge_rel (m : gmap string Mem.loc) (eL : Mem.Edge) (e : Edge) : Prop :=
  m !! from e = Some (Mem.from eL) ∧ m !! to e = Some (Mem.to eL)
  ∧ Mem.isBestPath eL = isBestPath e.

Lemma mapM_bind_sim {A B C D} (R : A → B → Prop) (Q : C → D → Prop)
    (fM : A → option (list C)) (g : B → list D) la lb :
  Forall2 R la lb →
  (∀ a b, R a b → ∃ lc, fM a = Some lc ∧ Forall2 Q lc (g b)) →
  ∃ ll, mapM fM la = Some ll ∧ Forall2 Q (concat ll) (lb ≫= g).
Proof.
  intros Hl Hf. induction Hl as [|a b la lb Hab _ (ll & IH & Hll)].
  - exists []. split; [done|constructor].
  - destruct (Hf _ _ Hab) as (lc & Ea & Hlc). exists (lc :: ll). split.
    + apply mapM_Some. constructor; [done|]. by apply mapM_Some.
    + csimpl. by apply Forall2_app.
Qed.

Lemma sim_children m H h k l :
  sim m H h → m !! k = Some l →
  ∃ t cs, Mem.read_children H l ≫= Mem.read_nodes H = Some cs
    ∧ Mem.read_node H l = Some (node t)
    ∧ h !! k = Some t ∧ kids m cs (children t) ∧ id (node t) = k.
Proof.
  intros Hsim Hk.
  destruct (sim_some _ _ _ Hsim _ _ Hk) as (t & cs & Hl & Ha & Ht & Hch & Hid).
  exists t, cs. unfold Mem.read_children, Mem.read_node. rewrite Hl. simpl.
  by rewrite (read_nodes_array _ _ _ Ha).
Qed.

Lemma traverse_edges_sim m H h bp f :
  sim m H h → ∀ l k, m !! k = Some l →
  ∃ esL, Mem.traverse_edges f H bp l = Some esL
         ∧ Forall2 (edge_rel m) esL (traverse_edges f h bp k).
Proof.
  intros Hsim. induction f as [|f IH]; intros l k Hk; simpl.
  { eexists. split; [done|constructor]. }
  destruct (sim_children _ _ _ _ _ Hsim Hk) as (t & cs & -> & Hrd & -> & Hch & Hid).
  simpl.
  edestruct (mapM_bind_sim (λ c kc, m !! kc = Some c) (edge_rel m)) as (ll & -> & Hll);
    [exact Hch| |simpl; eexists; split; [done|exact Hll]].
  intros c kc Hc. simpl in Hc. rewrite Hrd. simpl.
  destruct (sim_read_node _ _ _ _ _ Hsim Hc) as (tc & -> & _ & Hidc).
  simpl. destruct (IH _ _ Hc) as (below & -> & Hbelow). simpl.
  eexists. split; [done|]. constructor; [|done].
  split_and!; simpl; [done..|]. by rewrite Hid, Hidc.
Qed.

Lemma traverse_nodes_sim m H h f :
  sim m H h → ∀ l k, m !! k = Some l →
  ∃ lsL, Mem.traverse_nodes f H l = Some lsL
         ∧ Forall2 (λ l k, m !! k = Some l) lsL (traverse_nodes f h k).
Proof.
  intros Hsim. induction f as [|f IH]; intros l k Hk; simpl.
  { eexists. split; [done|constructor]. }
  destruct (sim_children _ _ _ _ _ Hsim Hk) as (t & cs & -> & _ & -> & Hch & Hid).
  simpl.
  edestruct (mapM_bind_sim (λ c kc, m !! kc = Some c) (λ l k, m !! k = Some l))
    as (ll & -> & Hll);
    [exact Hch|intros c kc Hc; by apply IH|].
  simpl. eexists. split; [done|]. by constructor.
Qed.

(** What is drawn from the heap addressed by ids. *)
Definition view (h : Heap) (k : string) : option Mem.View :=
  (λ t, (node t, x t, y t)) <$> h !! k.

Definition drawing (T : Rendered) : Mem.Drawing :=
  let h := heap (layoutOf T) in
  Mem.mkDrawing
    (omap (view h) (allNodesOf T))
    (omap (λ e, a ← view h (from e); b ← view h (to e);
                Some (a, b, isBestPath e)) (edgesOf T))
    (width (layoutOf T), height (layoutOf T)).

Lemma view_sim m H h l k :
  sim m H h → m !! k = Some l → Mem.view H l = view h k ∧ is_Some (view h k).
Proof.
  intros Hsim Hk.
  destruct (sim_some _ _ _ Hsim _ _ Hk) as (t & cs & Hl & _ & Ht & _).
  unfold Mem.view, view. rewrite Hl, Ht. simpl. eauto.
Qed.

Lemma mapM_omap {A B C} (fM : A → option C) (g : B → option C) la lb :
  Forall2 (λ a b, fM a = g b ∧ is_Some (g b)) la lb →
  mapM fM la = Some (omap g lb).
Proof.
  intros Hl. apply mapM_Some.
  induction Hl as [|a b la lb [E [c Hc]] _ IH]; [constructor|].
  csimpl. rewrite Hc. constructor; [congruence|done].
Qed.

Lemma layout_heap_size ns bp :
  is_Some (treeRoot (layout ns bp)) →
  size (heap (layout ns bp)) = length (Facts.keys_of ns).
Proof.
  rewrite Facts.layout_unfold. destruct ns as [|n0 ns']; [by intros []|].
  destruct (Facts.root_of (n0 :: ns')); [|by intros []]. intros _. simpl.
  apply Tree.heap_size; [apply Facts.keys_of_NoDup|apply Facts.final_heap_dom].
Qed.

(** One render over a memory whose props are well formed completes; it draws
    what the memos over ids draw from the contents of the props, and the
    memory it leaves extends the one it found. *)
Lemma render_refines h nodes bestPath ls ns bp :
  Mem.read_nodes h nodes = Some ls →
  Forall2 (λ l n, Mem.read_node h l = Some n) ls ns →
  Mem.read_strings h bestPath = Some bp →
  ∃ T, Mem.OptimizationTree h nodes bestPath = Some T
    ∧ Mem.drawing T = Some (drawing (OptimizationTree ns bp))
    ∧ extends h (Mem.memory (Mem.layoutOf T)).
Proof.
  intros Hls Hns Hbp. unfold Mem.OptimizationTree, Mem.bestPathSet_memo.
  rewrite Hbp. simpl.
  set (S := list_to_set bp : gset string).
  set (h' := h ++ [Mem.mkObj (Mem.KSet S) None None None None]).
  assert (extends h h') as Hext by apply extends_alloc, extends_refl.
  assert (Mem.read_set h' (length h) = Some S) as Hset
    by (unfold Mem.read_set, h'; by rewrite list_lookup_middle).
  assert (Mem.read_nodes h' nodes = Some ls) as Hls'.
  { unfold Mem.read_nodes in *.
    destruct (Mem.read_elems h nodes) as [vs|] eqn:E; [|done].
    by rewrite (extends_read_elems _ _ _ _ Hext E). }
  assert (Forall2 (λ l n, Mem.read_node h' l = Some n) ls ns) as Hns'.
  { eapply Forall2_impl; [exact Hns|]. intros l n. by apply extends_read_node. }
  destruct (layout_sim h' nodes (length h) ls ns S Hls' Hns' Hset)
    as (LM & -> & Hext' & Hw & Hh & Hcount & m & Hroot & Hsim).
  simpl. rewrite (extends_read_set _ _ _ _ Hext' Hset). simpl.
  unfold OptimizationTree. fold S. set (L := layout ns S) in *.
  unfold drawing, edges, allNodes. simpl.
  destruct (treeRoot L) as [k|] eqn:Hr;
    inversion Hroot as [l k' Hlk HrL|HrL]; subst.
  2:{ simpl. eexists. split; [done|]. split; [|by eapply extends_trans].
      unfold Mem.drawing. simpl. by rewrite Hw, Hh. }
  specialize (Hsim ltac:(done)).
  assert (size (heap L) = length (Facts.keys_of ns)) as ->
    by (apply layout_heap_size; fold L; by rewrite Hr).
  rewrite Hcount.
  destruct (traverse_edges_sim _ _ _ S (length (Facts.keys_of ns)) Hsim _ _ Hlk)
    as (esL & -> & Hes).
  destruct (traverse_nodes_sim _ _ _ (length (Facts.keys_of ns)) Hsim _ _ Hlk)
    as (lsL & -> & Hnodes).
  simpl. eexists. split; [done|]. split; [|by eapply extends_trans].
  unfold Mem.drawing. simpl.
  rewrite (mapM_omap (Mem.view (Mem.memory LM)) (view (heap L)) lsL
             (traverse_nodes (length (Facts.keys_of ns)) (heap L) k)).
  2:{ eapply Forall2_impl; [exact Hnodes|]. intros. by eapply view_sim. }
  simpl.
  rewrite (mapM_omap _
             (λ e, a ← view (heap L) (from e); b ← view (heap L) (to e);
                   Some (a, b, isBestPath e)) esL
             (traverse_edges (length (Facts.keys_of ns)) (heap L) S k)).
  2:{ eapply Forall2_impl; [exact Hes|]. intros eL e (Hf & Ht & Hb). simpl.
      destruct (view_sim _ _ _ _ _ Hsim Hf) as [-> [a ->]].
      destruct (view_sim _ _ _ _ _ Hsim Ht) as [-> [b ->]].
      simpl. rewrite Hb. eauto. }
  simpl. by rewrite Hw, Hh.
Qed.

End Refine.

(* ===================================================================== *)
(** * Determinism and input preservation *)
(* ===================================================================== *)

Module RenderSpec.
Import Refine.

(** The [ProtocolNode]s the array at [nodes] holds, in order, and the ids the
    array at [bestPath] holds, as a set; [None] when the address does not
    hold such an array. *)
Definition contents (h : Mem.Memory) (nodes : Mem.loc)
  : option (list ProtocolNode) :=
  Mem.read_nodes h nodes ≫= mapM (Mem.read_node h).
Definition best_ids (h : Mem.Memory) (bestPath : Mem.loc)
  : option (gset string) :=
  list_to_set <$> Mem.read_strings h bestPath.

Lemma drawing_best_ids ns bp1 bp2 :
  (list_to_set bp1 : gset string) = list_to_set bp2 →
  drawing (Layout.OptimizationTree ns bp1)
  = drawing (Layout.OptimizationTree ns bp2).
Proof. intros E. unfold Layout.OptimizationTree. by rewrite E. Qed.

Lemma contents_extends h H nodes ns :
  extends h H → contents h nodes = Some ns → contents H nodes = Some ns.
Proof.
  intros Hext. unfold contents, Mem.read_nodes.
  destruct (Mem.read_elems h nodes) as [vs|] eqn:E; [|done].
  rewrite (extends_read_elems _ _ _ _ Hext E). simpl.
  destruct (mapM Mem.as_ref vs) as [ls|]; [|done]. simpl.
  rewrite !mapM_Some. intros Hns. eapply Forall2_impl; [exact Hns|].
  intros l n. by apply extends_read_node.
Qed.

Lemma best_ids_extends h H bestPath has :
  extends h H → best_ids h bestPath = Some has → best_ids H bestPath = Some has.
Proof.
  intros Hext. unfold best_ids, Mem.read_strings.
  destruct (Mem.read_elems h bestPath) as [vs|] eqn:E; [|done].
  by rewrite (extends_read_elems _ _ _ _ Hext E).
Qed.

(** A render over well-formed props completes, draws what the memos over ids
    draw from the contents of the props, and leaves a memory that extends the
    one it found. *)
Lemma render_of_contents h nodes bestPath ns has :
  contents h nodes = Some ns → best_ids h bestPath = Some has →
  ∃ T bp, Mem.OptimizationTree h nodes bestPath = Some T
    ∧ (list_to_set bp : gset string) = has
    ∧ Mem.drawing T = Some (drawing (Layout.OptimizationTree ns bp))
    ∧ extends h (Mem.memory (Mem.layoutOf T)).
Proof.
  unfold contents, best_ids. intros Hn Hb.
  destruct (Mem.read_nodes h nodes) as [ls|] eqn:Els; [|done]. simpl in Hn.
  apply mapM_Some in Hn.
  destruct (Mem.read_strings h bestPath) as [bp|] eqn:Ebp; [|done].
  injection Hb as <-.
  destruct (render_refines h nodes bestPath ls ns bp Els Hn Ebp)
    as (T & HT & HD & Hext).
  by exists T, bp.
Qed.

(** C7.  Two renders whose [nodes] arrays hold the same nodes in the same
    order and whose [bestPath] arrays hold the same set of ids, in whatever
    memories and at whatever addresses, complete and draw the same: the same
    nodes at the same coordinates, the same edges with the same flags, the
    same canvas, which is what the memos over ids draw from these nodes and
    ids.  Each render leaves every object that was in its memory before, the
    props among them, as it was, so that the props hold the same nodes and
    ids after it. *)
Theorem layout_deterministic_and_input_preserving
    h nodes bestPath h' nodes' bestPath' ns has :
  contents h nodes = Some ns → contents h' nodes' = Some ns →
  best_ids h bestPath = Some has → best_ids h' bestPath' = Some has →
  ∃ T T' D,
    Mem.OptimizationTree h nodes bestPath = Some T
    ∧ Mem.OptimizationTree h' nodes' bestPath' = Some T'
    ∧ Mem.drawing T = Some D ∧ Mem.drawing T' = Some D
    ∧ (∃ bp, (list_to_set bp : gset string) = has
             ∧ D = drawing (Layout.OptimizationTree ns bp))
    ∧ (∀ l o, h !! l = Some o → Mem.memory (Mem.layoutOf T) !! l = Some o)
    ∧ (∀ l o, h' !! l = Some o → Mem.memory (Mem.layoutOf T') !! l = Some o)
    ∧ contents (Mem.memory (Mem.layoutOf T)) nodes = Some ns
    ∧ best_ids (Mem.memory (Mem.layoutOf T)) bestPath = Some has
    ∧ contents (Mem.memory (Mem.layoutOf T')) nodes' = Some ns
    ∧ best_ids (Mem.memory (Mem.layoutOf T')) bestPath' = Some has.
Proof.
  intros Hn Hn' Hb Hb'.
  destruct (render_of_contents _ _ _ _ _ Hn Hb) as (T & bp & HT & Hbp & HD & Hext).
  destruct (render_of_contents _ _ _ _ _ Hn' Hb')
    as (T' & bp' & HT' & Hbp' & HD' & Hext').
  exists T, T', (drawing (Layout.OptimizationTree ns bp)).
  split_and!; [done|done|done| |by exists bp| | |..].
  - rewrite HD'. f_equal. apply drawing_best_ids. congruence.
  - intros l o. by apply extends_lookup.
  - intros l o. by apply extends_lookup.
  - by eapply contents_extends.
  - by eapply best_ids_extends.
  - by eapply contents_extends.
  - by eapply best_ids_extends.
Qed.

(** A memory with the nodes of [Samples.mixed], their array at address 0 and
    the best path at address 9. *)
Definition prop_node (n : ProtocolNode) : Mem.Obj :=
  Mem.mkObj Mem.KObject (Some n) None None None.
Definition prop_array (elems : list Mem.Value) : Mem.Obj :=
  Mem.mkObj (Mem.KArray elems) None None None None.

Definition sample_memory : Mem.Memory :=
  prop_array (Mem.VRef <$> [1; 2; 3; 4; 5; 6; 7; 8]%nat)
  :: (prop_node <$> Samples.mixed)
  ++ [prop_array (Mem.VStr <$> Samples.bestOfMixed)].

(** The memory the render of the sample leaves. *)
Definition sample_left : Mem.Memory :=
  match Mem.OptimizationTree sample_memory 0 9 with
  | Some T => Mem.memory (Mem.layoutOf T)
  | None => []
  end.

(** The render is run again in the memory the first render left. *)
Lemma layout_deterministic_and_input_preserving_witness :
  ∃ T T' D,
    Mem.OptimizationTree sample_memory 0 9 = Some T
    ∧ Mem.OptimizationTree sample_left 0 9 = Some T'
    ∧ Mem.drawing T = Some D ∧ Mem.drawing T' = Some D
    ∧ (∃ bp, (list_to_set bp : gset string) = list_to_set Samples.bestOfMixed
             ∧ D = drawing (Layout.OptimizationTree Samples.mixed bp))
    ∧ (∀ l o, sample_memory !! l = Some o →
              Mem.memory (Mem.layoutOf T) !! l = Some o)
    ∧ (∀ l o, sample_left !! l = Some o →
              Mem.memory (Mem.layoutOf T') !! l = Some o)
    ∧ contents (Mem.memory (Mem.layoutOf T)) 0 = Some Samples.mixed
    ∧ best_ids (Mem.memory (Mem.layoutOf T)) 9
      = Some (list_to_set Samples.bestOfMixed)
    ∧ contents (Mem.memory (Mem.layoutOf T')) 0 = Some Samples.mixed
    ∧ best_ids (Mem.memory (Mem.layoutOf T')) 9
      = Some (list_to_set Samples.bestOfMixed).
Proof.
  apply (layout_deterministic_and_input_preserving sample_memory 0 9
           sample_left 0 9 Samples.mixed (list_to_set Samples.bestOfMixed)).
  - vm_compute. reflexivity.
  - vm_compute. reflexivity.
  - reflexivity.
  - reflexivity.
Defined.

(** In general: rendering again in the memory a render left draws the same
    and touches nothing that was there. *)
Lemma render_again h nodes bestPath ns has T :
  contents h nodes = Some ns → best_ids h bestPath = Some has →
  Mem.OptimizationTree h nodes bestPath = Some T →
  let h1 := Mem.memory (Mem.layoutOf T) in
  ∃ T', Mem.OptimizationTree h1 nodes bestPath = Some T'
    ∧ Mem.drawing T' = Mem.drawing T
    ∧ (∀ l o, h1 !! l = Some o → Mem.memory (Mem.layoutOf T') !! l = Some o).
Proof.
  intros Hn Hb HT h1.
  destruct (render_of_contents _ _ _ _ _ Hn Hb) as (T0 & bp & HT0 & Hbp & HD & Hext).
  assert (T0 = T) as -> by congruence.
  destruct (render_of_contents h1 nodes bestPath ns has)
    as (T' & bp' & HT' & Hbp' & HD' & Hext').
  { by eapply contents_extends. }
  { by eapply best_ids_extends. }
  exists T'. split_and!; [done| |].
  - rewrite HD, HD'. f_equal. apply drawing_best_ids. congruence.
  - intros l o. by apply extends_lookup.
Qed.

(** What the sample render draws: the rows of [LayoutSpec.mixed_rows_and_positions],
    root first and each node followed by the nodes below it. *)
Example sample_drawing :
  let at_ n x y : Mem.View := (n, x, y) in
  let n0 := at_ Samples.nodeA 390 80 in
  let m1 := at_ Samples.m1 710 240 in
  let m2 := at_ Samples.m2 390 240 in
  let m3 := at_ Samples.m3 70 240 in
  let m4 := at_ Samples.m4 550 240 in
  let m5 := at_ Samples.m5 230 240 in
  let m6 := at_ Samples.m6 310 400 in
  let m7 := at_ Samples.m7 470 400 in
  Mem.OptimizationTree sample_memory 0 9 ≫= Mem.drawing
  = Some (Mem.mkDrawing
            [n0; m1; m2; m3; m6; m7; m4; m5]
            [(n0, m1, false); (n0, m2, false); (n0, m3, true);
             (m3, m6, true); (m3, m7, false); (n0, m4, false);
             (n0, m5, false)]
            (860, 580)).
Proof. by vm_compute. Qed.

(** The same nodes and the same ids elsewhere: the best path at address 1,
    in another order and with a repetition, the nodes at the addresses 3 to
    10 in another order, and their array at address 11. *)
Definition moved_memory : Mem.Memory :=
  [prop_array []; prop_array (Mem.VStr <$> ["m6"; "n0"; "m3"; "n0"]);
   prop_node Samples.orphan]
  ++ (prop_node <$> reverse Samples.mixed)
  ++ [prop_array (Mem.VRef <$> [10; 9; 8; 7; 6; 5; 4; 3]%nat)].

Example same_drawing_elsewhere :
  contents moved_memory 11 = contents sample_memory 0
  ∧ best_ids moved_memory 1 = best_ids sample_memory 9
  ∧ Mem.OptimizationTree moved_memory 11 1 ≫= Mem.drawing
    = Mem.OptimizationTree sample_memory 0 9 ≫= Mem.drawing.
Proof.
  split_and!.
  - by vm_compute.
  - by vm_compute.
  - by vm_compute.
Qed.

(** The writes of the memos act on whatever is at the address.  Had the map
    kept the [ProtocolNode] at address 1 itself and not a copy of it, the
    assignment of its position would have changed the prop; and a [push] or
    a [sort] through the address of the [nodes] array would have changed that
    array. *)
Example write_reaches_a_prop :
  Mem.write (Mem.set_xy 390 80) 1 sample_memory
  = Some (<[1%nat := Mem.mkObj Mem.KObject (Some Samples.nodeA)
                       (Some 390) (Some 80) None]> sample_memory)
  ∧ Mem.write (Mem.push (Mem.VRef 1)) 0 sample_memory
    = Some (<[0%nat := prop_array
                         (Mem.VRef <$> [1; 2; 3; 4; 5; 6; 7; 8; 1]%nat)]>
              sample_memory)
  ∧ Mem.write (Mem.set_elems (λ _, Mem.VRef <$> [4; 6; 3; 5; 2]%nat)) 0
      sample_memory
    = Some (<[0%nat := prop_array (Mem.VRef <$> [4; 6; 3; 5; 2]%nat)]>
              sample_memory).
Proof. split_and!; reflexivity. Qed.

End RenderSpec.

(* ===================================================================== *)
(** * Properties of the tree reducer *)
(* ===================================================================== *)

Module ReducerSpec.
Import Reducer.

(** C4.  A [candidate_evaluated] event appends its node: the stored list
    grows by one, every node stored before stays at its place, the current
    round becomes the event's [round_index], and best path and best node
    stay. *)
Theorem candidate_evaluated_appends s node round :
  let s' := handleOptimizeEvent s (candidate_evaluated node round) in
  optNodes s' = optNodes s ++ [node]
  ∧ length (optNodes s') = S (length (optNodes s))
  ∧ (∀ i n, optNodes s !! i = Some n → optNodes s' !! i = Some n)
  ∧ optNodes s' !! length (optNodes s) = Some node
  ∧ optCurrentRound s' = round
  ∧ optBestPath s' = optBestPath s
  ∧ optBestNode s' = optBestNode s.
Proof.
  simpl. split_and!; try reflexivity.
  - rewrite length_app. simpl. lia.
  - intros i n Hi. by apply lookup_app_l_Some.
  - by rewrite lookup_app_r, Nat.sub_diag.
Qed.

(** C5.  A [done] event replaces the stored list by its [tree], the best path
    by its [best_path], the best node by its [best_node], and the protocol
    text by that node's [rule]. *)
Theorem done_replaces_everything s tree best_path best_node :
  let s' := handleOptimizeEvent s (done tree best_path best_node) in
  optNodes s' = tree
  ∧ optBestPath s' = best_path
  ∧ optBestNode s' = Some best_node
  ∧ protocol s' = rule best_node.
Proof. simpl. by split_and!. Qed.

(** C6.  An [error] event stores its message as it is and changes nothing
    else. *)
Theorem error_keeps_state s message :
  let s' := handleOptimizeEvent s (error message) in
  optError s' = Some message
  ∧ optNodes s' = optNodes s
  ∧ optBestPath s' = optBestPath s
  ∧ optBestNode s' = optBestNode s
  ∧ optCurrentRound s' = optCurrentRound s
  ∧ protocol s' = protocol s
  ∧ s' = mkState (optNodes s) (optBestPath s) (optBestNode s)
               (optCurrentRound s) (Some message) (protocol s).
Proof. simpl. by split_and!. Qed.

(** C8.  A [base_evaluated] event leaves exactly its node in the stored list,
    takes its [best_path], makes its node the best node, and sets the round
    to 0. *)
Theorem base_evaluated_resets s node best_path :
  let s' := handleOptimizeEvent s (base_evaluated node best_path) in
  optNodes s' = [node]
  ∧ optBestPath s' = best_path
  ∧ optBestNode s' = Some node
  ∧ optCurrentRound s' = 0.
Proof. simpl. by split_and!. Qed.

(** The scenario of the specification: base, one candidate, a new best, done. *)
Example scenario_run :
  let s := run (start "initial")
             [base_evaluated Samples.nodeA ["n0"];
              candidate_evaluated Samples.nodeB 1;
              best_updated Samples.nodeB ["n0"; "n1"];
              done [Samples.nodeA; Samples.nodeB] ["n0"; "n1"] Samples.nodeB] in
  optNodes s = [Samples.nodeA; Samples.nodeB]
  ∧ optBestPath s = ["n0"; "n1"]
  ∧ optBestNode s = Some Samples.nodeB
  ∧ protocol s = "rule B"
  ∧ Layout.edgesOf (Layout.OptimizationTree (optNodes s) (optBestPath s))
    = [Layout.mkEdge "n0" "n1" true].
Proof. vm_compute. by split_and!. Qed.

(** An error in the middle of a run leaves what was gathered. *)
Example scenario_error :
  let before := run (start "initial")
                  [base_evaluated Samples.nodeA ["n0"];
                   candidate_evaluated Samples.nodeB 1] in
  let after := handleOptimizeEvent before (error "rate limited") in
  optNodes after = optNodes before ∧ optError after = Some "rate limited".
Proof. by split. Qed.

End ReducerSpec.

(* ===================================================================== *)
(** * Properties of the text-to-speech route *)
(* ===================================================================== *)

Module TtsSpec.
Import Tts.

(** Empty, or white space only. *)
Definition blank (s : jsstring) : Prop := Forall (λ u, is_white_space u = true) s.

(** The server credential is configured: the variable is set and not empty. *)
Definition configured (env : string → option jsstring) : Prop :=
  ∃ key, env "ELEVENLABS_API_KEY" = Some key ∧ key ≠ [].

(** The [text] entry of a parsed body, if it has one. *)
Definition text_field (body : json) : value :=
  match body with
  | JObject fields => snd <$> last (filter (λ f, f.1 = "text") fields)
  | _ => None
  end.

Definition rejected (st : Z) (message : string) : Outcome :=
  ([], Normal (mkResponse st (Some (units message)) None)).

Lemma bind_step {A B} (a : A) (k : A → Run B) : step (Normal a) ≫= k = k a.
Proof. unfold mbind, Run_bind, run_bind. simpl. by destruct (k a). Qed.

Lemma bind_TypeError {A B} (k : A → Run B) :
  step TypeError ≫= k = ([], TypeError).
Proof. done. Qed.

Lemma trimStart_nil s : trimStart s = [] ↔ blank s.
Proof.
  unfold blank. induction s as [|u s IH]; simpl.
  - split; [constructor|done].
  - destruct (is_white_space u) eqn:E.
    + rewrite IH. split; [by constructor|by inversion 1].
    + split; [done|]. inversion 1; congruence.
Qed.

Lemma trimStart_blank s : blank (trimStart s) → trimStart s = [].
Proof.
  unfold blank. induction s as [|u s IH]; simpl; [done|].
  destruct (is_white_space u) eqn:E; [done|]. inversion 1; congruence.
Qed.

Lemma trim_nil s : trim s = [] ↔ blank s.
Proof.
  unfold trim, trimEnd. split.
  - intros H. apply (f_equal reverse) in H.
    rewrite reverse_involutive, reverse_nil in H.
    apply trimStart_nil in H. unfold blank in H.
    rewrite Forall_reverse in H. apply trimStart_nil. by apply trimStart_blank.
  - intros H%trimStart_nil. by rewrite H.
Qed.

(** X1.  Where the handler answers by itself: 500 without the credential,
    whatever the body; with it, 400 for a body that is not JSON, and 400 for
    a body other than [null] whose [text] is missing, [null], or a blank
    string.  Nothing is sent upstream. *)
Lemma POST_rejects env fetch JSON_parse :
  (¬ configured env →
   ∀ body, POST env fetch JSON_parse body
           = rejected 500 "ELEVENLABS_API_KEY is not set")
  ∧ (configured env →
     POST env fetch JSON_parse None = rejected 400 "Invalid JSON payload")
  ∧ (configured env →
     ∀ body, body ≠ JNull →
       (text_field body = None ∨ text_field body = Some JNull
        ∨ ∃ s, text_field body = Some (JString s) ∧ blank s) →
       POST env fetch JSON_parse (Some body) = rejected 400 "text is required").
Proof.
  split_and!.
  - intros Hno body. unfold POST.
    destruct (env "ELEVENLABS_API_KEY") as [[|u key]|] eqn:E; [done| |done].
    destruct Hno. exists (u :: key). by split.
  - intros (key & E & Hkey). unfold POST. rewrite E. by destruct key.
  - intros (key & E & Hkey) body Hnull Htext. unfold POST. rewrite E.
    destruct key as [|u key]; [done|].
    assert (get body "text" = Normal (text_field body)) as ->
      by (by destruct body).
    rewrite bind_step.
    destruct Htext as [->|[->|(s & -> & Hs)]]; cbn [optional_trim];
      rewrite bind_step; cbn [default]; [done..|].
    apply trim_nil in Hs. by rewrite Hs.
Qed.

(** C9, its failing case.  With the credential configured, the body [null]
    (valid JSON, no [text]) ends the handler with an uncaught [TypeError]
    instead of a 400 response: [body.text] is read before anything guards
    against [null]. *)
Theorem POST_null_body_throws env fetch JSON_parse :
  configured env →
  text_field JNull = None
  ∧ POST env fetch JSON_parse (Some JNull) = ([], TypeError).
Proof.
  intros (key & E & Hkey). split; [done|]. unfold POST. rewrite E.
  by destruct key.
Qed.

Definition sample_env (name : string) : option jsstring :=
  if decide (name = "ELEVENLABS_API_KEY") then Some (units "secret") else None.

Definition sample_fetch (_ : UpstreamRequest) : option UpstreamResponse :=
  Some (mkUpstreamResponse 200 (Some []) (Some []) None).

Lemma POST_null_body_throws_witness :
  text_field JNull = None
  ∧ POST sample_env sample_fetch (λ _, None) (Some JNull) = ([], TypeError).
Proof.
  apply (POST_null_body_throws sample_env sample_fetch (λ _, None)).
  exists (units "secret"). split; [reflexivity|discriminate].
Defined.

(** A body with text reaches the upstream service. *)
Example POST_forwards :
  POST sample_env sample_fetch (λ _, None)
    (Some (JObject [("text", JString (units " hi "))]))
  = ([mkUpstreamRequest (Some (JString DEFAULT_VOICE_ID))
        (Some (Some (JString DEFAULT_OUTPUT_FORMAT)))
        (units "secret") (units "hi") (Some (JString DEFAULT_MODEL_ID))],
     Normal (mkResponse 200 None (Some ([], units "audio/mpeg")))).
Proof. reflexivity. Qed.

End TtsSpec.

(* ===================================================================== *)
(** * What is drawn: the root, the nodes below it, their boxes *)
(* ===================================================================== *)

Module DrawingSpec.
Import Layout SortFacts Order Facts Tree Rooted LayoutSpec.

(** ** The memo's fields, for every input *)

Lemma treeRoot_layout nodes bp : treeRoot (layout nodes bp) = root_of nodes.
Proof.
  rewrite layout_unfold. destruct nodes as [|n0 ns]; [done|].
  by destruct (root_of (n0 :: ns)).
Qed.

Lemma heap_layout nodes bp r :
  root_of nodes = Some r → heap (layout nodes bp) = final_heap nodes bp.
Proof.
  intros Hr. rewrite layout_unfold. destruct nodes as [|n0 ns]; [done|].
  by rewrite Hr.
Qed.

Lemma maxWidth_layout nodes bp r :
  root_of nodes = Some r → maxWidth (layout nodes bp) = widest 0 (groups nodes).
Proof.
  intros Hr. rewrite layout_unfold. destruct nodes as [|n0 ns]; [done|].
  by rewrite Hr.
Qed.

Lemma keys_nonempty nodes r :
  root_of nodes = Some r → ∃ f, length (keys_of nodes) = S f.
Proof.
  intros [Hk _]%root_of_Some.
  destruct (keys_of nodes) as [|k ks]; [by apply elem_of_nil in Hk|].
  by exists (length ks).
Qed.

(** The node a key stores is a node of the list with that id. *)
Lemma key_stored nodes k :
  k ∈ keys_of nodes → ∃ n, stored nodes k = Some n ∧ id n = k ∧ n ∈ nodes.
Proof.
  intros [n Hn]%stored_keys. exists n.
  by destruct (stored_Some _ _ _ Hn).
Qed.

(** ** [allNodes] against [edges] *)

(** One level less of recursion gives the same edges. *)
Lemma edges_short nodes bp r f :
  root_of nodes = Some r → length (keys_of nodes) = S f →
  traverse_edges f (final_heap nodes bp) bp r = edges (layout nodes bp) bp.
Proof.
  intros Hr Hf. rewrite <-(edges_fuel nodes bp r (S f)) by (done || lia).
  destruct (root_of_Some _ _ Hr) as [Hk Hp]. symmetry.
  eapply (traverse_edges_stable (keys_of nodes) (par nodes));
    eauto using final_heap_children, par_keys.
  intros c j Hlt. eapply root_depth; eauto using keys_of_NoDup, par_keys. lia.
Qed.

Lemma allNodes_cons nodes bp r :
  root_of nodes = Some r →
  allNodes (layout nodes bp) = r :: (to <$> edges (layout nodes bp) bp).
Proof.
  intros Hr. destruct (keys_nonempty _ _ Hr) as [f Hf].
  rewrite (allNodes_rooted _ _ _ Hr), Hf, (traverse_nodes_edges _ bp).
  by rewrite (edges_short _ _ _ _ Hr Hf).
Qed.

(** The drawn nodes are the keys that climb to the root along [parent_id]. *)
Lemma allNodes_elem nodes bp r k :
  root_of nodes = Some r →
  k ∈ allNodes (layout nodes bp) ↔ ∃ j, up (par nodes) j k = Some r.
Proof.
  intros Hr. destruct (keys_nonempty _ _ Hr) as [f Hf].
  destruct (root_of_Some _ _ Hr) as [Hk Hp].
  rewrite (allNodes_cons _ _ _ Hr), <-(edges_short _ _ _ _ Hr Hf), elem_of_cons.
  rewrite (targets_elem (keys_of nodes) (par nodes) (final_heap nodes bp) bp
             (final_heap_dom nodes bp) (final_heap_children nodes bp)
             (par_keys nodes) f r k Hk).
  split.
  - intros [->|(j & _ & Hj)]; [by exists 0%nat|by exists (S j)].
  - intros [[|j] Hj]; [left; by injection Hj|right].
    exists j. split; [|done].
    pose proof (depth_bound (keys_of nodes) (par nodes) (par_keys nodes)
                  _ _ _ Hj Hp Hk). lia.
Qed.

(** ** No root *)

(** X2.  When no node of the list has a [null] parent (the empty list
    included) the memo finds no root: it returns the 800 by 600 canvas, and
    no edge and no node is drawn. *)
Theorem no_parentless_node_draws_nothing nodes bestPath :
  (∀ n, n ∈ nodes → parent_id n ≠ None) →
  let T := OptimizationTree nodes bestPath in
  treeRoot (layoutOf T) = None
  ∧ width (layoutOf T) = 800 ∧ height (layoutOf T) = 600
  ∧ edgesOf T = [] ∧ allNodesOf T = [].
Proof.
  intros Hpar T. set (bp := list_to_set bestPath : gset string).
  assert (root_of nodes = None) as Hr.
  { destruct (root_of nodes) as [r|] eqn:Hr; [|done].
    destruct (root_of_Some _ _ Hr) as [Hk Hp].
    destruct (key_stored _ _ Hk) as (n & Hn & _ & Hin).
    unfold par in Hp. rewrite Hn in Hp. by destruct (Hpar n Hin). }
  destruct (layout_unrooted nodes bp Hr) as (Ht & Hw & Hh).
  unfold T, OptimizationTree, edges, allNodes; simpl. fold bp.
  by rewrite Ht.
Qed.

Lemma no_parentless_node_draws_nothing_witness :
  let T := OptimizationTree [Samples.loopB; Samples.loopC] ["b"] in
  treeRoot (layoutOf T) = None
  ∧ width (layoutOf T) = 800 ∧ height (layoutOf T) = 600
  ∧ edgesOf T = [] ∧ allNodesOf T = [].
Proof.
  apply (no_parentless_node_draws_nothing [Samples.loopB; Samples.loopC] ["b"]).
  intros n Hn.
  repeat (apply elem_of_cons in Hn as [->|Hn]; [discriminate|]).
  by apply elem_of_nil in Hn.
Defined.

(** ** Several parentless nodes *)

Lemma filter_is_root_nil nodes after :
  (∀ n, n ∈ after → stored nodes (id n) = Some n ∧ parent_id n ≠ None) →
  filter (is_root (stored nodes)) (id <$> after) = [].
Proof.
  induction after as [|a after IH]; intros H; [done|]. csimpl.
  destruct (H a) as [Ha Hp]; [left|].
  rewrite filter_cons, decide_False.
  - apply IH. intros; apply H; by right.
  - unfold is_root. rewrite Ha. simpl. congruence.
Qed.

(** X3.  In a list with distinct ids the root is the last node whose parent
    is [null]; a parentless node that comes earlier is not drawn. *)
Theorem last_parentless_node_is_root before r after bestPath :
  NoDup (id <$> before ++ r :: after) →
  parent_id r = None → (∀ n, n ∈ after → parent_id n ≠ None) →
  let T := OptimizationTree (before ++ r :: after) bestPath in
  treeRoot (layoutOf T) = Some (id r)
  ∧ ∀ n, n ∈ before → parent_id n = None → id n ∉ allNodesOf T.
Proof.
  intros ND Hr Hafter T. set (nodes := before ++ r :: after) in *.
  set (bp := list_to_set bestPath : gset string).
  assert (root_of nodes = Some (id r)) as Hroot.
  { unfold root_of. rewrite (keys_of_ids nodes ND).
    change (id <$> nodes) with (id <$> before ++ r :: after).
    rewrite fmap_app, fmap_cons, filter_app, filter_cons, decide_True.
    - rewrite (filter_is_root_nil nodes after); [by rewrite last_snoc|].
      intros n Hn. split; [|by apply Hafter].
      apply (stored_id nodes ND). apply elem_of_app. right. by right.
    - unfold is_root. rewrite (stored_id nodes ND).
      + simpl. by rewrite Hr.
      + apply elem_of_app. right. left. }
  split.
  - unfold T, OptimizationTree; simpl. by rewrite treeRoot_layout.
  - intros n Hn Hp. unfold T, OptimizationTree; simpl. fold bp.
    rewrite (allNodes_elem _ _ _ _ Hroot). intros [j Hj].
    assert (n ∈ nodes) as Hin by (apply elem_of_app; by left).
    destruct j as [|j]; simpl in Hj.
    + injection Hj as Hj.
      assert (n = r) as ->.
      { apply (id_inj nodes ND); [done| |done].
        apply elem_of_app. right. left. }
      unfold nodes in ND. rewrite fmap_app, fmap_cons in ND.
      apply NoDup_app in ND as (_ & ND & _).
      apply (ND (id r)); [by apply list_elem_of_fmap_2|left].
    + by rewrite (par_id nodes ND n Hin), Hp in Hj.
Qed.

Lemma last_parentless_node_is_root_witness :
  let T := OptimizationTree
             ([Samples.nodeA] ++ mkProtocolNode "m" None 0 90 "rule m"
                :: [mkProtocolNode "k" (Some "m") 1 70 "rule k"]) ["m"] in
  treeRoot (layoutOf T) = Some "m"
  ∧ ∀ n, n ∈ [Samples.nodeA] → parent_id n = None → id n ∉ allNodesOf T.
Proof.
  apply (last_parentless_node_is_root [Samples.nodeA]
           (mkProtocolNode "m" None 0 90 "rule m")
           [mkProtocolNode "k" (Some "m") 1 70 "rule k"] ["m"]).
  - apply (bool_decide_unpack _). vm_compute. exact I.
  - reflexivity.
  - intros n Hn.
    repeat (apply elem_of_cons in Hn as [->|Hn]; [discriminate|]).
    by apply elem_of_nil in Hn.
Defined.

(** ** The drawn nodes *)

Lemma allNodes_NoDup nodes bp : NoDup (allNodes (layout nodes bp)).
Proof.
  destruct (root_of nodes) as [r|] eqn:Hr.
  - destruct (keys_nonempty _ _ Hr) as [f Hf].
    destruct (root_of_Some _ _ Hr) as [Hk Hp].
    rewrite (allNodes_cons _ _ _ Hr), <-(edges_short _ _ _ _ Hr Hf).
    constructor.
    + rewrite (targets_elem (keys_of nodes) (par nodes) (final_heap nodes bp) bp
                 (final_heap_dom nodes bp) (final_heap_children nodes bp)
                 (par_keys nodes) f r r Hk).
      intros (j & _ & Hj).
      by apply (up_no_cycle (par nodes) 0 j r r).
    + eapply (targets_NoDup (keys_of nodes) (par nodes) _ bp) with (d := 0%nat);
        eauto using keys_of_NoDup, final_heap_dom, final_heap_children, par_keys.
  - unfold allNodes. rewrite treeRoot_layout, Hr. constructor.
Qed.

(** X4.  No node is drawn twice, whatever the list: the [key]s of the drawn
    nodes are distinct, and each is the id of a node of the list. *)
Theorem drawn_nodes_distinct nodes bestPath :
  let T := OptimizationTree nodes bestPath in
  NoDup (allNodesOf T) ∧ ∀ k, k ∈ allNodesOf T → ∃ n, n ∈ nodes ∧ id n = k.
Proof.
  intros T. unfold T, OptimizationTree; simpl.
  set (bp := list_to_set bestPath : gset string).
  split; [apply allNodes_NoDup|]. intros k Hk.
  destruct (root_of nodes) as [r|] eqn:Hr.
  - rewrite (allNodes_elem _ _ _ _ Hr) in Hk. destruct Hk as [j Hj].
    assert (k ∈ keys_of nodes) as Hin.
    { destruct j as [|j]; simpl in Hj.
      - assert (k = r) as E by congruence. rewrite E.
        by destruct (root_of_Some _ _ Hr).
      - destruct (par nodes k) as [p|] eqn:Ep; [by eapply par_keys|done]. }
    destruct (key_stored _ _ Hin) as (n & _ & ? & ?). eauto.
  - unfold allNodes in Hk. rewrite treeRoot_layout, Hr in Hk.
    by apply elem_of_nil in Hk.
Qed.

(** X5.  With a root, the drawn nodes are the root followed by the targets
    of the edges, in the order of the edges: every drawn node but the root
    has one incoming edge, and there is one node more than there are edges. *)
Theorem nodes_are_root_then_edge_targets nodes bestPath r :
  let T := OptimizationTree nodes bestPath in
  treeRoot (layoutOf T) = Some r →
  allNodesOf T = r :: (to <$> edgesOf T)
  ∧ length (allNodesOf T) = S (length (edgesOf T)).
Proof.
  intros T. unfold T, OptimizationTree; simpl.
  rewrite treeRoot_layout. intros Hr.
  rewrite (allNodes_cons _ _ _ Hr). split; [done|].
  simpl. by rewrite length_fmap.
Qed.

Lemma nodes_are_root_then_edge_targets_witness :
  let T := OptimizationTree Samples.fan4 ["n0"] in
  allNodesOf T = "n0" :: (to <$> edgesOf T)
  ∧ length (allNodesOf T) = S (length (edgesOf T)).
Proof.
  apply (nodes_are_root_then_edge_targets Samples.fan4 ["n0"] "n0").
  vm_compute. reflexivity.
Defined.

(** X6.  An edge is drawn only from a node to a node that names it as its
    parent, and both of its ends are drawn nodes. *)
Theorem edges_follow_parent_id nodes bestPath e :
  let T := OptimizationTree nodes bestPath in
  e ∈ edgesOf T →
  (∃ t, heap (layoutOf T) !! to e = Some t
        ∧ id (node t) = to e ∧ parent_id (node t) = Some (from e))
  ∧ from e ∈ allNodesOf T ∧ to e ∈ allNodesOf T.
Proof.
  intros T. unfold T, OptimizationTree; simpl.
  set (bp := list_to_set bestPath : gset string). intros He.
  destruct (root_of nodes) as [r|] eqn:Hr;
    [|unfold edges in He; rewrite treeRoot_layout, Hr in He;
      by apply elem_of_nil in He].
  pose proof He as Hto%(list_elem_of_fmap_2 to).
  rewrite (edges_rooted _ _ _ Hr) in He.
  eapply (traverse_edges_elem (keys_of nodes) (par nodes)) in He
    as (Hfrom & Hpar & _ & j & _ & Hj);
    eauto using final_heap_dom, final_heap_children, par_keys.
  split_and!.
  - assert (to e ∈ keys_of nodes) as Hk by (by eapply par_keys).
    apply (final_heap_dom nodes bp) in Hk as [t Ht].
    exists t. rewrite (heap_layout _ _ _ Hr). split; [done|].
    apply final_heap_lookup in Ht as [Hn _].
    unfold par in Hpar. rewrite Hn in Hpar.
    by destruct (stored_Some _ _ _ Hn).
  - apply (allNodes_elem _ _ _ _ Hr). eauto.
  - rewrite (allNodes_cons _ _ _ Hr). by right.
Qed.

Lemma edges_follow_parent_id_witness :
  let T := OptimizationTree Samples.chain3 ["n0"; "n1"] in
  (∃ t, heap (layoutOf T) !! "n2" = Some t
        ∧ id (node t) = "n2" ∧ parent_id (node t) = Some "n1")
  ∧ "n1" ∈ allNodesOf T ∧ "n2" ∈ allNodesOf T.
Proof.
  apply (edges_follow_parent_id Samples.chain3 ["n0"; "n1"]
           (mkEdge "n1" "n2" false)).
  vm_compute. right. left.
Defined.

(** ** Which nodes are drawn *)

(** [k] is [r], or the id of a node of the list whose parent chain leads to
    [r]. *)
Inductive descends (nodes : list ProtocolNode) (r : string) : string → Prop :=
  | descends_root : descends nodes r r
  | descends_child n p :
      n ∈ nodes → parent_id n = Some p → descends nodes r p →
      descends nodes r (id n).

(** X7.  In a list with distinct ids, a node is drawn exactly when following
    [parent_id] from it leads to the root. *)
Theorem drawn_iff_descends_from_root nodes bestPath r k :
  NoDup (id <$> nodes) →
  let T := OptimizationTree nodes bestPath in
  treeRoot (layoutOf T) = Some r →
  k ∈ allNodesOf T ↔ descends nodes r k.
Proof.
  intros ND T. unfold T, OptimizationTree; simpl.
  rewrite treeRoot_layout. intros Hr.
  rewrite (allNodes_elem _ _ _ _ Hr). split.
  - intros [j Hj]. revert k Hj.
    induction j as [|j IH]; intros k Hj; simpl in Hj.
    + injection Hj as ->. constructor.
    + destruct (par nodes k) as [p|] eqn:Ep; [|done]. simpl in Hj.
      pose proof (par_keys _ _ _ Ep) as Hk.
      destruct (key_stored _ _ Hk) as (n & Hn & <- & Hin).
      unfold par in Ep. rewrite Hn in Ep.
      by apply (descends_child _ _ n p); [| |apply IH].
  - induction 1 as [|n p Hn Hp _ [j Hj]]; [by exists 0%nat|].
    exists (S j). simpl. by rewrite (par_id nodes ND n Hn), Hp.
Qed.

Lemma drawn_iff_descends_from_root_witness :
  "n2" ∈ allNodesOf (OptimizationTree Samples.chain3 ["n0"])
  ↔ descends Samples.chain3 "n0" "n2".
Proof.
  apply (drawn_iff_descends_from_root Samples.chain3 ["n0"] "n0" "n2").
  - apply (bool_decide_unpack _). vm_compute. exact I.
  - vm_compute. reflexivity.
Defined.

(** ** Where the boxes are *)

(** The object of a key when the memo returns: a slot of the row of its
    round. *)
Lemma placed nodes bp k t :
  final_heap nodes bp !! k = Some t →
  ∃ row j,
    (round_index (node t), row) ∈ sorted_rows bp (groups nodes)
    ∧ row !! j = Some (node t) ∧ id (node t) = k
    ∧ node t ∈ entries nodes
    ∧ x t = slot_x j + (widest 0 (groups nodes) - rowWidth row) / 2
    ∧ y t = level_y (round_index (node t)).
Proof.
  intros Ht. pose proof Ht as [Hn _]%final_heap_lookup.
  destruct (stored_Some _ _ _ Hn) as [Hid _]. rewrite <-Hid in Hn.
  apply entries_elem in Hn as He.
  destruct (entry_slot nodes bp _ He) as (row & j & Hrow & Hj).
  exists row, j. rewrite <-Hid in Ht.
  rewrite (final_heap_slot _ _ _ _ _ _ Hrow Hj) in Ht.
  injection Ht as <-. by split_and!.
Qed.

Lemma slot_in_row {A} (row : list A) j a :
  row !! j = Some a → 70 ≤ slot_x j ∧ slot_x j + 70 ≤ rowWidth row.
Proof.
  intros Hj%lookup_lt_Some.
  unfold slot_x, rowWidth, NODE_WIDTH, NODE_SPACING.
  change (140 / 2) with 70. lia.
Qed.

Lemma sorted_row_width nodes bp r row :
  (r, row) ∈ sorted_rows bp (groups nodes) →
  rowWidth row ≤ widest 0 (groups nodes).
Proof.
  intros (ns & Hin & ->)%sorted_rows_elem.
  unfold rowWidth. rewrite sort_length. by apply (widest_ge _ r ns).
Qed.

(** X8.  With a root, every node of the list that the map holds is placed
    inside the canvas the memo returns: its 120 by 60 box, and the 140 by 70
    glow around it, lie between the left edge and [maxWidth], which is 80
    short of [width] or more; when no [round_index] of the list exceeds
    [2^45] in magnitude, so that no operation on a [y] or on the height is
    rounded, they end above [height], and they start at or below the top edge
    when the node's [round_index] is not negative. *)
Theorem boxes_inside_canvas nodes bestPath r k t :
  let L := layoutOf (OptimizationTree nodes bestPath) in
  treeRoot L = Some r → heap L !! k = Some t →
  0 ≤ x t - 70 ∧ x t + 70 ≤ maxWidth L ∧ maxWidth L + 80 ≤ width L
  ∧ ((∀ n, n ∈ nodes → Z.abs (round_index n) ≤ 2 ^ 45) →
     y t + 35 ≤ height L
     ∧ (0 ≤ round_index (node t) → 0 ≤ y t - 35)).
Proof.
  intros L. unfold L, OptimizationTree; simpl.
  set (bp := list_to_set bestPath : gset string).
  rewrite treeRoot_layout. intros Hr Ht.
  destruct (canvas_size nodes bp r Hr)
    as (Hw & maxRound & Hh & Hle & nmax & Hmax & Emax).
  rewrite (heap_layout _ _ _ Hr) in Ht.
  rewrite (maxWidth_layout _ _ _ Hr) in *.
  destruct (placed _ _ _ _ Ht) as (row & j & Hrow & Hj & _ & He & -> & ->).
  destruct (slot_in_row _ _ _ Hj) as [Hlo Hhi].
  pose proof (sorted_row_width _ _ _ _ Hrow) as Hrw.
  pose proof (Hle _ He) as Hround.
  assert (0 ≤ (widest 0 (groups nodes) - rowWidth row) / 2
          ≤ widest 0 (groups nodes) - rowWidth row) as Hoff.
  { split; [apply Z.div_pos; lia|]. apply Z.div_le_upper_bound; lia. }
  rewrite Hw, Hh. split_and!; [lia..|]. intros Hb.
  apply entries_elem, stored_Some in He as [_ He].
  apply entries_elem, stored_Some in Hmax as [_ Hmax].
  rewrite level_y_exact by auto.
  rewrite canvas_height_exact by (rewrite <-Emax; auto). lia.
Qed.

Lemma boxes_inside_canvas_witness :
  let L := layoutOf (OptimizationTree Samples.mixed Samples.bestOfMixed) in
  let t := mkTreeNode Samples.m6 310 400 [] in
  0 ≤ x t - 70 ∧ x t + 70 ≤ maxWidth L ∧ maxWidth L + 80 ≤ width L
  ∧ y t + 35 ≤ height L ∧ 0 ≤ y t - 35.
Proof.
  destruct (boxes_inside_canvas Samples.mixed Samples.bestOfMixed "n0" "m6"
              (mkTreeNode Samples.m6 310 400 []))
    as (H1 & H2 & H3 & H4); [vm_compute; reflexivity..|].
  destruct H4 as [H4 H5].
  { apply Forall_forall. repeat constructor; vm_compute; discriminate. }
  split_and!; [exact H1|exact H2|exact H3|exact H4|].
  apply H5. vm_compute. discriminate.
Defined.

(** ** The canvas *)

(** X9.  With a root, the list of rounds handed to [Math.max] is never
    empty, and the width is [maxWidth + 80], or 800 when that is less.  When
    no [round_index] of the list exceeds [2^45] in magnitude, the height of
    the canvas is that of the largest [round_index] in the map,
    [(maxRound + 1) * LEVEL_HEIGHT + 100], which is 180 below the [y] of the
    nodes of that round. *)
Theorem canvas_fits_largest_round nodes bestPath r :
  let L := layoutOf (OptimizationTree nodes bestPath) in
  treeRoot L = Some r →
  (∀ n, n ∈ nodes → Z.abs (round_index n) ≤ 2 ^ 45) →
  width L = Z.max (maxWidth L + 80) 800
  ∧ ∃ k t, heap L !! k = Some t
      ∧ height L = (round_index (node t) + 1) * LEVEL_HEIGHT + 100
      ∧ height L = y t + 180
      ∧ ∀ k' t', heap L !! k' = Some t' →
                 round_index (node t') ≤ round_index (node t).
Proof.
  intros L. unfold L, OptimizationTree; simpl.
  set (bp := list_to_set bestPath : gset string).
  rewrite treeRoot_layout. intros Hr Hb.
  destruct (canvas_size nodes bp r Hr) as (Hw & maxRound & Hh & Hle & n & Hn & En).
  split; [done|]. rewrite (heap_layout _ _ _ Hr).
  pose proof Hn as Hs%entries_elem.
  assert (is_Some (final_heap nodes bp !! id n)) as [t Ht].
  { apply final_heap_dom, stored_keys. eauto. }
  pose proof Ht as [Hnode _]%final_heap_lookup.
  assert (node t = n) as Et by congruence.
  assert (Z.abs maxRound ≤ 2 ^ 45) as Hmax.
  { rewrite <-En. apply Hb. by apply stored_Some in Hs as [_ ?]. }
  exists (id n), t. rewrite Et, En, Hh, canvas_height_exact by done.
  split_and!; [done|done| |].
  - destruct (placed _ _ _ _ Ht) as (_ & _ & _ & _ & _ & _ & _ & ->).
    rewrite Et, En, level_y_exact by done. lia.
  - intros k' t' Ht'. apply Hle.
    by destruct (placed _ _ _ _ Ht') as (_ & _ & _ & _ & _ & ? & _).
Qed.

Lemma canvas_fits_largest_round_witness :
  let L := layoutOf (OptimizationTree Samples.mixed Samples.bestOfMixed) in
  width L = Z.max (maxWidth L + 80) 800
  ∧ ∃ k t, heap L !! k = Some t
      ∧ height L = (round_index (node t) + 1) * LEVEL_HEIGHT + 100
      ∧ height L = y t + 180
      ∧ ∀ k' t', heap L !! k' = Some t' →
                 round_index (node t') ≤ round_index (node t).
Proof.
  apply (canvas_fits_largest_round Samples.mixed Samples.bestOfMixed "n0").
  - vm_compute. reflexivity.
  - apply Forall_forall. repeat constructor; vm_compute; discriminate.
Defined.

(** Beyond that bound the operations round.  A tree of the one node of round
    [2^53 - 2]: its [y] and the height of the canvas are the same number. *)
Example canvas_of_a_huge_round :
  let n := mkProtocolNode "n0" None (2 ^ 53 - 2) 1 "rule" in
  let L := layoutOf (OptimizationTree [n] []) in
  y <$> heap L !! "n0" = Some 1441151880758558464
  ∧ height L = 1441151880758558464.
Proof. vm_compute. done. Qed.

Lemma same_round_same_row nodes bp r row row' :
  (r, row) ∈ sorted_rows bp (groups nodes) →
  (r, row') ∈ sorted_rows bp (groups nodes) → row = row'.
Proof.
  intros (ns & Hin & ->)%sorted_rows_elem (ns' & Hin' & ->)%sorted_rows_elem.
  destruct (groups_ok_nodes nodes) as [_ Hrows _ _].
  by rewrite (Hrows _ _ Hin), (Hrows _ _ Hin').
Qed.

(** X10.  No two boxes overlap: two nodes the map holds under different ids
    are [NODE_WIDTH + NODE_SPACING] or more apart horizontally when they are
    of the same round (and have the same [y]), and, when neither
    [round_index] exceeds [2^45] in magnitude, [LEVEL_HEIGHT] or more apart
    vertically when they are not. *)
Theorem boxes_do_not_overlap nodes bestPath r k1 k2 t1 t2 :
  let L := layoutOf (OptimizationTree nodes bestPath) in
  treeRoot L = Some r →
  heap L !! k1 = Some t1 → heap L !! k2 = Some t2 → k1 ≠ k2 →
  (round_index (node t1) = round_index (node t2)
   ∧ y t1 = y t2 ∧ NODE_WIDTH + NODE_SPACING ≤ Z.abs (x t1 - x t2))
  ∨ (round_index (node t1) ≠ round_index (node t2)
     ∧ (Z.abs (round_index (node t1)) ≤ 2 ^ 45 →
        Z.abs (round_index (node t2)) ≤ 2 ^ 45 →
        LEVEL_HEIGHT ≤ Z.abs (y t1 - y t2))).
Proof.
  intros L. unfold L, OptimizationTree; simpl.
  set (bp := list_to_set bestPath : gset string).
  rewrite treeRoot_layout. intros Hr Ht1 Ht2 Hne.
  rewrite (heap_layout _ _ _ Hr) in Ht1, Ht2.
  destruct (placed _ _ _ _ Ht1) as (row1 & j1 & Hrow1 & Hj1 & Hid1 & _ & -> & ->).
  destruct (placed _ _ _ _ Ht2) as (row2 & j2 & Hrow2 & Hj2 & Hid2 & _ & -> & ->).
  destruct (decide (round_index (node t1) = round_index (node t2))) as [E|Hr12].
  - left. split_and!; [done|by rewrite E|].
    rewrite E in Hrow1.
    rewrite (same_round_same_row _ _ _ _ _ Hrow1 Hrow2) in *.
    assert (j1 ≠ j2) as Hj by (intros ->; congruence).
    unfold slot_x, NODE_WIDTH, NODE_SPACING. lia.
  - right. split; [done|]. intros H1 H2.
    rewrite !level_y_exact by done. unfold LEVEL_HEIGHT. lia.
Qed.

Lemma boxes_do_not_overlap_witness :
  let t1 := mkTreeNode Samples.m5 230 240 [] in
  let t2 := mkTreeNode Samples.m7 470 400 [] in
  let t3 := mkTreeNode Samples.m2 390 240 [] in
  LEVEL_HEIGHT ≤ Z.abs (y t1 - y t2)
  ∧ y t1 = y t3 ∧ NODE_WIDTH + NODE_SPACING ≤ Z.abs (x t1 - x t3).
Proof.
  split.
  - destruct (boxes_do_not_overlap Samples.mixed Samples.bestOfMixed
                "n0" "m5" "m7"
                (mkTreeNode Samples.m5 230 240 [])
                (mkTreeNode Samples.m7 470 400 []))
      as [[E _]|[_ H]];
      [vm_compute; reflexivity..|discriminate|discriminate E|].
    apply H; vm_compute; discriminate.
  - destruct (boxes_do_not_overlap Samples.mixed Samples.bestOfMixed
                "n0" "m5" "m2"
                (mkTreeNode Samples.m5 230 240 [])
                (mkTreeNode Samples.m2 390 240 []))
      as [(_ & Hy & Hx)|[Hne _]];
      [vm_compute; reflexivity..|discriminate| |].
    + split; [exact Hy|exact Hx].
    + destruct Hne. reflexivity.
Defined.

(** Two nodes of the rounds [2^53 - 2] and [2^53 - 1] are given the same
    [y]. *)
Example huge_rounds_share_y :
  let n0 := mkProtocolNode "n0" None (2 ^ 53 - 2) 1 "rule" in
  let n1 := mkProtocolNode "n1" (Some "n0") (2 ^ 53 - 1) 1 "rule" in
  let L := layoutOf (OptimizationTree [n0; n1] []) in
  y <$> heap L !! "n0" = Some 1441151880758558464
  ∧ y <$> heap L !! "n1" = Some 1441151880758558464.
Proof. vm_compute. done. Qed.

(** ** What the best path changes *)

Lemma traverse_nodes_children f (h h' : Heap) : ∀ n,
  (∀ k, children <$> h !! k = children <$> h' !! k) →
  traverse_nodes f h n = traverse_nodes f h' n.
Proof.
  induction f as [|f IH]; intros n Hc; [done|]. simpl. f_equal.
  specialize (Hc n) as Hn.
  destruct (h !! n) as [t|], (h' !! n) as [t'|]; simpl in Hn; try done.
  injection Hn as ->. apply bind_ext_in. intros c _. by apply IH.
Qed.

Lemma traverse_edges_children f (h h' : Heap) bp bp' : ∀ n,
  (∀ k, children <$> h !! k = children <$> h' !! k) →
  (λ e, (from e, to e)) <$> traverse_edges f h bp n
  = (λ e, (from e, to e)) <$> traverse_edges f h' bp' n.
Proof.
  induction f as [|f IH]; intros n Hc; [done|]. simpl.
  specialize (Hc n) as Hn.
  destruct (h !! n) as [t|], (h' !! n) as [t'|]; simpl in Hn; try done.
  injection Hn as ->. rewrite !fmap_bind_list. apply bind_ext_in.
  intros c _. rewrite !fmap_cons. simpl. f_equal. by apply IH.
Qed.

Lemma final_heap_shape nodes bp bp' k :
  (children <$> final_heap nodes bp !! k = children <$> final_heap nodes bp' !! k)
  ∧ (y <$> final_heap nodes bp !! k = y <$> final_heap nodes bp' !! k).
Proof.
  destruct (final_heap nodes bp !! k) as [t|] eqn:Ht.
  - assert (is_Some (final_heap nodes bp' !! k)) as [t' Ht'].
    { apply final_heap_dom. apply (final_heap_dom nodes bp). eauto. }
    rewrite Ht'. simpl.
    pose proof Ht as [Hn Hc]%final_heap_lookup.
    pose proof Ht' as [Hn' Hc']%final_heap_lookup.
    destruct (placed _ _ _ _ Ht) as (_ & _ & _ & _ & _ & _ & _ & Hy).
    destruct (placed _ _ _ _ Ht') as (_ & _ & _ & _ & _ & _ & _ & Hy').
    assert (node t = node t') as E by congruence.
    split; f_equal; congruence.
  - destruct (final_heap nodes bp' !! k) as [t'|] eqn:Ht'; [|done].
    assert (is_Some (final_heap nodes bp !! k)) as [t Ht2].
    { apply final_heap_dom. apply (final_heap_dom nodes bp'). eauto. }
    congruence.
Qed.

(** X11.  The best path decides flags and the order within a row, nothing
    else: for two best paths the same nodes are drawn in the same order, the
    edges join the same pairs in the same order, the canvas has the same
    size, and every node keeps its [y]. *)
Theorem best_path_changes_only_flags_and_x nodes bestPath bestPath' :
  let T := OptimizationTree nodes bestPath in
  let T' := OptimizationTree nodes bestPath' in
  allNodesOf T = allNodesOf T'
  ∧ (λ e, (from e, to e)) <$> edgesOf T = (λ e, (from e, to e)) <$> edgesOf T'
  ∧ width (layoutOf T) = width (layoutOf T')
  ∧ height (layoutOf T) = height (layoutOf T')
  ∧ ∀ k, y <$> heap (layoutOf T) !! k = y <$> heap (layoutOf T') !! k.
Proof.
  intros T T'. unfold T, T', OptimizationTree; simpl.
  set (bp := list_to_set bestPath : gset string).
  set (bp' := list_to_set bestPath' : gset string).
  destruct (root_of nodes) as [r|] eqn:Hr.
  - rewrite !(allNodes_rooted _ _ _ Hr), !(edges_rooted _ _ _ Hr).
    rewrite !(heap_layout _ _ _ Hr). split_and!.
    + apply traverse_nodes_children. intros k. apply final_heap_shape.
    + apply traverse_edges_children. intros k. apply final_heap_shape.
    + rewrite !layout_unfold. destruct nodes; [done|]. by rewrite Hr.
    + rewrite !layout_unfold. destruct nodes; [done|]. by rewrite Hr.
    + intros k. apply final_heap_shape.
  - unfold allNodes, edges. rewrite !treeRoot_layout, Hr.
    rewrite !layout_unfold. destruct nodes; [done|]. by rewrite Hr.
Qed.

(** ** The comparator *)

(** X12.  The comparator handed to [sort] is consistent: swapping the
    arguments negates the result, equal arguments compare as 0, and "not
    after" is transitive; so the sorted order does not depend on the sorting
    algorithm beyond its stability. *)
Theorem compareNodes_consistent bestPathSet a b c :
  (compareNodes bestPathSet b a == - compareNodes bestPathSet a b)%Q
  ∧ (compareNodes bestPathSet a a == 0)%Q
  ∧ ((compareNodes bestPathSet a b <= 0)%Q →
     (compareNodes bestPathSet b c <= 0)%Q →
     (compareNodes bestPathSet a c <= 0)%Q).
Proof.
  split_and!.
  - unfold compareNodes.
    destruct (decide (id a ∈ bestPathSet)), (decide (id b ∈ bestPathSet));
      simpl; try reflexivity; ring.
  - unfold compareNodes. destruct (decide (id a ∈ bestPathSet)); simpl; ring.
  - apply compareNodes_trans.
Qed.

Lemma compareNodes_consistent_witness :
  (compareNodes ∅ Samples.cand2 Samples.cand1
   == - compareNodes ∅ Samples.cand1 Samples.cand2)%Q
  ∧ (compareNodes ∅ Samples.cand1 Samples.cand1 == 0)%Q
  ∧ (compareNodes ∅ Samples.cand1 Samples.cand3 <= 0)%Q.
Proof.
  pose proof (compareNodes_consistent ∅ Samples.cand1 Samples.cand2 Samples.cand3)
    as (H1 & H2 & H3).
  split_and!; [exact H1|exact H2|].
  apply H3; by vm_compute.
Defined.

(** ** The latest node *)

(** [k] ends the chain of last children that starts at [n]. *)
Inductive rightmost (h : Heap) : string → string → Prop :=
  | rightmost_leaf n t : h !! n = Some t → children t = [] → rightmost h n n
  | rightmost_step n t c k :
      h !! n = Some t → last (children t) = Some c → rightmost h c k →
      rightmost h n k.

Lemma rightmost_is_leaf h n k :
  rightmost h n k → ∃ t, h !! k = Some t ∧ children t = [].
Proof. induction 1; eauto. Qed.

Section Rightmost.
Context (keys : list string) (par : string → option string) (h : Heap).
Hypothesis heap_dom : ∀ k, is_Some (h !! k) ↔ k ∈ keys.
Hypothesis heap_children : ∀ k t,
  h !! k = Some t → children t = filter (λ c, par c = Some k) keys.
Hypothesis par_keys : ∀ c p, par c = Some p → c ∈ keys.

Lemma traverse_nodes_last f : ∀ n,
  n ∈ keys → (∀ c j, (f < j)%nat → up par j c ≠ Some n) →
  ∃ k, last (traverse_nodes (S f) h n) = Some k ∧ rightmost h n k.
Proof.
  induction f as [|f IH]; intros n Hn Hno;
    pose proof Hn as [t Ht]%heap_dom;
    destruct (last (children t)) as [c|] eqn:Hl.
  - pose proof Hl as Hc%last_Some_elem_of.
    apply (child_iff keys par h heap_children par_keys _ _ _ Ht) in Hc.
    destruct (Hno c 1%nat); [lia|]. simpl. by rewrite Hc.
  - apply last_None in Hl. exists n. simpl. rewrite Ht, Hl.
    split; [done|by eapply rightmost_leaf].
  - pose proof Hl as Hc%last_Some_elem_of.
    apply (child_iff keys par h heap_children par_keys _ _ _ Ht) in Hc.
    destruct (IH c) as (k & Hk & Hrm).
    { by eapply par_keys. }
    { intros c' j Hlt Hj. apply (Hno c' (S j)); [lia|].
      by rewrite up_S_r, Hj. }
    exists k. split; [|by eapply rightmost_step].
    apply last_Some in Hl as [cs Hcs].
    change (traverse_nodes (S (S f)) h n)
      with (n :: match h !! n with
                 | None => []
                 | Some t => children t ≫= traverse_nodes (S f) h
                 end).
    rewrite Ht, Hcs, bind_app, last_cons, last_app.
    assert ([c] ≫= traverse_nodes (S f) h = traverse_nodes (S f) h c) as ->
      by apply app_nil_r.
    by rewrite Hk.
  - apply last_None in Hl. exists n.
    change (traverse_nodes (S (S f)) h n)
      with (n :: match h !! n with
                 | None => []
                 | Some t => children t ≫= traverse_nodes (S f) h
                 end).
    rewrite Ht, Hl. split; [done|by eapply rightmost_leaf].
Qed.
End Rightmost.

(** X13.  The node the effect scrolls to, which is also the one drawn as
    latest during a run, is the last drawn node: the end of the chain of last
    children from the root, hence a node without children, whichever node
    arrived last.  The scroll position is its [y] less 200 as doubles subtract,
    and 0 if that is negative; when its [round_index] is at most [2^45] in
    magnitude, [y] is [round_index * LEVEL_HEIGHT + 80] and the position is
    [round_index * LEVEL_HEIGHT - 120], or 0. *)
Theorem latest_node_is_rightmost_leaf nodes bestPath r :
  let T := OptimizationTree nodes bestPath in
  let L := layoutOf T in
  treeRoot L = Some r →
  ∃ k t, View.latestNode (allNodesOf T) = Some k
    ∧ rightmost (heap L) r k
    ∧ heap L !! k = Some t ∧ children t = []
    ∧ View.scrollTop L (allNodesOf T)
      = Some (Z.max 0 (Double.sub (y t) 200))
    ∧ (Z.abs (round_index (node t)) ≤ 2 ^ 45 →
       y t = round_index (node t) * LEVEL_HEIGHT + 80
       ∧ View.scrollTop L (allNodesOf T)
         = Some (Z.max 0 (round_index (node t) * LEVEL_HEIGHT - 120)))
    ∧ ∀ index, View.isLatest (allNodesOf T) true index = true →
               allNodesOf T !! index = Some k.
Proof.
  intros T L. unfold L, T, OptimizationTree; simpl.
  set (bp := list_to_set bestPath : gset string).
  rewrite treeRoot_layout. intros Hr.
  destruct (keys_nonempty _ _ Hr) as [f Hf].
  destruct (root_of_Some _ _ Hr) as [Hk Hp].
  rewrite (allNodes_rooted _ _ _ Hr), (heap_layout _ _ _ Hr), Hf.
  destruct (traverse_nodes_last (keys_of nodes) (par nodes) (final_heap nodes bp)
              (final_heap_dom nodes bp) (final_heap_children nodes bp)
              (par_keys nodes) f r Hk) as (k & Hlast & Hrm).
  { intros c j Hlt.
    eapply root_depth; eauto using keys_of_NoDup, par_keys. lia. }
  destruct (rightmost_is_leaf _ _ _ Hrm) as (t & Ht & Hleaf).
  set (drawn := traverse_nodes (S f) (final_heap nodes bp) r) in *.
  exists k, t. unfold View.scrollTop, View.latestNode.
  rewrite Hlast, (heap_layout _ _ _ Hr). simpl. rewrite Ht. simpl.
  split_and!; try done.
  - intros Hb.
    destruct (placed _ _ _ _ Ht) as (_ & _ & _ & _ & _ & _ & _ & ->).
    rewrite level_y_exact by done. unfold Double.sub, LEVEL_HEIGHT.
    change (2 ^ 45) with 35184372088832 in Hb.
    rewrite fl_exact by (change (2 ^ 53) with 9007199254740992; lia).
    split; [lia|]. do 2 f_equal. lia.
  - intros index. unfold View.isLatest. rewrite andb_true_r.
    intros Hi%bool_decide_eq_true. rewrite last_lookup in Hlast.
    rewrite <-Hlast. f_equal. lia.
Qed.

Lemma latest_node_is_rightmost_leaf_witness :
  let late := mkProtocolNode "late" (Some "n0") 1 90 "r" in
  let T := OptimizationTree (Samples.chain3 ++ [late]) ["n0"] in
  let L := layoutOf T in
  View.latestNode (allNodesOf T) = Some "late"
  ∧ rightmost (heap L) "n0" "late"
  ∧ heap L !! "late" = Some (mkTreeNode late 230 240 [])
  ∧ View.scrollTop L (allNodesOf T) = Some 40.
Proof.
  destruct (latest_node_is_rightmost_leaf
              (Samples.chain3 ++ [mkProtocolNode "late" (Some "n0") 1 90 "r"])
              ["n0"] "n0")
    as (k & t & Hk & Hrm & Ht & Hleaf & Hscroll & Hy & Hidx);
    [vm_compute; reflexivity|].
  vm_compute in Hk. injection Hk as <-.
  pose proof Ht as Ht'. vm_compute in Ht'. injection Ht' as <-.
  split_and!; [reflexivity|exact Hrm|exact Ht|].
  destruct Hy as [_ Hs]; [vm_compute; discriminate|].
  rewrite Hs. reflexivity.
Defined.

(** ** Colours *)

Lemma filter_selected_length (selectedNodeId : option string) (l : list string) :
  NoDup l → (length (filter (λ k, selectedNodeId = Some k) l) ≤ 1)%nat.
Proof.
  induction 1 as [|a l Ha ND IH]; [simpl; lia|].
  rewrite filter_cons. destruct (decide (selectedNodeId = Some a)) as [E|]; [|done].
  assert (filter (λ k, selectedNodeId = Some k) l = []) as ->; [|simpl; lia].
  destruct (filter _ l) as [|b l'] eqn:Hf; [done|].
  assert (b ∈ filter (λ k, selectedNodeId = Some k) l) as Hb
    by (rewrite Hf; left).
  apply list_elem_of_filter in Hb as [Eb Hb]. congruence.
Qed.

Lemma getNodeColor_selected bestPathSet selectedNodeId k :
  View.getNodeColor bestPathSet selectedNodeId k = View.selectedColor
  ↔ selectedNodeId = Some k.
Proof.
  unfold View.getNodeColor.
  destruct (bool_decide_reflect (Some k = selectedNodeId)); [done|].
  destruct (bool_decide (k ∈ _)); split; (discriminate || congruence).
Qed.

(** X14.  A node gets the colours of the selection exactly when it is the
    selected node, whether or not it is on the best path, and those of the
    best path exactly when it is on the best path and not selected; at most
    one drawn node has the colours of the selection. *)
Theorem selection_colours_one_node nodes bestPath selectedNodeId :
  let T := OptimizationTree nodes bestPath in
  let colour := View.getNodeColor (list_to_set bestPath) selectedNodeId in
  (∀ k, colour k = View.selectedColor ↔ selectedNodeId = Some k)
  ∧ (∀ k, colour k = View.bestColor ↔ k ∈ bestPath ∧ selectedNodeId ≠ Some k)
  ∧ (length (filter (λ k, colour k = View.selectedColor) (allNodesOf T)) ≤ 1)%nat.
Proof.
  intros T colour.
  assert (∀ k, colour k = View.selectedColor ↔ selectedNodeId = Some k) as Hsel
    by (intros k; apply getNodeColor_selected).
  split_and!; [done| |].
  - intros k. unfold colour, View.getNodeColor.
    destruct (bool_decide_reflect (Some k = selectedNodeId)) as [E|E].
    { split; [discriminate|]. intros [_ H]. by destruct H. }
    destruct (bool_decide_reflect (k ∈ (list_to_set bestPath : gset string)))
      as [Hb|Hb]; rewrite elem_of_list_to_set in Hb.
    + split; [|done]. intros _. split; [done|congruence].
    + split; [discriminate|]. tauto.
  - rewrite (list_filter_iff _ (λ k, selectedNodeId = Some k)) by done.
    apply filter_selected_length, allNodes_NoDup.
Qed.

(** ** The progress bar *)

(** X15.  The width of the progress bar divides by [totalRounds] or by 1,
    whichever is larger, never by 0: with [totalRounds] at most 1 it is
    [currentRound] hundredfold, and while [currentRound] is between 0 and
    [totalRounds] it is between 0 and 100 per cent. *)
Theorem progress_bounded currentRound totalRounds :
  ((totalRounds <= 1)%Q →
   (View.progress currentRound totalRounds == currentRound * 100)%Q)
  ∧ ((0 <= currentRound)%Q → (currentRound <= totalRounds)%Q →
     (0 <= View.progress currentRound totalRounds)%Q
     ∧ (View.progress currentRound totalRounds <= 100)%Q).
Proof.
  unfold View.progress. split.
  - intros Hle. apply Qle_bool_iff in Hle. rewrite Hle. field.
  - intros H0 Hle.
    set (m := if Qle_bool totalRounds 1 then 1%Q else totalRounds).
    assert (1 <= m ∧ totalRounds <= m)%Q as [Hm1 Hmt].
    { unfold m. destruct (Qle_bool totalRounds 1) eqn:E.
      - apply Qle_bool_iff in E. split; [apply Qle_refl|done].
      - split; [|apply Qle_refl].
        destruct (Qlt_le_dec 1 totalRounds) as [H|H]; [by apply Qlt_le_weak|].
        apply Qle_bool_iff in H. congruence. }
    assert (0 < m)%Q as Hpos by lra.
    assert (0 <= currentRound / m)%Q as Hd0
      by (apply Qle_shift_div_l; [done|lra]).
    assert (currentRound / m <= 1)%Q as Hd1
      by (apply Qle_shift_div_r; [done|lra]).
    split; lra.
Qed.

Lemma progress_bounded_witness :
  (View.progress 2 0 == 2 * 100)%Q
  ∧ (0 <= View.progress 2 3)%Q ∧ (View.progress 2 3 <= 100)%Q.
Proof.
  pose proof (progress_bounded 2 0) as [H1 _].
  pose proof (progress_bounded 2 3) as [_ H2].
  split; [apply H1; by vm_compute|apply H2; by vm_compute].
Defined.

End DrawingSpec.

(* ===================================================================== *)
(** * Runs of the tree reducer *)
(* ===================================================================== *)

Module StreamSpec.
Import Reducer.

(** The node a [candidate_evaluated] event appends; the list a
    [base_evaluated] or [done] event puts in place of the stored one; the
    best node and best path an event announces; the message of an [error]
    event. *)
Definition appended (events : list OptimizeStreamEvent) : list ProtocolNode :=
  omap (λ e, match e with candidate_evaluated n _ => Some n | _ => None end)
       events.

Definition replaces (e : OptimizeStreamEvent) : option (list ProtocolNode) :=
  match e with
  | base_evaluated n _ => Some [n]
  | done tree _ _ => Some tree
  | _ => None
  end.

Definition announces (e : OptimizeStreamEvent)
  : option (ProtocolNode * list string) :=
  match e with
  | base_evaluated n best_path | best_updated n best_path => Some (n, best_path)
  | done _ best_path best_node => Some (best_node, best_path)
  | _ => None
  end.

Definition is_error (e : OptimizeStreamEvent) : bool :=
  match e with error _ => true | _ => false end.

Lemma run_snoc s events e :
  run s (events ++ [e]) = handleOptimizeEvent (run s events) e.
Proof. unfold run. by rewrite foldl_app. Qed.

Lemma run_app s events events' :
  run s (events ++ events') = run (run s events) events'.
Proof. unfold run. by rewrite foldl_app. Qed.

Lemma run_appends s events :
  Forall (λ e, replaces e = None) events →
  optNodes (run s events) = optNodes s ++ appended events.
Proof.
  unfold appended. induction events as [|e events IH] using rev_ind; intros H.
  - by rewrite app_nil_r.
  - apply Forall_app in H as [H He]. rewrite Forall_singleton in He.
    rewrite run_snoc, omap_app. specialize (IH H).
    destruct e; simpl in *; try done; rewrite IH.
    + by rewrite app_assoc.
    + by rewrite app_nil_r.
    + by rewrite app_nil_r.
Qed.

(** X16.  Between two events that replace the stored list ([base_evaluated],
    [done]) the list only grows at its end: after a run without such an
    event it is the list from before followed by the nodes of the
    [candidate_evaluated] events in arrival order, and after a run with one
    it is the list the last of them put in place followed by the candidates
    that arrived later. *)
Theorem nodes_append_only_between_resets s events :
  (Forall (λ e, replaces e = None) events →
   optNodes (run s events) = optNodes s ++ appended events)
  ∧ (∀ before e tree after,
       events = before ++ e :: after → replaces e = Some tree →
       Forall (λ e, replaces e = None) after →
       optNodes (run s events) = tree ++ appended after).
Proof.
  split; [apply run_appends|].
  intros before e tree after -> He Hafter.
  rewrite run_app. change (e :: after) with ([e] ++ after).
  rewrite run_app, (run_appends _ _ Hafter). f_equal.
  destruct e; simpl in *; congruence.
Qed.

Lemma nodes_append_only_between_resets_witness :
  optNodes (run (start "p") [candidate_evaluated Samples.nodeB 1;
                             best_updated Samples.nodeB ["n1"]])
  = optNodes (start "p")
    ++ appended [candidate_evaluated Samples.nodeB 1;
                 best_updated Samples.nodeB ["n1"]]
  ∧ optNodes (run (start "p") ([error "e"] ++ base_evaluated Samples.nodeA ["n0"]
                                 :: [candidate_evaluated Samples.nodeB 1]))
    = [Samples.nodeA] ++ appended [candidate_evaluated Samples.nodeB 1].
Proof.
  split.
  - apply (proj1 (nodes_append_only_between_resets (start "p")
                    [candidate_evaluated Samples.nodeB 1;
                     best_updated Samples.nodeB ["n1"]])).
    repeat constructor.
  - apply (proj2 (nodes_append_only_between_resets (start "p")
                    ([error "e"] ++ base_evaluated Samples.nodeA ["n0"]
                       :: [candidate_evaluated Samples.nodeB 1]))
             [error "e"] (base_evaluated Samples.nodeA ["n0"]) [Samples.nodeA]
             [candidate_evaluated Samples.nodeB 1]);
      [reflexivity|reflexivity|repeat constructor].
Defined.

(** X17.  Best node and best path are always those of one event: after any
    run from the state [handleOptimize] sets up they are what the last event
    that announces a best node carried, and [null] and the empty path when
    no event announced one. *)
Theorem best_node_and_path_from_same_event protocol0 events :
  let s := run (start protocol0) events in
  match last (omap announces events) with
  | Some (n, best_path) => optBestNode s = Some n ∧ optBestPath s = best_path
  | None => optBestNode s = None ∧ optBestPath s = []
  end.
Proof.
  induction events as [|e events IH] using rev_ind; [done|].
  simpl in *. rewrite run_snoc, omap_app, last_app.
  destruct e; simpl; try done;
    destruct (last (omap announces events)) as [[n bp]|]; done.
Qed.

(** X18.  An [error] event does not stop the reducer: the events that arrive
    after it are applied as they would be without it, and the message stays
    until another [error] event replaces it. *)
Theorem events_after_error_still_apply s message events :
  Forall (λ e, is_error e = false) events →
  let s0 := run s events in
  run s (error message :: events)
  = mkState (optNodes s0) (optBestPath s0) (optBestNode s0)
            (optCurrentRound s0) (Some message) (protocol s0).
Proof.
  induction events as [|e events IH] using rev_ind; intros H; [done|].
  apply Forall_app in H as [H He]. rewrite Forall_singleton in He.
  specialize (IH H). simpl in *.
  change (error message :: events ++ [e])
    with ((error message :: events) ++ [e]).
  rewrite !run_snoc, IH. by destruct e.
Qed.

Lemma events_after_error_still_apply_witness :
  let s0 := run (start "p") [base_evaluated Samples.nodeA ["n0"]] in
  run (start "p") [error "rate limited"; base_evaluated Samples.nodeA ["n0"]]
  = mkState (optNodes s0) (optBestPath s0) (optBestNode s0)
            (optCurrentRound s0) (Some "rate limited") (protocol s0).
Proof.
  apply (events_after_error_still_apply (start "p") "rate limited"
           [base_evaluated Samples.nodeA ["n0"]]).
  repeat constructor.
Defined.

End StreamSpec.

(* ===================================================================== *)
(** * From the stream to the drawing *)
(* ===================================================================== *)

Module EndToEndSpec.
Import Layout Facts Tree Rooted LayoutSpec DrawingSpec Reducer StreamSpec.

(** X19.  A stream as the data model describes it (a parentless base node
    first, then candidates with ids of their own, each naming the base node
    or an earlier candidate as parent, and no second [base_evaluated] or
    [done]) is drawn in full: the reducer stores the base node followed by
    the candidates, every stored node is drawn once, and there is one edge
    for each candidate. *)
Theorem well_formed_stream_draws_every_node protocol0 root best_path events :
  Forall (λ e, replaces e = None) events →
  parent_id root = None →
  NoDup (id <$> root :: appended events) →
  (∀ i n, appended events !! i = Some n →
     ∃ p, parent_id n = Some p ∧ p ∈ id <$> root :: take i (appended events)) →
  let s := run (start protocol0) (base_evaluated root best_path :: events) in
  let T := OptimizationTree (optNodes s) (optBestPath s) in
  optNodes s = root :: appended events
  ∧ allNodesOf T ≡ₚ id <$> optNodes s
  ∧ length (edgesOf T) = length (appended events).
Proof.
  intros Hev Hroot ND Hpar s T.
  assert (optNodes s = root :: appended events) as Hnodes.
  { unfold s. change (base_evaluated root best_path :: events)
      with ([base_evaluated root best_path] ++ events).
    by rewrite run_app, (run_appends _ _ Hev). }
  unfold T, OptimizationTree; simpl. rewrite Hnodes.
  set (nodes := root :: appended events) in *.
  set (bp := list_to_set (optBestPath s) : gset string).
  assert (single_root nodes root) as Hsingle.
  { split_and!; [left|done|]. intros n Hn Hp.
    apply elem_of_cons in Hn as [->|Hn]; [done|].
    apply list_elem_of_lookup in Hn as [i Hi].
    destruct (Hpar i n Hi) as (p & Hp' & _). congruence. }
  assert (∀ n, n ∈ nodes → reaches_root nodes (id n)) as Hreach.
  { apply earlier_parents_reach_root. intros [|i] n p Hi Hp.
    - injection Hi as <-. congruence.
    - simpl in Hi. destruct (Hpar i n Hi) as (p' & Hp' & Hin).
      assert (p' = p) as -> by congruence.
      apply list_elem_of_fmap in Hin as (m & -> & Hm).
      change (root :: take i (appended events)) with (take (S i) nodes) in Hm.
      apply list_elem_of_lookup in Hm as [j Hj].
      apply lookup_take_Some in Hj as [Hj Hlt]. eauto. }
  pose proof (edge_targets nodes bp root ND Hsingle Hreach) as HP.
  assert (filter (λ k, k ≠ id root) (id <$> nodes) = id <$> appended events)
    as Hfilter.
  { unfold nodes. rewrite fmap_cons, filter_cons, decide_False by naive_solver.
    apply filter_ne_notin. pose proof ND as ND'. unfold nodes in ND'.
    rewrite fmap_cons in ND'. by apply NoDup_cons in ND' as [? _]. }
  rewrite Hfilter in HP.
  destruct Hsingle as (Hin & _ & Huniq).
  pose proof (root_of_unique nodes ND root Hin Hroot Huniq) as Hr.
  split_and!; [done| |].
  - rewrite (allNodes_cons _ _ _ Hr), HP. done.
  - by rewrite <-(length_fmap to), HP, length_fmap.
Qed.

Lemma well_formed_stream_draws_every_node_witness :
  let events := [candidate_evaluated Samples.nodeB 1;
                 best_updated Samples.nodeB ["n0"; "n1"];
                 candidate_evaluated Samples.nodeC 2] in
  let s := run (start "p") (base_evaluated Samples.nodeA ["n0"] :: events) in
  let T := OptimizationTree (optNodes s) (optBestPath s) in
  optNodes s = Samples.nodeA :: appended events
  ∧ allNodesOf T ≡ₚ id <$> optNodes s
  ∧ length (edgesOf T) = length (appended events).
Proof.
  apply (well_formed_stream_draws_every_node "p" Samples.nodeA ["n0"]
           [candidate_evaluated Samples.nodeB 1;
            best_updated Samples.nodeB ["n0"; "n1"];
            candidate_evaluated Samples.nodeC 2]).
  - repeat constructor.
  - reflexivity.
  - apply (bool_decide_unpack _). vm_compute. exact I.
  - intros [|[|i]] n Hn; simpl in Hn; [| |done].
    + injection Hn as <-. exists "n0". split; [reflexivity|left].
    + injection Hn as <-. exists "n1". split; [reflexivity|right; left].
Defined.

(** ** Clicks *)

Lemma filter_eq_NoDup (k : string) (l : list string) :
  NoDup l → k ∈ l → filter (λ k', Some k = Some k') l = [k].
Proof.
  induction 1 as [|a l Ha ND IH]; intros Hk; [by apply elem_of_nil in Hk|].
  rewrite filter_cons. destruct (decide (Some k = Some a)) as [[= <-]|Hne].
  - f_equal. destruct (filter _ l) as [|b l'] eqn:Hf; [done|].
    assert (b ∈ filter (λ k', Some k = Some k') l) as Hb by (rewrite Hf; left).
    apply list_elem_of_filter in Hb as [[= <-] Hb]. done.
  - apply elem_of_cons in Hk as [->|Hk]; [done|by apply IH].
Qed.

(** X20.  A click on a drawn node that is not the selected one selects it,
    and it is then the one drawn node with the colours of the selection; a
    click on the selected node, recognised by its id, clears the selection,
    and no node has those colours. *)
Theorem clicked_node_is_highlighted s k t :
  let T := Page.tree_of s in
  k ∈ allNodesOf T → heap (layoutOf T) !! k = Some t →
  let highlighted s' :=
    filter (λ k', View.getNodeColor
                    (list_to_set (optBestPath (Page.reducer s)))
                    (Page.selectedNodeId s') k' = View.selectedColor)
           (allNodesOf T) in
  let s' := Page.mkOptState (Page.reducer s) (Page.optLoading s)
              (Page.handleNodeClick (Page.selectedOptNode s) (node t))
              (Page.optConfigCollapsed s) in
  (Page.selectedNodeId s ≠ Some k →
   Page.selectedOptNode s' = Some (node t) ∧ highlighted s' = [k])
  ∧ (Page.selectedNodeId s = Some k →
     Page.selectedOptNode s' = None ∧ highlighted s' = []).
Proof.
  unfold Page.tree_of, OptimizationTree, Page.selectedNodeId; simpl.
  set (nodes := optNodes (Page.reducer s)).
  set (bp := list_to_set (optBestPath (Page.reducer s)) : gset string).
  intros Hk Ht.
  assert (id (node t) = k) as Hid.
  { destruct (root_of nodes) as [r|] eqn:Hr.
    - rewrite (heap_layout _ _ _ Hr) in Ht.
      by destruct (placed _ _ _ _ Ht) as (_ & _ & _ & _ & ? & _).
    - unfold allNodes in Hk. rewrite treeRoot_layout, Hr in Hk.
      by apply elem_of_nil in Hk. }
  pose proof (allNodes_NoDup nodes bp) as ND.
  assert (Page.handleNodeClick (Page.selectedOptNode s) (node t)
          = if decide (id <$> Page.selectedOptNode s = Some k)
            then None else Some (node t)) as ->.
  { unfold Page.handleNodeClick. rewrite Hid.
    destruct (Page.selectedOptNode s) as [p|]; simpl; [|done].
    destruct (decide (id p = k)) as [->|Hne].
    - by rewrite decide_True.
    - rewrite decide_False; [done|congruence]. }
  split; intros Hsel.
  - rewrite decide_False by done. split; [done|]. simpl. rewrite Hid.
    rewrite (list_filter_iff _ (λ k', Some k = Some k'))
      by (intros k'; apply getNodeColor_selected).
    by apply filter_eq_NoDup.
  - rewrite decide_True by done. split; [done|]. simpl.
    rewrite (list_filter_iff _ (λ k', False)).
    + clear. induction (allNodes _) as [|a l IH]; [done|].
      rewrite filter_cons. by case_decide.
    + intros k'. rewrite getNodeColor_selected. done.
Qed.

Lemma clicked_node_is_highlighted_witness :
  let s := Page.mkOptState
             (mkState Samples.chain3 ["n0"; "n1"] (Some Samples.nodeB) 2 None "p")
             false None true in
  let T := Page.tree_of s in
  let highlighted s' :=
    filter (λ k', View.getNodeColor
                    (list_to_set (optBestPath (Page.reducer s)))
                    (Page.selectedNodeId s') k' = View.selectedColor)
           (allNodesOf T) in
  let s' := Page.mkOptState (Page.reducer s) (Page.optLoading s)
              (Page.handleNodeClick (Page.selectedOptNode s) Samples.nodeB)
              (Page.optConfigCollapsed s) in
  Page.selectedOptNode s' = Some Samples.nodeB ∧ highlighted s' = ["n1"].
Proof.
  apply (clicked_node_is_highlighted
           (Page.mkOptState
              (mkState Samples.chain3 ["n0"; "n1"] (Some Samples.nodeB) 2 None "p")
              false None true)
           "n1" (mkTreeNode Samples.nodeB 70 240 ["n2"])).
  - vm_compute. right. left.
  - vm_compute. reflexivity.
  - discriminate.
Defined.

End EndToEndSpec.

(* ===================================================================== *)
(** * Facts about [trim] *)
(* ===================================================================== *)

Module TrimFacts.

Lemma trimStart_twice s : Tts.trimStart (Tts.trimStart s) = Tts.trimStart s.
Proof.
  induction s as [|u s IH]; [done|]. simpl.
  destruct (Tts.is_white_space u) eqn:E; [done|]. simpl. by rewrite E.
Qed.

Lemma trimStart_snoc s u :
  Tts.is_white_space u = false →
  Tts.trimStart (s ++ [u]) = Tts.trimStart s ++ [u].
Proof.
  intros Hu. induction s as [|v s IH]; simpl; [by rewrite Hu|].
  by destruct (Tts.is_white_space v).
Qed.

Lemma elem_of_trimStart (u : N) s : u ∈ Tts.trimStart s → u ∈ s.
Proof.
  induction s as [|v s IH]; simpl; [done|].
  destruct (Tts.is_white_space v); [|done]. intros H. right. by apply IH.
Qed.

Lemma elem_of_trim (u : N) s : u ∈ Tts.trim s → u ∈ s.
Proof.
  unfold Tts.trim, Tts.trimEnd. rewrite elem_of_reverse.
  intros H%elem_of_trimStart. rewrite elem_of_reverse in H.
  by apply elem_of_trimStart.
Qed.

Lemma trim_twice s : Tts.trim (Tts.trim s) = Tts.trim s.
Proof.
  unfold Tts.trim. set (t := Tts.trimStart s).
  assert (Tts.trimStart t = t) as Ht by apply trimStart_twice.
  assert (Tts.trimStart (Tts.trimEnd t) = Tts.trimEnd t) as ->.
  { unfold Tts.trimEnd. destruct t as [|u t']; [done|].
    simpl in Ht. destruct (Tts.is_white_space u) eqn:E.
    - exfalso. apply (f_equal length) in Ht. simpl in Ht.
      assert (length (Tts.trimStart t') ≤ length t')%nat; [|lia].
      clear. induction t' as [|v t' IH]; simpl; [lia|].
      destruct (Tts.is_white_space v); simpl; lia.
    - rewrite reverse_cons, trimStart_snoc, reverse_app by done.
      simpl. by rewrite E. }
  unfold Tts.trimEnd. by rewrite reverse_involutive, trimStart_twice.
Qed.

End TrimFacts.

(* ===================================================================== *)
(** * Sessions of the page *)
(* ===================================================================== *)

Module PageSpec.
Import Page TrimFacts.

(** The events among the calls of a session, and whether a call is one of
    the two that end it. *)
Definition delivered {E} (calls : list (Callback E)) : list E :=
  omap (λ c, match c with onEvent evt => Some evt | _ => None end) calls.

Definition ends {E} (c : Callback E) : bool :=
  match c with onEvent _ => false | _ => true end.

Definition running {E} (calls : list (Callback E)) : bool :=
  forallb (λ c, negb (ends c)) calls.

Lemma delivered_snoc {E} (calls : list (Callback E)) c :
  delivered (calls ++ [c])
  = delivered calls ++ match c with onEvent evt => [evt] | _ => [] end.
Proof. unfold delivered. rewrite omap_app. by destruct c. Qed.

Lemma running_snoc {E} (calls : list (Callback E)) c :
  running (calls ++ [c]) = running calls && negb (ends c).
Proof. unfold running. rewrite forallb_app. simpl. by rewrite andb_true_r. Qed.

(** ** The optimize tab *)

(** The message a call reports: an [error] event's, or [onError]'s. *)
Definition failure (c : Callback Reducer.OptimizeStreamEvent) : option string :=
  match c with
  | onEvent (Reducer.error message) => Some message
  | onError err_message => Some err_message
  | _ => None
  end.

(** The rule a [done] event makes the protocol. *)
Definition adopted (c : Callback Reducer.OptimizeStreamEvent) : option string :=
  match c with
  | onEvent (Reducer.done _ _ best_node) => Some (rule best_node)
  | _ => None
  end.

Lemma optimize_session_snoc form s calls c :
  optimize_session form s (calls ++ [c])
  = optimize_callback (optimize_session form s calls) c.
Proof. unfold optimize_session. by rewrite foldl_app. Qed.

(** X21.  During an optimization the events are applied in arrival order,
    whatever else the session calls: nodes, best path, best node, round and
    protocol are those of the reducer run over the delivered events.  The
    run stays marked as running until the session calls [onError] or
    [onClose]; an [error] or [done] event does not end it.  The error shown
    is the last one reported, by an [error] event or by [onError]. *)
Theorem optimize_session_cells form s calls :
  let s' := optimize_session form s calls in
  let r := Reducer.run (Reducer.start (Reducer.protocol (reducer s)))
             (delivered calls) in
  Reducer.optNodes (reducer s') = Reducer.optNodes r
  ∧ Reducer.optBestPath (reducer s') = Reducer.optBestPath r
  ∧ Reducer.optBestNode (reducer s') = Reducer.optBestNode r
  ∧ Reducer.optCurrentRound (reducer s') = Reducer.optCurrentRound r
  ∧ Reducer.protocol (reducer s') = Reducer.protocol r
  ∧ Reducer.optError (reducer s') = last (omap failure calls)
  ∧ optLoading s' = running calls.
Proof.
  induction calls as [|c calls IH] using rev_ind; [done|].
  simpl in *. rewrite optimize_session_snoc, delivered_snoc, running_snoc.
  rewrite omap_app, last_app.
  destruct IH as (H1 & H2 & H3 & H4 & H5 & H6 & H7).
  destruct c as [evt| |]; simpl.
  - rewrite StreamSpec.run_snoc, andb_true_r.
    destruct evt; simpl; rewrite ?H1, ?H2, ?H3, ?H4, ?H5, ?H6, ?H7;
      by split_and!.
  - rewrite app_nil_r, andb_false_r. by split_and!.
  - rewrite app_nil_r, andb_false_r. by split_and!.
Qed.

(** X22.  The protocol the next optimization is started with is the rule of
    the best node of the last [done] event of the session before, or the
    protocol that session was started with when no [done] event arrived. *)
Theorem next_run_starts_from_best_rule form form' s calls :
  q_protocol (handleOptimize form' (optimize_session form s calls)).2
  = default (Reducer.protocol (reducer s)) (last (omap adopted calls)).
Proof.
  simpl. induction calls as [|c calls IH] using rev_ind; [done|].
  rewrite optimize_session_snoc, omap_app, last_app.
  destruct c as [evt| |]; simpl; [|done..].
  destruct evt; simpl; done.
Qed.

(** ** The test prompts *)

Lemma split_lf_nonempty s : split_lf s ≠ [].
Proof.
  destruct s as [|u s]; [done|]. simpl.
  destruct (N.eqb u 10); [done|]. by destruct (split_lf s).
Qed.

Lemma split_lf_no_line_feed s p : p ∈ split_lf s → 10%N ∉ p.
Proof.
  revert p. induction s as [|u s IH]; intros p; simpl.
  - intros ->%list_elem_of_singleton. apply not_elem_of_nil.
  - destruct (N.eqb_spec u 10) as [->|Hu].
    + intros [->|Hp]%elem_of_cons; [apply not_elem_of_nil|by apply IH].
    + destruct (split_lf s) as [|q qs] eqn:E.
      * by destruct (split_lf_nonempty s).
      * intros [->|Hp]%elem_of_cons.
        -- intros [?|Hq]%elem_of_cons; [congruence|].
           by apply (IH q); [left|].
        -- apply IH. by right.
Qed.

Lemma split_lf_blank s :
  Forall TtsSpec.blank (split_lf s) ↔ TtsSpec.blank s.
Proof.
  unfold TtsSpec.blank. induction s as [|u s IH]; simpl.
  - split; [constructor|]. intros _. by repeat constructor.
  - destruct (N.eqb_spec u 10) as [->|Hu].
    + rewrite !Forall_cons, IH. split; [by intros [_ ?]|].
      intros [_ ?]. by split; [constructor|].
    + destruct (split_lf s) as [|q qs] eqn:E.
      * by destruct (split_lf_nonempty s).
      * rewrite !Forall_cons, <-IH, !Forall_cons. tauto.
Qed.

(** X23.  The test prompts [handleOptimize] sends are the lines of the text
    area, trimmed, without the ones that are blank: every prompt sent is not
    empty, holds no line feed, and has no white space at either end (to trim
    it again changes nothing).  No prompt at all is sent, and the stream is
    opened all the same, exactly when the text area holds white space only. *)
Theorem prompts_sent_are_trimmed_lines form s :
  let prompts := inputPrompts (handleOptimize form s).2 in
  (∀ p, p ∈ prompts → p ≠ [] ∧ (10%N ∉ p) ∧ Tts.trim p = p)
  ∧ (prompts = [] ↔ TtsSpec.blank (optPrompts form)).
Proof.
  simpl. unfold prompts_of. split.
  - intros p [Hne Hp]%list_elem_of_filter.
    apply list_elem_of_fmap in Hp as (line & -> & Hline).
    split_and!; [done| |apply trim_twice].
    intros H%elem_of_trim. by apply (split_lf_no_line_feed _ _ Hline).
  - rewrite <-split_lf_blank. generalize (split_lf (optPrompts form)).
    intros lines. induction lines as [|l lines IH]; [done|]. csimpl.
    rewrite filter_cons, Forall_cons, <-IH, <-TtsSpec.trim_nil.
    case_decide as Hl.
    + split; [done|]. by intros [? _].
    + tauto.
Qed.

Lemma prompts_sent_are_trimmed_lines_witness :
  let form := mkForm "a1" "a2" (Tts.units " first " ++ [10%N; 32%N; 10%N]
                                  ++ Tts.units "second") 3 5 in
  let s := mkOptState (Reducer.start "p") false None false in
  inputPrompts (handleOptimize form s).2 = [Tts.units "first"; Tts.units "second"]
  ∧ Tts.units "first" ≠ [] ∧ (10%N ∉ Tts.units "first")
  ∧ Tts.trim (Tts.units "first") = Tts.units "first".
Proof.
  split; [reflexivity|].
  apply (proj1 (prompts_sent_are_trimmed_lines
                  (mkForm "a1" "a2" (Tts.units " first " ++ [10%N; 32%N; 10%N]
                                       ++ Tts.units "second") 3 5)
                  (mkOptState (Reducer.start "p") false None false))
           (Tts.units "first")).
  vm_compute. left.
Defined.

(** ** The simulate tab *)

Definition finals (events : list RunEvent) : list FinalEvent :=
  omap (λ e, match e with final f => Some f | agent_message _ => None end) events.

Definition reported (c : Callback RunEvent) : option string :=
  match c with onError err_message => Some err_message | _ => None end.

(** What [handleRun]'s [onEvent] stores for a final event. *)
Definition result_of (f : FinalEvent) : RunResponse :=
  mkRunResponse (final_message f) (default 0%Q (tokens f)) [].

Lemma run_session_snoc s calls c :
  run_session s (calls ++ [c]) = run_callback (run_session s calls) c.
Proof. unfold run_session. by rewrite foldl_app. Qed.

Lemma finalEvent_head events : finalEvent events = head (finals events).
Proof.
  induction events as [|[m|f] events IH]; simpl; done.
Qed.

Lemma run_session_inv s calls :
  events (run_session s calls) = delivered calls
  ∧ runResult (run_session s calls)
    = result_of <$> last (finals (delivered calls))
  ∧ runLoading (run_session s calls) = running calls
  ∧ runError (run_session s calls) = last (omap reported calls).
Proof.
  induction calls as [|c calls IH] using rev_ind; [done|].
  rewrite run_session_snoc, delivered_snoc, running_snoc, omap_app, last_app.
  destruct IH as (H1 & H2 & H3 & H4).
  destruct c as [[m|f]| |]; simpl; unfold finals;
    rewrite ?omap_app, ?last_app, ?app_nil_r, ?andb_true_r, ?andb_false_r;
    simpl; rewrite ?H1, ?H2, ?H3, ?H4; by split_and!.
Qed.

(** X24.  During a simulation every delivered event is appended to the log,
    in arrival order and whatever else the session calls, also after
    [onError] or [onClose].  The stored result is that of the last final
    event, while [finalEvent], whose message the page shows, is the first
    final event of the log.  The run stays marked as running until
    [onError] or [onClose]; the error kept is the last one reported; and
    the status reads "Complete" as soon as the run has ended with an event
    in the log, also when it ended with [onError]. *)
Theorem run_session_cells s calls :
  let s' := run_session s calls in
  events s' = delivered calls
  ∧ runResult s' = result_of <$> last (finals (delivered calls))
  ∧ finalEvent (events s') = head (finals (delivered calls))
  ∧ runLoading s' = running calls
  ∧ runError s' = last (omap reported calls)
  ∧ statusLabel s'
    = if running calls then "Streaming..."
      else match delivered calls with [] => "Idle" | _ => "Complete" end.
Proof.
  simpl. destruct (run_session_inv s calls) as (H1 & H2 & H3 & H4).
  split_and!; try done.
  - by rewrite H1, finalEvent_head.
  - unfold statusLabel. by rewrite H1, H3.
Qed.

(** X25.  After a run whose only final event is its last event, the page
    shows that event: [finalEvent] is it, the stored result holds its message
    and its token count, 0 when it has none; and the token pill is shown
    exactly when the event has a token count other than 0. *)
Theorem single_final_event_is_shown s calls messages f :
  delivered calls = (agent_message <$> messages) ++ [final f] →
  let s' := run_session s calls in
  finalEvent (events s') = Some f
  ∧ runResult s' = Some (mkRunResponse (final_message f) (default 0%Q (tokens f)) [])
  ∧ tokenCount s' = Some (default 0%Q (tokens f))
  ∧ tokenPill s'
    = match tokens f with
      | Some q => if Qeq_bool q 0 then None else Some q
      | None => None
      end.
Proof.
  intros Hd. destruct (run_session_inv s calls) as (H1 & H2 & _).
  simpl. rewrite Hd in *.
  assert (finals (agent_message <$> messages) = []) as Hm.
  { clear. induction messages as [|m ms IH]; [done|exact IH]. }
  assert (finals ((agent_message <$> messages) ++ [final f]) = [f]) as Hf.
  { unfold finals in *. by rewrite omap_app, Hm. }
  rewrite Hf in H2. simpl in H2.
  assert (finalEvent (events (run_session s calls)) = Some f) as H3
    by (by rewrite H1, finalEvent_head, Hf).
  unfold tokenPill, tokenCount. rewrite H3, H2. simpl.
  split_and!; [done|done|by destruct (tokens f)|].
  by destruct (tokens f) as [q|].
Qed.

Lemma single_final_event_is_shown_witness :
  let f := mkFinalEvent "Tuesday at 2pm" None in
  let s' := run_session (mkRunState [] None false None)
              [onEvent (agent_message
                          (mkAgentMessageEvent "outbound" "a1" "a2" "hello"));
               onEvent (final f); onClose] in
  finalEvent (events s') = Some f
  ∧ runResult s' = Some (mkRunResponse (final_message f) (default 0%Q (tokens f)) [])
  ∧ tokenCount s' = Some (default 0%Q (tokens f))
  ∧ tokenPill s'
    = match tokens f with
      | Some q => if Qeq_bool q 0 then None else Some q
      | None => None
      end.
Proof.
  apply (single_final_event_is_shown (mkRunState [] None false None)
           [onEvent (agent_message
                       (mkAgentMessageEvent "outbound" "a1" "a2" "hello"));
            onEvent (final (mkFinalEvent "Tuesday at 2pm" None)); onClose]
           [mkAgentMessageEvent "outbound" "a1" "a2" "hello"]
           (mkFinalEvent "Tuesday at 2pm" None)).
  reflexivity.
Defined.

Lemma last_filter_last {A} (P : A → Prop) `{∀ a, Decision (P a)} (l : list A) a :
  last l = Some a → P a → last (filter P l) = Some a.
Proof.
  intros [l' ->]%last_Some Ha.
  rewrite filter_app, filter_cons, decide_True by done.
  by rewrite filter_nil, last_snoc.
Qed.

(** X26.  The agent shown as speaking is the sender of the newest message of
    the log, and that message is the one [MessageArc] shows on the arc of its
    direction; final events change neither.  Before the first message, and
    for a newest message that is neither outbound nor return, no agent is
    shown as speaking. *)
Theorem speaking_agent_sent_newest_message events :
  (∀ f, speakingAgent (events ++ [final f]) = speakingAgent events
        ∧ messageEvents (events ++ [final f]) = messageEvents events)
  ∧ match lastMessage events with
    | None =>
        speakingAgent events = None
        ∧ outboundMessage (messageEvents events) = None
        ∧ returnMessage (messageEvents events) = None
    | Some m =>
        (direction m = "outbound" →
         speakingAgent events = Some "agent1"
         ∧ outboundMessage (messageEvents events) = Some m)
        ∧ (direction m = "return" →
           speakingAgent events = Some "agent2"
           ∧ returnMessage (messageEvents events) = Some m)
        ∧ (direction m ≠ "outbound" → direction m ≠ "return" →
           speakingAgent events = None)
    end.
Proof.
  split.
  - intros f.
    assert (messageEvents (events ++ [final f]) = messageEvents events) as E.
    { unfold messageEvents. by rewrite omap_app, app_nil_r. }
    split; [|done]. unfold speakingAgent, lastMessage. by rewrite E.
  - unfold speakingAgent, outboundMessage, returnMessage, latest_of.
    destruct (lastMessage events) as [m|] eqn:Hm.
    + unfold lastMessage in Hm. split_and!.
      * intros Hd. rewrite decide_True by done.
        split; [done|]. by apply last_filter_last.
      * intros Hd. rewrite decide_False, decide_True by (done || by rewrite Hd).
        split; [done|]. by apply last_filter_last.
      * intros H1 H2. by rewrite !decide_False.
    + unfold lastMessage in Hm. apply last_None in Hm. by rewrite Hm.
Qed.

Lemma speaking_agent_sent_newest_message_witness :
  let m := mkAgentMessageEvent "return" "a2" "a1" "Tuesday works" in
  let events := [agent_message (mkAgentMessageEvent "outbound" "a1" "a2" "hi");
                 agent_message m; final (mkFinalEvent "done" (Some 12%Q))] in
  lastMessage events = Some m
  ∧ speakingAgent events = Some "agent2"
  ∧ returnMessage (messageEvents events) = Some m.
Proof.
  pose proof (proj2 (speaking_agent_sent_newest_message
    [agent_message (mkAgentMessageEvent "outbound" "a1" "a2" "hi");
     agent_message (mkAgentMessageEvent "return" "a2" "a1" "Tuesday works");
     final (mkFinalEvent "done" (Some 12%Q))])) as H.
  simpl in H. destruct H as (_ & H & _).
  split; [reflexivity|]. apply H. reflexivity.
Defined.

End PageSpec.

(* ===================================================================== *)
(** * The text-to-speech route: what is sent upstream and what comes back *)
(* ===================================================================== *)

Module RouteSpec.
Import Tts TtsSpec TrimFacts.

(** A member of a parsed body, if it has one. *)
Definition field (body : json) (name : string) : value :=
  match body with
  | JObject fields => snd <$> last (filter (λ f, f.1 = name) fields)
  | _ => None
  end.

(** [undefined] or [null]. *)
Definition absent (v : value) : Prop := v = None ∨ v = Some JNull.

#[export] Instance absent_dec v : Decision (absent v).
Proof.
  destruct v as [[]|]; (by left; (left + right)) || (right; by intros [|]).
Defined.

(** The request and the answer of the handler's last part, for a body with
    the text [text]. *)
Definition pick (env : string → option jsstring) (body : json)
    (name var : string) (dflt : jsstring) : value :=
  nullish (nullish (field body name) (env_value env var)) (Some (JString dflt)).

Definition request_of (env : string → option jsstring) (apiKey : jsstring)
    (body : json) (text : jsstring) : UpstreamRequest :=
  let outputFormat :=
    pick env body "output_format" "ELEVENLABS_OUTPUT_FORMAT" DEFAULT_OUTPUT_FORMAT in
  mkUpstreamRequest
    (pick env body "voice_id" "ELEVENLABS_VOICE_ID" DEFAULT_VOICE_ID)
    (if truthy outputFormat then Some outputFormat else None)
    apiKey text
    (pick env body "model_id" "ELEVENLABS_MODEL_ID" DEFAULT_MODEL_ID).

(** The voice, and the output format when it goes into the URL, have
    conversions to strings. *)
Definition has_string (v : value) : bool :=
  match v with
  | Some j => stringifiable j
  | None => true
  end.

Definition sendable (env : string → option jsstring) (body : json) : bool :=
  let outputFormat :=
    pick env body "output_format" "ELEVENLABS_OUTPUT_FORMAT" DEFAULT_OUTPUT_FORMAT in
  has_string (pick env body "voice_id" "ELEVENLABS_VOICE_ID" DEFAULT_VOICE_ID)
  && (if truthy outputFormat then has_string outputFormat else true).

(** The [detail] of the answer to an upstream failure, and the answer to
    what upstream returned. *)
Definition detail_of (JSON_parse : jsstring → option json) (rawText : jsstring)
  : jsstring :=
  let detail0 :=
    match rawText with
    | [] => units "ElevenLabs request failed"
    | _ => rawText
    end in
  match JSON_parse rawText with
  | Some (JObject fields) =>
      match last (filter (λ f, f.1 = "detail") fields) with
      | Some (_, JString d) => d
      | _ => detail0
      end
  | _ => detail0
  end.

Definition content_type (upstream : UpstreamResponse) : jsstring :=
  match u_contentType upstream with
  | None | Some [] => units "audio/mpeg"
  | Some ct => ct
  end.

Definition answer (JSON_parse : jsstring → option json)
    (fetched : option UpstreamResponse) : completion Response :=
  match fetched with
  | None => TypeError
  | Some upstream =>
      if u_ok upstream then
        match u_arrayBuffer upstream with
        | None => TypeError
        | Some audioBuffer =>
            Normal (mkResponse 200 None
                      (Some (audioBuffer, content_type upstream)))
        end
      else
        match u_rawText upstream with
        | None => TypeError
        | Some rawText =>
            Response_json (detail_of JSON_parse rawText) (u_status upstream)
        end
  end.

(** How [POST] ends, by cases on the credential, the body and its text. *)
Inductive POST_case (env : string → option jsstring)
    (fetch : UpstreamRequest → option UpstreamResponse)
    (JSON_parse : jsstring → option json) (body : option json) : Prop :=
  | case_no_key :
      ¬ configured env →
      POST env fetch JSON_parse body = rejected 500 "ELEVENLABS_API_KEY is not set" →
      POST_case env fetch JSON_parse body
  | case_no_json :
      configured env → body = None →
      POST env fetch JSON_parse body = rejected 400 "Invalid JSON payload" →
      POST_case env fetch JSON_parse body
  | case_null :
      configured env → body = Some JNull →
      POST env fetch JSON_parse body = ([], TypeError) →
      POST_case env fetch JSON_parse body
  | case_no_text b :
      configured env → body = Some b → b ≠ JNull →
      (absent (text_field b) ∨ ∃ s, text_field b = Some (JString s) ∧ blank s) →
      POST env fetch JSON_parse body = rejected 400 "text is required" →
      POST_case env fetch JSON_parse body
  | case_bad_text b v :
      configured env → body = Some b → text_field b = Some v →
      v ≠ JNull → (∀ s, v ≠ JString s) →
      POST env fetch JSON_parse body = ([], TypeError) →
      POST_case env fetch JSON_parse body
  | case_no_string b s :
      configured env → body = Some b →
      text_field b = Some (JString s) → ¬ blank s → sendable env b = false →
      POST env fetch JSON_parse body = ([], TypeError) →
      POST_case env fetch JSON_parse body
  | case_forward key b s :
      env "ELEVENLABS_API_KEY" = Some key → key ≠ [] →
      body = Some b → text_field b = Some (JString s) → ¬ blank s →
      sendable env b = true →
      POST env fetch JSON_parse body
      = ([request_of env key b (trim s)],
         answer JSON_parse (fetch (request_of env key b (trim s)))) →
      POST_case env fetch JSON_parse body.

Lemma bind_fetch {B} (r : UpstreamRequest) (fetched : option UpstreamResponse)
    (k : UpstreamResponse → Run B) :
  (∀ u, (k u).1 = []) →
  ([r], await fetched) ≫= k
  = ([r], match fetched with Some u => (k u).2 | None => TypeError end).
Proof.
  intros Hk. unfold mbind, Run_bind, run_bind. destruct fetched as [u|]; simpl;
    [|done]. by rewrite Hk.
Qed.

Lemma POST_cases env fetch JSON_parse body : POST_case env fetch JSON_parse body.
Proof.
  destruct (env "ELEVENLABS_API_KEY") as [[|u key]|] eqn:E.
  - apply case_no_key.
    + intros (? & ? & ?). congruence.
    + unfold POST. by rewrite E.
  - assert (configured env) as Hc by (by exists (u :: key)).
    destruct body as [b|].
    2:{ apply case_no_json; [done..|]. unfold POST. by rewrite E. }
    assert (b = JNull ∨ b ≠ JNull) as [->|Hnull]
      by (destruct b; (by left) || by right).
    { apply case_null; [done..|]. unfold POST. by rewrite E. }
    assert (∀ name, get b name = Normal (field b name)) as Hget
      by (intros name; by destruct b).
    change (text_field b) with (field b "text") in *.
    destruct (field b "text") as [v|] eqn:Ht.
    2:{ eapply case_no_text; [done..|left; by left|].
        unfold POST. by rewrite E, !Hget, Ht, !bind_step. }
    assert (v = JNull ∨ (∃ s, v = JString s)
            ∨ (v ≠ JNull ∧ (∀ s, v ≠ JString s)
               ∧ optional_trim (Some v) = TypeError)) as [->|[[s ->]|Hv]].
    { destruct v;
        [by left|right; right|right; right|right; left; eauto
        |right; right|right; right];
        by split_and!. }
    { eapply case_no_text; [done..|left; by right|].
      unfold POST. by rewrite E, !Hget, Ht, !bind_step. }
    2:{ destruct Hv as (Hv1 & Hv2 & Hv3).
        eapply (case_bad_text _ _ _ _ b v); [done..|].
        unfold POST. by rewrite E, !Hget, Ht, bind_step, Hv3. }
    destruct (trim s) as [|c text] eqn:Htrim.
    { eapply case_no_text; [done..| |].
      - right. exists s. split; [done|]. by apply trim_nil.
      - unfold POST. rewrite E, !Hget, Ht, bind_step. cbn [optional_trim].
        rewrite bind_step. cbn [default]. by rewrite Htrim. }
    assert (¬ blank s) as Hs by (rewrite <-trim_nil; congruence).
    assert (POST env fetch JSON_parse (Some b)
            = if sendable env b
              then ([request_of env (u :: key) b (trim s)],
                    answer JSON_parse
                      (fetch (request_of env (u :: key) b (trim s))))
              else ([], TypeError)) as HP.
    { unfold POST. rewrite E, !Hget, Ht, bind_step. cbn [optional_trim].
      rewrite bind_step. cbn [default]. rewrite Htrim, !bind_step.
      unfold sendable, request_of. fold (pick env b).
      change (nullish (nullish (field b ?n) (env_value env ?v)) (Some (JString ?d)))
        with (pick env b n v d).
      set (voice := pick env b "voice_id" _ _).
      set (model := pick env b "model_id" _ _).
      set (format := pick env b "output_format" _ _).
      unfold ToString, has_string.
      destruct voice as [jv|]; [destruct (stringifiable jv)|];
        rewrite ?bind_TypeError, ?bind_step; try done;
        cbn [andb];
        (destruct (truthy format);
         [destruct format as [jf|]; [destruct (stringifiable jf)|]|];
         rewrite ?bind_TypeError, ?bind_step; try done);
        (rewrite bind_fetch;
         [f_equal; unfold answer; destruct (fetch _) as [up|]; [|done];
          destruct (u_ok up);
          [destruct (u_arrayBuffer up); by rewrite ?bind_step
          |destruct (u_rawText up); by rewrite ?bind_step]
         |intros up; destruct (u_ok up);
          [by destruct (u_arrayBuffer up)|by destruct (u_rawText up)]]). }
    destruct (sendable env b) eqn:Hsend.
    + by eapply (case_forward _ _ _ _ (u :: key) b s).
    + by eapply (case_no_string _ _ _ _ b s).
  - apply case_no_key.
    + intros (? & ? & ?). congruence.
    + unfold POST. by rewrite E.
Qed.

(** ** What is sent upstream *)

(** X27.  The handler calls the synthesis service at most once, and only
    with the configured credential and a text: a request that is sent carries
    the value of [ELEVENLABS_API_KEY], which is not empty, and the trimmed
    [text] of the body, which is not empty and has no white space left at
    either end.  When nothing is sent the handler has thrown or answers 400
    or 500 with a [detail] and no audio. *)
Theorem upstream_requests_are_guarded env fetch JSON_parse body :
  let out := POST env fetch JSON_parse body in
  (∀ r, r ∈ out.1 →
     out.1 = [r]
     ∧ env "ELEVENLABS_API_KEY" = Some (u_apiKey r) ∧ u_apiKey r ≠ []
     ∧ u_text r ≠ [] ∧ trim (u_text r) = u_text r
     ∧ ∃ b s, body = Some b ∧ text_field b = Some (JString s)
              ∧ u_text r = trim s)
  ∧ (out.1 = [] →
     out.2 = TypeError
     ∨ ∃ resp, out.2 = Normal resp ∧ audio resp = None
               ∧ is_Some (detail resp)
               ∧ (status resp = 500 ∨ status resp = 400)).
Proof.
  simpl. destruct (POST_cases env fetch JSON_parse body)
    as [_ ->|_ _ ->|_ _ ->|b _ _ _ _ ->|b v _ _ _ _ _ ->|b s _ _ _ _ _ ->
       |key b s Hk Hne -> Ht Hs _ ->];
    unfold rejected; simpl.
  1-6: split; [by intros r ?%elem_of_nil|intros _; eauto 10].
  split; [|done]. intros r ->%list_elem_of_singleton. simpl.
  split_and!; try done.
  - by rewrite trim_nil.
  - apply trim_twice.
  - eauto.
Qed.

Lemma upstream_requests_are_guarded_witness :
  let body := Some (JObject [("text", JString (units " hi "))]) in
  let r := mkUpstreamRequest (Some (JString DEFAULT_VOICE_ID))
             (Some (Some (JString DEFAULT_OUTPUT_FORMAT)))
             (units "secret") (units "hi") (Some (JString DEFAULT_MODEL_ID)) in
  (POST sample_env sample_fetch (λ _, None) body).1 = [r]
  ∧ sample_env "ELEVENLABS_API_KEY" = Some (u_apiKey r) ∧ u_apiKey r ≠ []
  ∧ u_text r ≠ [] ∧ trim (u_text r) = u_text r
  ∧ ∃ b s, body = Some b ∧ text_field b = Some (JString s) ∧ u_text r = trim s.
Proof.
  apply (proj1 (upstream_requests_are_guarded sample_env sample_fetch (λ _, None)
                  (Some (JObject [("text", JString (units " hi "))])))).
  left.
Defined.

(** ** The overrides *)

(** X28.  Voice, model and output format of a request that is sent are each
    the body's member when the body has one that is not [null], else the
    environment variable when it is set, else the built-in default.  A member
    or variable that is an empty string counts as given: it is not replaced
    by the default, and [output_format] is left out of the URL when the
    value chosen for it is falsy. *)
Theorem overrides_take_precedence env fetch JSON_parse b r :
  r ∈ (POST env fetch JSON_parse (Some b)).1 →
  let choice name var dflt (sent : value) :=
    (¬ absent (field b name) → sent = field b name)
    ∧ (absent (field b name) → ∀ e, env var = Some e → sent = Some (JString e))
    ∧ (absent (field b name) → env var = None → sent = Some (JString dflt)) in
  choice "voice_id" "ELEVENLABS_VOICE_ID" DEFAULT_VOICE_ID (u_voiceId r)
  ∧ choice "model_id" "ELEVENLABS_MODEL_ID" DEFAULT_MODEL_ID (u_model_id r)
  ∧ ∃ format,
      choice "output_format" "ELEVENLABS_OUTPUT_FORMAT" DEFAULT_OUTPUT_FORMAT
        format
      ∧ u_output_format r = (if truthy format then Some format else None)
      ∧ (format = Some (JString []) → u_output_format r = None).
Proof.
  assert (∀ name var dflt,
    (¬ absent (field b name) → pick env b name var dflt = field b name)
    ∧ (absent (field b name) → ∀ e, env var = Some e →
       pick env b name var dflt = Some (JString e))
    ∧ (absent (field b name) → env var = None →
       pick env b name var dflt = Some (JString dflt))) as Hpick.
  { intros name var dflt. unfold pick, env_value, absent.
    destruct (field b name) as [[]|]; split_and!; try done;
      try (intros H; destruct H; by eauto);
      try (intros _ e ->; done); try (intros _ ->; done). }
  intros Hr.
  destruct (POST_cases env fetch JSON_parse (Some b))
    as [_ E|_ _ E|_ _ E|b' _ _ _ _ E|b' v _ _ _ _ _ E|b' s _ _ _ _ _ E
       |key b' s Hk Hne [= <-] Ht Hs _ E];
    rewrite E in Hr; try (by apply elem_of_nil in Hr).
  apply list_elem_of_singleton in Hr as ->. simpl.
  split_and!; try apply Hpick.
  eexists. split_and!; [apply Hpick..|reflexivity|].
  by intros ->.
Qed.

Lemma overrides_take_precedence_witness :
  let b := JObject [("text", JString (units "hi")); ("voice_id", JString [])] in
  let r := mkUpstreamRequest (Some (JString []))
             (Some (Some (JString DEFAULT_OUTPUT_FORMAT)))
             (units "secret") (units "hi") (Some (JString DEFAULT_MODEL_ID)) in
  u_voiceId r = field b "voice_id"
  ∧ u_model_id r = Some (JString DEFAULT_MODEL_ID).
Proof.
  pose proof (overrides_take_precedence sample_env sample_fetch (λ _, None)
    (JObject [("text", JString (units "hi")); ("voice_id", JString [])])
    (mkUpstreamRequest (Some (JString []))
       (Some (Some (JString DEFAULT_OUTPUT_FORMAT)))
       (units "secret") (units "hi") (Some (JString DEFAULT_MODEL_ID)))) as H.
  simpl in H. destruct H as ((H1 & _) & (_ & _ & H2) & _); [left|].
  split.
  - apply H1. intros [H|H]; discriminate H.
  - apply H2; [by left|reflexivity].
Defined.

(** ** What comes back *)

(** The [detail] member of the text of an upstream failure, when the text is
    JSON and the member is a string. *)
Definition upstream_detail (JSON_parse : jsstring → option json)
    (rawText : jsstring) : option jsstring :=
  match JSON_parse rawText ≫= λ data, field data "detail" with
  | Some (JString d) => Some d
  | _ => None
  end.

(** X29.  What the service returns is relayed when its body is read.  For a
    status in 200..299 the answer is 200 with the service's bytes as they are
    and its content type, or [audio/mpeg] when the header is missing or
    empty.  For a status in 300..599 other than 304 the answer has the
    service's status and a [detail]: the [detail] member of the service's
    text when that text is JSON with such a member that is a string, else the
    text itself, else, for an empty text, a fixed message.  The handler
    answers after a request in no other case. *)
Theorem upstream_answer_is_relayed env fetch JSON_parse body r :
  r ∈ (POST env fetch JSON_parse body).1 →
  let out := (POST env fetch JSON_parse body).2 in
  (∀ upstream audioBuffer,
     fetch r = Some upstream → 200 ≤ u_status upstream ≤ 299 →
     u_arrayBuffer upstream = Some audioBuffer →
     ∃ contentType,
       out = Normal (mkResponse 200 None (Some (audioBuffer, contentType)))
       ∧ contentType ≠ []
       ∧ (∀ h, u_contentType upstream = Some h → h ≠ [] → contentType = h)
       ∧ (u_contentType upstream = None ∨ u_contentType upstream = Some [] →
          contentType = units "audio/mpeg"))
  ∧ (∀ upstream rawText,
       fetch r = Some upstream → 300 ≤ u_status upstream ≤ 599 →
       u_status upstream ≠ 304 →
       u_rawText upstream = Some rawText →
       out = Normal (mkResponse (u_status upstream)
                (Some (default (match rawText with
                                | [] => units "ElevenLabs request failed"
                                | _ => rawText
                                end)
                         (upstream_detail JSON_parse rawText)))
                None))
  ∧ (∀ resp, out = Normal resp →
       ∃ upstream, fetch r = Some upstream
         ∧ ((200 ≤ u_status upstream ≤ 299 ∧ is_Some (u_arrayBuffer upstream))
            ∨ (300 ≤ u_status upstream ≤ 599 ∧ u_status upstream ≠ 304
               ∧ is_Some (u_rawText upstream)))).
Proof.
  intros Hr.
  destruct (POST_cases env fetch JSON_parse body)
    as [_ E|_ _ E|_ _ E|b' _ _ _ _ E|b' v _ _ _ _ _ E|b' s _ _ _ _ _ E
       |key b' s Hk Hne _ Ht Hs _ E];
    rewrite E in Hr |- *; try (by apply elem_of_nil in Hr).
  apply list_elem_of_singleton in Hr as ->. simpl.
  unfold answer, u_ok, Response_json. split_and!.
  - intros upstream audioBuffer -> Hst Hbuf.
    replace ((200 <=? u_status upstream) && (u_status upstream <=? 299))
      with true by (symmetry; apply andb_true_iff; lia).
    rewrite Hbuf. eexists. split; [reflexivity|]. unfold content_type.
    destruct (u_contentType upstream) as [[|c ct]|]; split_and!; try done.
    + by intros h [= <-].
    + by intros h [= <-].
    + by intros [|].
  - intros upstream rawText -> Hst H304 Hraw.
    replace ((200 <=? u_status upstream) && (u_status upstream <=? 299))
      with false by (symmetry; apply andb_false_iff; lia).
    rewrite Hraw.
    replace ((200 <=? u_status upstream) && (u_status upstream <=? 599))
      with true by (symmetry; apply andb_true_iff; lia).
    replace ((u_status upstream =? 204) || (u_status upstream =? 205)
             || (u_status upstream =? 304))
      with false by (symmetry; rewrite !orb_false_iff; lia).
    do 3 f_equal. unfold detail_of, upstream_detail.
    destruct (JSON_parse rawText) as [[]|]; simpl; try done.
    by destruct (last _) as [[k []]|].
  - intros resp. destruct (fetch _) as [upstream|]; [|done].
    exists upstream. split; [done|].
    destruct ((200 <=? u_status upstream) && (u_status upstream <=? 299)) eqn:Eok.
    + left. apply andb_true_iff in Eok.
      destruct (u_arrayBuffer upstream); [|done]. split; [lia|eauto].
    + right. apply andb_false_iff in Eok.
      destruct (u_rawText upstream); [|done].
      destruct ((200 <=? u_status upstream) && (u_status upstream <=? 599))
        eqn:Erange; [|done].
      destruct ((u_status upstream =? 204) || (u_status upstream =? 205)
                || (u_status upstream =? 304)) eqn:Enull; [done|].
      apply andb_true_iff in Erange. rewrite !orb_false_iff in Enull.
      split_and!; [lia..|eauto].
Qed.

(** A service that answers 429 with a JSON text. *)
Definition busy_fetch (_ : UpstreamRequest) : option UpstreamResponse :=
  Some (mkUpstreamResponse 429 (Some (units "{..}")) None None).

Definition busy_parse (_ : jsstring) : option json :=
  Some (JObject [("detail", JString (units "quota exceeded"))]).

Lemma upstream_answer_is_relayed_witness :
  (POST sample_env sample_fetch (λ _, None)
     (Some (JObject [("text", JString (units " hi "))]))).2
  = Normal (mkResponse 200 None (Some ([], units "audio/mpeg")))
  ∧ (POST sample_env busy_fetch busy_parse
       (Some (JObject [("text", JString (units " hi "))]))).2
    = Normal (mkResponse 429 (Some (units "quota exceeded")) None).
Proof.
  split.
  - destruct (proj1 (upstream_answer_is_relayed sample_env sample_fetch (λ _, None)
      (Some (JObject [("text", JString (units " hi "))]))
      (mkUpstreamRequest (Some (JString DEFAULT_VOICE_ID))
         (Some (Some (JString DEFAULT_OUTPUT_FORMAT)))
         (units "secret") (units "hi") (Some (JString DEFAULT_MODEL_ID)))
      ltac:(left)) _ [] eq_refl ltac:(simpl; lia) eq_refl)
      as (ct & Hout & _ & _ & Hct).
    rewrite Hout, Hct; [reflexivity|by left].
  - apply (proj1 (proj2 (upstream_answer_is_relayed sample_env busy_fetch busy_parse
      (Some (JObject [("text", JString (units " hi "))]))
      (mkUpstreamRequest (Some (JString DEFAULT_VOICE_ID))
         (Some (Some (JString DEFAULT_OUTPUT_FORMAT)))
         (units "secret") (units "hi") (Some (JString DEFAULT_MODEL_ID)))
      ltac:(left))) _ (units "{..}") eq_refl); [simpl; lia|discriminate|reflexivity].
Defined.

(** ** When the handler throws *)

(** X30.  With the credential configured, the handler ends with something
    thrown in these cases and in no other.  Before anything is sent, with a
    [TypeError]: for the body [null]; for a body whose [text] is neither
    missing, nor [null], nor a string; and for a body with a text whose voice
    id, or output format that goes into the URL, has no conversion to a
    string.  After the request, with a [TypeError]: when [fetch] rejects,
    when the read of the body rejects, and when the service answers 304,
    which allows no body; and with a [RangeError] when the service's status
    is outside 200..599. *)
Theorem POST_throws_iff env fetch JSON_parse body :
  configured env →
  let out := POST env fetch JSON_parse body in
  (out = ([], TypeError)
   ↔ body = Some JNull
     ∨ (∃ b v, body = Some b ∧ text_field b = Some v
               ∧ v ≠ JNull ∧ ∀ s, v ≠ JString s)
     ∨ (∃ b s, body = Some b ∧ text_field b = Some (JString s)
               ∧ ¬ blank s ∧ sendable env b = false))
  ∧ (out.1 = [] → out.2 ≠ RangeError)
  ∧ ∀ r, r ∈ out.1 →
      (out.2 = TypeError
       ↔ fetch r = None
         ∨ ∃ upstream, fetch r = Some upstream
             ∧ ((200 ≤ u_status upstream ≤ 299 ∧ u_arrayBuffer upstream = None)
                ∨ (¬ 200 ≤ u_status upstream ≤ 299
                   ∧ u_rawText upstream = None)
                ∨ (u_status upstream = 304 ∧ is_Some (u_rawText upstream))))
      ∧ (out.2 = RangeError
         ↔ ∃ upstream, fetch r = Some upstream
                       ∧ (u_status upstream < 200 ∨ 599 < u_status upstream)
                       ∧ is_Some (u_rawText upstream)).
Proof.
  intros Hc. unfold absent.
  destruct (POST_cases env fetch JSON_parse body)
    as [Hno E|_ Hb E|_ Hb E|b _ Hb Hnull Ht E|b v _ Hb Ht Hv Hs E
       |b s _ Hb Ht Hs Hsend E|key b s Hk Hne Hb Ht Hs Hsend E];
    [done|rewrite E, Hb; unfold rejected; simpl..].
  - split_and!; [|done|by intros r ?%elem_of_nil]. split; [done|].
    intros [?|[(b & v & ? & _)|(b & s & ? & _)]]; discriminate.
  - split_and!; [|done|by intros r ?%elem_of_nil]. split; [by left|done].
  - split_and!; [|done|by intros r ?%elem_of_nil]. split; [done|].
    intros [[= ->]|[(b' & v & [= <-] & Hv & Hv1 & Hv2)
                   |(b' & s & [= <-] & Hv & Hs & _)]]; [done| |].
    + destruct Ht as [[H|H]|(s & H & _)]; rewrite H in Hv;
        [discriminate|injection Hv as <-; done|injection Hv as <-].
      by destruct (Hv2 s).
    + destruct Ht as [[H|H]|(s' & H & Hs')]; rewrite H in Hv;
        [discriminate..|injection Hv as <-]. done.
  - split_and!; [|done|by intros r ?%elem_of_nil]. split; [|done].
    intros _. right. left. eauto 10.
  - split_and!; [|done|by intros r ?%elem_of_nil]. split; [|done].
    intros _. right. right. eauto 10.
  - split_and!; [|done|].
    { split; [done|].
      intros [[= ->]|[(b' & v & [= <-] & Hv & Hv1 & Hv2)
                     |(b' & s' & [= <-] & _ & _ & Hs')]].
      - discriminate Ht.
      - rewrite Ht in Hv. injection Hv as <-. by destruct (Hv2 s).
      - congruence. }
    intros r ->%list_elem_of_singleton.
    unfold answer, u_ok, Response_json.
    destruct (fetch _) as [upstream|].
    2:{ split; split; try done; try (by left). by intros (? & ? & _). }
    destruct ((200 <=? u_status upstream) && (u_status upstream <=? 299)) eqn:Eok.
    { apply andb_true_iff in Eok.
      destruct (u_arrayBuffer upstream) as [buf|] eqn:Ebuf.
      - split; (split; [done|]).
        + intros [|(u' & [= <-] & [[? ?]|[[? ?]|[? ?]]])];
            (done || congruence || lia).
        + intros (u' & [= <-] & ? & _). lia.
      - split; split; try done.
        + intros _. right. exists upstream. split; [done|]. left. split; [lia|done].
        + intros (u' & [= <-] & ? & _). lia. }
    apply andb_false_iff in Eok.
    destruct (u_rawText upstream) as [raw|] eqn:Eraw.
    2:{ split; split; try done.
        - intros _. right. exists upstream. split; [done|].
          right. left. split; [lia|done].
        - intros (u' & [= <-] & _ & [? ?]). congruence. }
    destruct ((200 <=? u_status upstream) && (u_status upstream <=? 599))
      eqn:Erange.
    2:{ apply andb_false_iff in Erange. split; split; try done.
        - intros [|(u' & [= <-] & [[? ?]|[[? ?]|[? ?]]])];
            (done || congruence || lia).
        - intros _. exists upstream. split_and!; [done|lia|eauto]. }
    apply andb_true_iff in Erange.
    destruct ((u_status upstream =? 204) || (u_status upstream =? 205)
              || (u_status upstream =? 304)) eqn:Enull.
    + rewrite !orb_true_iff in Enull. split; split; try done.
      * intros _. right. exists upstream. split; [done|].
        right. right. split; [lia|eauto].
      * intros (u' & [= <-] & ? & _). lia.
    + rewrite !orb_false_iff in Enull. split; split; try done.
      * intros [|(u' & [= <-] & [[? ?]|[[? ?]|[? ?]]])];
          (done || congruence || lia).
      * intros (u' & [= <-] & ? & _). lia.
Qed.

(** A service that answers 304, and one that cannot be reached. *)
Definition unchanged_fetch (_ : UpstreamRequest) : option UpstreamResponse :=
  Some (mkUpstreamResponse 304 (Some []) (Some []) None).

Definition no_fetch (_ : UpstreamRequest) : option UpstreamResponse := None.

Lemma POST_throws_iff_witness :
  POST sample_env sample_fetch (λ _, None)
    (Some (JObject [("text", JString (units "hi"));
                    ("voice_id", JObject [("toString", JNull)])]))
  = ([], TypeError)
  ∧ (POST sample_env unchanged_fetch (λ _, None)
       (Some (JObject [("text", JString (units "hi"))]))).2 = TypeError
  ∧ (POST sample_env no_fetch (λ _, None)
       (Some (JObject [("text", JString (units "hi"))]))).2 = TypeError.
Proof.
  assert (configured sample_env) as Hc
    by (exists (units "secret"); split; [reflexivity|discriminate]).
  pose (r := mkUpstreamRequest (Some (JString DEFAULT_VOICE_ID))
               (Some (Some (JString DEFAULT_OUTPUT_FORMAT)))
               (units "secret") (units "hi") (Some (JString DEFAULT_MODEL_ID))).
  split_and!.
  - apply (proj1 (POST_throws_iff sample_env sample_fetch (λ _, None)
                    (Some (JObject [("text", JString (units "hi"));
                                    ("voice_id", JObject [("toString", JNull)])]))
                    Hc)).
    right. right. eexists _, _. split_and!; [reflexivity..| |reflexivity].
    intros H. inversion H as [|?? Hw _]. discriminate Hw.
  - apply (proj2 (proj2 (POST_throws_iff sample_env unchanged_fetch (λ _, None)
                    (Some (JObject [("text", JString (units "hi"))])) Hc))
             r ltac:(left)).
    right. eexists. split; [reflexivity|]. right. right. split; [reflexivity|].
    by eexists.
  - apply (proj2 (proj2 (POST_throws_iff sample_env no_fetch (λ _, None)
                    (Some (JObject [("text", JString (units "hi"))])) Hc))
             r ltac:(left)).
    by left.
Defined.

Lemma POST_rejects_witness :
  POST (λ _, None) sample_fetch (λ _, None) None
  = rejected 500 "ELEVENLABS_API_KEY is not set"
  ∧ POST sample_env sample_fetch (λ _, None) None
    = rejected 400 "Invalid JSON payload"
  ∧ POST sample_env sample_fetch (λ _, None)
      (Some (JObject [("text", JString (units "  "))]))
    = rejected 400 "text is required".
Proof.
  assert (configured sample_env) as Hc
    by (exists (units "secret"); split; [reflexivity|discriminate]).
  split_and!.
  - apply (proj1 (POST_rejects (λ _, None) sample_fetch (λ _, None))).
    intros (key & E & _). discriminate E.
  - apply (proj1 (proj2 (POST_rejects sample_env sample_fetch (λ _, None)))).
    exact Hc.
  - apply (proj2 (proj2 (POST_rejects sample_env sample_fetch (λ _, None))));
      [exact Hc|discriminate|].
    right. right. exists (units "  "). split; [reflexivity|].
    repeat constructor.
Defined.

End RouteSpec.
